(** * n-puzzle: state model, moves, Manhattan heuristics and the A* search

    Shallow embedding of the notebook [n-puzzle.ipynb]:
    [State], [available_actions], [do_action] (with its call counter),
    [get_pos], [manhattan_distance], the three heuristics, [set_goal],
    [astar], [init_state], [quality], [cost], [solve_instance] and the
    solvers of the experiments, followed by the properties established
    about them. *)

From Stdlib Require Import ZArith List Lia String Permutation Wellfounded.
From stdpp Require Import base numbers option list sorting gmap sets strings.

Local Open Scope Z_scope.

(** ** Python results: a value or a raised exception (named by its class) *)

Inductive result (A : Type) : Type :=
| Ok (a : A)
| Raise (e : string).
Arguments Ok {A} a.
Arguments Raise {A} e.

Definition rbind {A B} (r : result A) (k : A → result B) : result B :=
  match r with
  | Ok a => k a
  | Raise e => Raise e
  end.

#[global] Instance result_bind : MBind result := fun A B k r => @rbind A B r k.
#[global] Instance result_ret : MRet result := @Ok.

Fixpoint rmapM {A B} (f : A → result B) (l : list A) : result (list B) :=
  match l with
  | [] => Ok []
  | a :: l' => b ← f a; bs ← rmapM f l'; Ok (b :: bs)
  end.

(** ** np.int64 arithmetic: results wrap around modulo 2^64 *)

Definition wrap64 (z : Z) : Z := (z + 2 ^ 63) `mod` 2 ^ 64 - 2 ^ 63.
Definition add64 (a b : Z) : Z := wrap64 (a + b).
Definition sub64 (a b : Z) : Z := wrap64 (a - b).
Definition abs64 (a : Z) : Z := wrap64 (Z.abs a).

(** ** Grids, positions and actions *)

(** A numpy 2-D integer array, row by row. *)
Abbreviation grid := (list (list Z)) (only parsing).

Abbreviation pos := (Z * Z)%type (only parsing).

(** [action = namedtuple('Action', ['pos1', 'pos2'])] *)
Record Action := action { pos1 : pos; pos2 : pos }.

#[global] Instance Action_eq_dec : EqDecision Action.
Proof. solve_decision. Defined.

(** [state.shape[0]] *)
Definition shape0 (g : grid) : Z := Z.of_nat (length g).

(** Index of one axis of length [n]: negative indices count from the end,
    anything else out of range raises IndexError. *)
Definition norm_index (n : nat) (i : Z) : result nat :=
  if bool_decide (0 ≤ i < Z.of_nat n) then Ok (Z.to_nat i)
  else if bool_decide (- Z.of_nat n ≤ i < 0) then Ok (Z.to_nat (i + Z.of_nat n))
  else Raise "IndexError".

(** [g[p]] for a tuple index [p = (r, c)]. *)
Definition getitem (g : grid) (p : pos) : result Z :=
  r ← norm_index (length g) p.1;
  match g !! r with
  | None => Raise "IndexError"
  | Some row =>
      c ← norm_index (length row) p.2;
      match row !! c with
      | None => Raise "IndexError"
      | Some v => Ok v
      end
  end.

(** [g[p] = v] *)
Definition setitem (g : grid) (p : pos) (v : Z) : result grid :=
  r ← norm_index (length g) p.1;
  match g !! r with
  | None => Raise "IndexError"
  | Some row =>
      c ← norm_index (length row) p.2;
      Ok (<[r := <[c := v]> row]> g)
  end.

(** Row-major search for the first cell holding [n]: the first entry of
    [np.where(g == n)] and of [np.argwhere(g == n)]. *)
Fixpoint find_in_row (row : list Z) (n : Z) (c : nat) : option nat :=
  match row with
  | [] => None
  | v :: row' => if bool_decide (v = n) then Some c else find_in_row row' n (S c)
  end.

Fixpoint find_from (g : grid) (n : Z) (r : nat) : option (nat * nat) :=
  match g with
  | [] => None
  | row :: g' =>
      match find_in_row row n 0 with
      | Some c => Some (r, c)
      | None => find_from g' n (S r)
      end
  end.

Definition first_where (g : grid) (n : Z) : result pos :=
  match find_from g n 0 with
  | Some (r, c) => Ok (Z.of_nat r, Z.of_nat c)
  | None => Raise "IndexError"
  end.

(** *** available_actions *)

Definition available_actions (state : grid) : result (list Action) :=
  let puzzle_dim := shape0 state in
  '(x, y) ← first_where state 0;
  let actions := [] in
  let actions := if bool_decide (x > 0)
                 then actions ++ [action (x, y) (x - 1, y)] else actions in
  let actions := if bool_decide (x < puzzle_dim - 1)
                 then actions ++ [action (x, y) (x + 1, y)] else actions in
  let actions := if bool_decide (y > 0)
                 then actions ++ [action (x, y) (x, y - 1)] else actions in
  let actions := if bool_decide (y < puzzle_dim - 1)
                 then actions ++ [action (x, y) (x, y + 1)] else actions in
  Ok actions.

(** *** do_action

    The body of [do_action] on the value of the array: the tuple assignment
    reads [new_state[pos2]] and [new_state[pos1]] first, then writes
    [pos1] and [pos2]. *)
Definition do_action_body (state : grid) (a : Action) : result grid :=
  let new_state := state in
  v2 ← getitem new_state (pos2 a);
  v1 ← getitem new_state (pos1 a);
  new_state ← setitem new_state (pos1 a) v2;
  new_state ← setitem new_state (pos2 a) v1;
  Ok new_state.

(** ** Computations that touch the process-wide counter [do_action.calls]

    The counter survives a raised exception, so it is threaded beside the
    result. *)
Definition M (A : Type) : Type := nat → result A * nat.

#[global] Instance M_ret : MRet M := fun A a calls => (Ok a, calls).

#[global] Instance M_bind : MBind M := fun A B k m calls =>
  match m calls with
  | (Ok a, calls') => k a calls'
  | (Raise e, calls') => (Raise e, calls')
  end.

Definition mlift {A} (r : result A) : M A := fun calls => (r, calls).

Fixpoint mfoldl {A S} (f : S → A → M S) (s : S) (l : list A) : M S :=
  match l with
  | [] => mret s
  | a :: l' => s' ← f s a; mfoldl f s' l'
  end.

(** [@counter def do_action]: the wrapper counts the call, then runs the
    body. *)
Definition do_action (state : grid) (a : Action) : M grid :=
  fun calls => (do_action_body state a, S calls).

(** ** The same [do_action] over a store of arrays

    numpy arrays are mutable objects; [state.copy()] allocates a new one
    and the two assignments update that copy in place. *)
Module Store.

Abbreviation loc := nat (only parsing).
Abbreviation store := (gmap nat grid) (only parsing).

Definition ST (A : Type) : Type := store → result A * store.

Definition sbind {A B} (m : ST A) (k : A → ST B) : ST B :=
  fun σ =>
    match m σ with
    | (Ok a, σ') => k a σ'
    | (Raise e, σ') => (Raise e, σ')
    end.

Definition np_copy (l : loc) : ST loc :=
  fun σ =>
    match σ !! l with
    | Some g => let l' := fresh (dom σ) in (Ok l', <[l' := g]> σ)
    | None => (Raise "NameError", σ)
    end.

Definition np_getitem (l : loc) (p : pos) : ST Z :=
  fun σ =>
    match σ !! l with
    | Some g => (getitem g p, σ)
    | None => (Raise "NameError", σ)
    end.

Definition np_setitem (l : loc) (p : pos) (v : Z) : ST unit :=
  fun σ =>
    match σ !! l with
    | Some g =>
        match setitem g p v with
        | Ok g' => (Ok tt, <[l := g']> σ)
        | Raise e => (Raise e, σ)
        end
    | None => (Raise "NameError", σ)
    end.

Definition do_action (state : loc) (a : Action) : ST loc :=
  sbind (np_copy state) (fun new_state =>
  sbind (np_getitem new_state (pos2 a)) (fun v2 =>
  sbind (np_getitem new_state (pos1 a)) (fun v1 =>
  sbind (np_setitem new_state (pos1 a) v2) (fun _ =>
  sbind (np_setitem new_state (pos2 a) v1) (fun _ =>
  fun σ => (Ok new_state, σ)))))).

(** [a.flatten()]: a new one-dimensional array holding the items of [a]
    (kept in the store as an array of one row). *)
Definition np_flatten (l : loc) : ST loc :=
  fun σ =>
    match σ !! l with
    | Some g => let l' := fresh (dom σ) in (Ok l', <[l' := [concat g]]> σ)
    | None => (Raise "NameError", σ)
    end.

(** [np.random.shuffle(a)] rearranges the array [a] in place; [perm] is
    the rearrangement the generator draws. *)
Definition np_shuffle (perm : grid → grid) (l : loc) : ST unit :=
  fun σ =>
    match σ !! l with
    | Some g => (Ok tt, <[l := perm g]> σ)
    | None => (Raise "NameError", σ)
    end.

(** The first two lines of [init_state]:
    [state = goal.copy(); np.random.shuffle(state.flatten())]. *)
Definition init_state_shuffle (perm : grid → grid) (goal : loc) : ST loc :=
  sbind (np_copy goal) (fun state =>
  sbind (np_flatten state) (fun flat =>
  sbind (np_shuffle perm flat) (fun _ =>
  fun σ => (Ok state, σ)))).

End Store.

(** ** Distances and heuristics *)

(** [get_pos]: [np.argwhere(state_content == n)[0]] *)
Definition get_pos (state_content : grid) (n : Z) : result pos :=
  first_where state_content n.

(** [b ** e] for an np.int64 base and a Python int exponent. *)
Definition pow64 (b e : Z) : result Z :=
  if bool_decide (e < 0) then Raise "ValueError" else Ok (wrap64 (b ^ e)).

Definition manhattan_distance (state goal : grid) (n : Z) (p : Z) : result Z :=
  '(x1, y1) ← get_pos state n;
  '(x2, y2) ← get_pos goal n;
  pow64 (add64 (abs64 (sub64 x1 x2)) (abs64 (sub64 y1 y2))) p.

(** The exponent argument [exp]: unset ([None]) or a Python int.  Float
    exponents are outside this model. *)
Inductive pyexp :=
| ExpNone
| ExpInt (e : Z).

(** [range(1, puzzle_dim**2)] *)
Definition tiles (state : grid) : list Z :=
  seqZ 1 (shape0 state * shape0 state - 1).

(** [sum([...])]: starts from the int 0 and adds np.int64 terms. *)
Definition sum64 (l : list Z) : Z := foldl add64 0 l.

(** [s ** exp] where [s] is the sum of the list [l]: an np.int64 when [l]
    is not empty, the Python int 0 when it is. *)
Definition sum_pow (l : list Z) (exp : pyexp) : result Z :=
  match exp with
  | ExpNone => Raise "TypeError"
  | ExpInt e =>
      match l with
      | [] => if bool_decide (e < 0) then Raise "ZeroDivisionError" else Ok (0 ^ e)
      | _ => pow64 (sum64 l) e
      end
  end.

Definition fixed_heuristic (state goal : grid) (step : option nat) (exp : pyexp)
    (p : Z) : result Z :=
  ds ← rmapM (fun n => manhattan_distance state goal n p) (tiles state);
  sum_pow ds exp.

(** *** The two scheduled heuristics

    Their exponent is a float; IEEE doubles and the operations used on them
    stay abstract.  [min(e, 2)] returns the Python int 2 when [2 < e], so
    the result is a float or an np.int64. *)
Definition STEP_SIZE : Z := 1000.
Definition TEMPERATURE : Z := 10.

Inductive num (float : Type) :=
| NInt (z : Z)
| NFloat (f : float).
Arguments NInt {float} z.
Arguments NFloat {float} f.

Section Scheduled.
Variable float : Type.
Variable float_of_int : Z → float.
Variables fadd fdiv fpow : float → float → float.
Variable fltb : float → float → bool.
Variable arctan : float → float.

Definition step_scheduling_heuristic (state goal : grid) (step : nat)
    (exp : pyexp) : result (num float) :=
  ds ← rmapM (fun n => manhattan_distance state goal n 1) (tiles state);
  let e := fadd (float_of_int 1)
                (fdiv (float_of_int (Z.of_nat step `div` STEP_SIZE))
                      (float_of_int TEMPERATURE)) in
  if fltb (float_of_int 2) e
  then match ds with
       | [] => Ok (NInt (0 ^ 2))
       | _ => z ← pow64 (sum64 ds) 2; Ok (NInt z)
       end
  else Ok (NFloat (fpow (float_of_int (sum64 ds)) e)).

Definition arctan_scheduling_heuristic (state goal : grid) (step : nat)
    (exp : pyexp) : result (num float) :=
  ds ← rmapM (fun n => manhattan_distance state goal n 1) (tiles state);
  let e := fadd (arctan (fdiv (float_of_int (Z.of_nat step))
                              (float_of_int STEP_SIZE)))
                (float_of_int 1) in
  Ok (NFloat (fpow (float_of_int (sum64 ds)) e)).
End Scheduled.

(** ** State: an array with the hash of its bytes *)

Record State := { content : grid; hash : Z }.

(** [content.tobytes()]: the items in row-major order, whatever the shape. *)
Definition tobytes (content : grid) : list Z := concat content.

(** [__eq__] and [__lt__] compare the stored hashes. *)
Definition State_eq (a b : State) : bool := bool_decide (hash a = hash b).
Definition State_lt (a b : State) : bool := bool_decide (hash a < hash b).

(** ** Ordering of the heap items [(cost, State, path)]

    Tuples and lists compare lexicographically: the first position where
    the two differ (by [==]) decides. *)
Definition pos_ltb (a b : pos) : bool :=
  if bool_decide (a.1 = b.1) then bool_decide (a.2 < b.2)
  else bool_decide (a.1 < b.1).

Definition action_ltb (a b : Action) : bool :=
  if bool_decide (pos1 a = pos1 b) then pos_ltb (pos2 a) (pos2 b)
  else pos_ltb (pos1 a) (pos1 b).

Fixpoint path_ltb (p q : list Action) : bool :=
  match p, q with
  | [], [] => false
  | [], _ :: _ => true
  | _ :: _, [] => false
  | a :: p', b :: q' => if bool_decide (a = b) then path_ltb p' q' else action_ltb a b
  end.

(** The numbers a heuristic returns: what [astar] does with them is add a
    path length and compare. *)
Class Cost (K : Type) := {
  cost_zero : K;
  cost_add : nat → K → K;
  cost_eqb : K → K → bool;
  cost_ltb : K → K → bool
}.

(** np.int64 costs, as returned by [fixed_heuristic] with an int exponent. *)
#[global] Instance int64_cost : Cost Z := {|
  cost_zero := 0;
  cost_add n h := add64 (Z.of_nat n) h;
  cost_eqb a b := bool_decide (a = b);
  cost_ltb a b := bool_decide (a < b)
|}.

(** [set_goal]: [1 .. puzzle_dim**2 - 1] followed by [0], reshaped. *)
Fixpoint reshape (rows cols : nat) (l : list Z) : grid :=
  match rows with
  | O => []
  | S rows' => take cols l :: reshape rows' cols (drop cols l)
  end.

Definition set_goal (puzzle_dim : nat) : grid :=
  reshape puzzle_dim puzzle_dim
    (seqZ 1 (Z.of_nat puzzle_dim * Z.of_nat puzzle_dim - 1) ++ [0]).

(** ** astar *)

Section Astar.
(** Python's [hash] on bytes objects, fixed for the life of a process. *)
Variable py_hash : list Z → Z.
Context {K : Type} {cost : Cost K}.

Definition mkState (content : grid) : State :=
  {| content := content; hash := py_hash (tobytes content) |}.

Abbreviation entry := (K * State * list Action)%type (only parsing).

Definition entry_ltb (e1 e2 : entry) : bool :=
  let '(c1, s1, p1) := e1 in
  let '(c2, s2, p2) := e2 in
  if negb (cost_eqb c1 c2) then cost_ltb c1 c2
  else if negb (State_eq s1 s2) then State_lt s1 s2
  else path_ltb p1 p2.

(** [open_set] is kept as the list of the heap's items in the order in
    which [heappop] hands them out (least first). *)
Fixpoint heappush (heap : list entry) (item : entry) : list entry :=
  match heap with
  | [] => [item]
  | x :: heap' =>
      if entry_ltb item x then item :: x :: heap' else x :: heappush heap' item
  end.

Definition heappop (heap : list entry) : option (entry * list entry) :=
  match heap with
  | [] => None
  | x :: heap' => Some (x, heap')
  end.

(** The local variables of the search.  [closed_set] and [past_len] are
    keyed by State, that is by hash value. *)
Record vars := {
  open_set : list entry;
  closed_set : gset Z;
  past_len : gmap Z nat;
  steps : nat
}.

Definition dict_get (d : gmap Z nat) (s : State) : result nat :=
  match d !! hash s with
  | Some n => Ok n
  | None => Raise "KeyError"
  end.

Variable heuristic : grid → grid → nat → pyexp → result K.
Variable exp : pyexp.

(** The test [neighbor not in closed_set or
    past_len[current] + 1 < past_len[neighbor]]. *)
Definition neighbor_test (v : vars) (current neighbor : State) : result bool :=
  if bool_decide (hash neighbor ∉ closed_set v) then Ok true
  else
    pc ← dict_get (past_len v) current;
    pn ← dict_get (past_len v) neighbor;
    Ok (bool_decide (pc + 1 < pn)%nat).

(** One round of [for action in available_actions(current.content)]. *)
Definition visit (goal current : State) (curr_path : list Action)
    (v : vars) (a : Action) : M vars :=
  c ← do_action (content current) a;
  let neighbor := mkState c in
  b ← mlift (neighbor_test v current neighbor);
  if (b : bool) then
    let past_len' := <[hash neighbor := (length curr_path + 1)%nat]> (past_len v) in
    h ← mlift (heuristic (content neighbor) (content goal) (steps v) exp);
    let cost := cost_add (length curr_path + 1) h in
    mret {| open_set := heappush (open_set v) (cost, neighbor, curr_path ++ [a]);
            closed_set := {[hash neighbor]} ∪ closed_set v;
            past_len := past_len';
            steps := steps v |}
  else mret v.

Inductive outcome :=
| Return (r : bool * list Action)
| Continue (v : vars).

(** The progress line printed every 10000 steps evaluates
    [fixed_heuristic(current.content, goal.content, exp=1, p=1)]. *)
Definition log_progress (goal current : State) (v : vars) : result unit :=
  if bool_decide (Z.of_nat (steps v) `mod` 10000 = 0)
  then _ ← fixed_heuristic (content current) (content goal) None (ExpInt 1) 1; Ok tt
  else Ok tt.

(** One turn of [while open_set]. *)
Definition astar_iter (goal : State) (v : vars) : M outcome :=
  match heappop (open_set v) with
  | None => mret (Return (false, []))
  | Some ((_, current, curr_path), rest) =>
      _ ← mlift (log_progress goal current v);
      if State_eq current goal then mret (Return (true, curr_path))
      else
        actions ← mlift (available_actions (content current));
        v' ← mfoldl (visit goal current curr_path)
               {| open_set := rest; closed_set := closed_set v;
                  past_len := past_len v; steps := steps v |} actions;
        mret (Continue {| open_set := open_set v'; closed_set := closed_set v';
                          past_len := past_len v'; steps := steps v' + 1 |})
  end.

(** The loop, cut after [fuel] turns ([None]: not finished yet). *)
Fixpoint astar_loop (fuel : nat) (goal : State) (v : vars)
    : M (option (bool * list Action)) :=
  match fuel with
  | O => mret None
  | S fuel' =>
      o ← astar_iter goal v;
      match o with
      | Return r => mret (Some r)
      | Continue v' => astar_loop fuel' goal v'
      end
  end.

Definition astar_init (state : State) : vars :=
  {| open_set := heappush [] (cost_zero, state, []);
     closed_set := {[hash state]};
     past_len := {[hash state := 0%nat]};
     steps := 0 |}.

Definition astar (fuel : nat) (state goal : grid) : M (option (bool * list Action)) :=
  let state := mkState state in
  let goal := mkState goal in
  astar_loop fuel goal (astar_init state).

(** The variables after [turns] complete turns of the loop. *)
Fixpoint after_turns (turns : nat) (goal : State) (v : vars) (calls : nat)
    : option (vars * nat) :=
  match turns with
  | O => Some (v, calls)
  | S turns' =>
      match astar_iter goal v calls with
      | (Ok (Continue v'), calls') => after_turns turns' goal v' calls'
      | _ => None
      end
  end.

(** In the turn that starts from [v], the [i]-th action leads to
    [neighbor], which is in the closed set already, and the neighbour
    test holds all the same: its second disjunct is true. *)
Definition relax_taken (goal : State) (v : vars) (calls : nat) (i : nat)
    (neighbor : State) : Prop :=
  ∃ k current curr_path rest actions a v_i calls_i g',
    open_set v = (k, current, curr_path) :: rest ∧
    log_progress goal current v = Ok tt ∧
    State_eq current goal = false ∧
    available_actions (content current) = Ok actions ∧
    actions !! i = Some a ∧
    mfoldl (visit goal current curr_path)
      {| open_set := rest; closed_set := closed_set v;
         past_len := past_len v; steps := steps v |} (take i actions) calls
      = (Ok v_i, calls_i) ∧
    do_action_body (content current) a = Ok g' ∧
    neighbor = mkState g' ∧
    hash neighbor ∈ closed_set v_i ∧
    neighbor_test v_i current neighbor = Ok true.


(** The same as a computation: the neighbour, if the [i]-th action of
    the turn from [v] takes the second disjunct. *)
Definition relax_check (goal : State) (v : vars) (calls : nat) (i : nat)
    : option State :=
  match open_set v with
  | [] => None
  | (_, current, curr_path) :: rest =>
      match log_progress goal current v, State_eq current goal,
            available_actions (content current) with
      | Ok _, false, Ok actions =>
          match actions !! i,
                mfoldl (visit goal current curr_path)
                  {| open_set := rest; closed_set := closed_set v;
                     past_len := past_len v; steps := steps v |}
                  (take i actions) calls with
          | Some a, (Ok v_i, _) =>
              match do_action_body (content current) a with
              | Ok g' =>
                  if bool_decide (hash (mkState g') ∈ closed_set v_i)
                  then match neighbor_test v_i current (mkState g') with
                       | Ok true => Some (mkState g')
                       | _ => None
                       end
                  else None
              | Raise _ => None
              end
          | _, _ => None
          end
      | _, _, _ => None
      end
  end.
End Astar.

(** [fixed_heuristic] as [astar] calls it: [p] keeps its default 1. *)
Definition fixed (state goal : grid) (step : nat) (exp : pyexp) : result Z :=
  fixed_heuristic state goal (Some step) exp 1.

(** A hash without collisions, for running the search on examples. *)
Definition injective_hash (l : list Z) : Z := Z.pos (encode l).

(** A 64-bit hash, which has collisions (an item list and the same list
    after a leading 0 get the same value): the items read as the digits
    of a number in base 16. *)
Definition hash16 (l : list Z) : Z := wrap64 (foldl (λ h x, 16 * h + x) 0 l).

(** [hash16] changed at the one list [l0], which gets the value of [l1]. *)
Definition hash16_colliding (l0 l1 l : list Z) : Z :=
  if decide (l = l0) then hash16 l1 else hash16 l.

(** ** Notions used to state the properties *)

Definition rows (n : nat) (g : grid) : Prop := Forall (λ row, length row = n) g.

Definition square (n : nat) (g : grid) : Prop := length g = n ∧ rows n g.

(** The data model: an n×n grid holding each of [0 .. n*n-1] exactly once. *)
Definition valid_grid (n : nat) (g : grid) : Prop :=
  square n g ∧ concat g ≡ₚ seqZ 0 (Z.of_nat (n * n)).

Definition in_bounds (n : nat) (p : pos) : Prop :=
  (0 ≤ p.1 < Z.of_nat n) ∧ (0 ≤ p.2 < Z.of_nat n).

(** Index of a position in the row-major item list. *)
Definition flat (n : nat) (p : pos) : nat := (Z.to_nat p.1 * n + Z.to_nat p.2)%nat.

(** The only 0 of [g] is at [p]. *)
Definition blank_at (n : nat) (g : grid) (p : pos) : Prop :=
  in_bounds n p ∧ getitem g p = Ok 0 ∧
  ∀ p', in_bounds n p' → getitem g p' = Ok 0 → p' = p.

Definition adjacent (p q : pos) : Prop :=
  Z.abs (p.1 - q.1) + Z.abs (p.2 - q.2) = 1.

(** One legal move: an action offered by [available_actions], applied. *)
Definition move (g : grid) (a : Action) (g' : grid) : Prop :=
  ∃ actions, available_actions g = Ok actions ∧ a ∈ actions ∧
             do_action_body g a = Ok g'.

Inductive moves : grid → list Action → grid → Prop :=
| moves_nil g : moves g [] g
| moves_snoc g p g1 a g2 :
    moves g p g1 → move g1 a g2 → moves g (p ++ [a]) g2.

Definition solvable (start goal : grid) : Prop := ∃ p, moves start p goal.

(** The grids that a run of [astar] meets: the start, the goal and every
    neighbour that a turn of the loop builds with [do_action] from the
    state it has popped. *)
Inductive generated (py_hash : list Z → Z) {K : Type} {cost : Cost K}
    (heuristic : grid → grid → nat → pyexp → result K) (exp : pyexp)
    (start goal : grid) (calls : nat) : grid → Prop :=
| generated_start : generated py_hash heuristic exp start goal calls start
| generated_goal : generated py_hash heuristic exp start goal calls goal
| generated_neighbor turns v calls' k current curr_path rest a g' :
    after_turns py_hash heuristic exp turns (mkState py_hash goal)
      (astar_init (mkState py_hash start)) calls = Some (v, calls') →
    open_set v = (k, current, curr_path) :: rest →
    State_eq current (mkState py_hash goal) = false →
    move (content current) a g' →
    generated py_hash heuristic exp start goal calls g'.

(** The position [p] after the cells at [a] and [b] have changed places. *)
Definition swap_pos (a b p : pos) : pos :=
  if decide (p = a) then b else if decide (p = b) then a else p.

(** Applying the actions of a path in order with [do_action]. *)
Definition replay (state : grid) (path : list Action) : M grid :=
  mfoldl do_action state path.

#[global] Instance in_bounds_dec n p : Decision (in_bounds n p).
Proof. unfold in_bounds. apply _. Defined.

(** The in-bounds orthogonal neighbours of [p], in the order up, down,
    left, right. *)
Definition neighbours_in_order (n : nat) (p : pos) : list pos :=
  filter (in_bounds n)
    [(p.1 - 1, p.2); (p.1 + 1, p.2); (p.1, p.2 - 1); (p.1, p.2 + 1)].

Definition corner (n : nat) (p : pos) : Prop :=
  (p.1 = 0 ∨ p.1 = Z.of_nat n - 1) ∧ (p.2 = 0 ∨ p.2 = Z.of_nat n - 1).

Definition interior (n : nat) (p : pos) : Prop :=
  (0 < p.1 < Z.of_nat n - 1) ∧ (0 < p.2 < Z.of_nat n - 1).

(** On the border, but not at a corner. *)
Definition edge (n : nat) (p : pos) : Prop :=
  in_bounds n p ∧ ¬ corner n p ∧ ¬ interior n p.

(** The Manhattan distance of tile [v] and its sum over the tiles, as
    plain integers. *)
Definition pos_of (g : grid) (v : Z) : pos :=
  match first_where g v with
  | Ok p => p
  | Raise _ => (0, 0)
  end.

Definition md (state goal : grid) (v : Z) : Z :=
  Z.abs ((pos_of state v).1 - (pos_of goal v).1) +
  Z.abs ((pos_of state v).2 - (pos_of goal v).2).

Definition sumZ (l : list Z) : Z := foldr Z.add 0 l.

Definition manhattan_sum (state goal : grid) : Z :=
  sumZ (md state goal <$> tiles state).

(** ** An abstract view of the search

    What matters for termination: the table [past_len] and, for every
    item of the heap, the key of its state and the length of its path.  A
    turn of the loop removes one item [(y, n)] and, reading [q] for
    [past_len] at [y], pushes items [(w, n + 1)] for keys [w] that are not
    in the table yet or are recorded there with more than [q + 1]. *)
Abbreviation acfg := (gmap Z nat * list (Z * nat))%type (only parsing).

Definition relaxable (φ : gmap Z nat) (q : nat) (w : Z) : Prop :=
  match φ !! w with
  | None => True
  | Some l => (q + 1 < l)%nat
  end.

Inductive pushes (A : gset Z) (q n : nat) : acfg → acfg → Prop :=
| pushes_done c : pushes A q n c c
| pushes_skip φ H H1 c' :
    H1 ≡ₚ H → pushes A q n (φ, H1) c' → pushes A q n (φ, H) c'
| pushes_push φ H H1 w c' :
    w ∈ A → relaxable φ q w → H1 ≡ₚ (w, S n) :: H →
    pushes A q n (<[w := S n]> φ, H1) c' →
    pushes A q n (φ, H) c'.

Inductive astep (A : gset Z) : acfg → acfg → Prop :=
| astep_intro φ H y n q H0 c' :
    H ≡ₚ (y, n) :: H0 → φ !! y = Some q →
    pushes A q n (φ, H0) c' →
    astep A (φ, H) c'.

(** Items of the heap whose key lies outside [A]. *)
Definition foreign (A : gset Z) (c : acfg) : nat :=
  length (filter (λ e, e.1 ∉ A) c.2).

Definition above (φ : gmap Z nat) (m : nat) (x : Z) : Prop :=
  match φ !! x with
  | Some l => (m ≤ l)%nat
  | None => True
  end.

#[global] Instance above_dec φ m x : Decision (above φ m x).
Proof. unfold above. destruct (φ !! x); apply _. Defined.

(** [x] carries the least recorded length among the keys of [A]. *)
Definition lowest (A : gset Z) (φ : gmap Z nat) (x : Z) (m : nat) : Prop :=
  x ∈ A ∧ φ !! x = Some m ∧ set_Forall (above φ m) A.

(** ** Invariants of the search *)

Section SearchInvariants.
Variable py_hash : list Z → Z.
Context {K : Type}.
(** The grids among which the hash is known to have no collision. *)
Variable known : grid → Prop.
Variables (start goal : grid).

Definition key (g : grid) : Z := py_hash (tobytes g).

(** The keys of all arrangements of the start grid's items. *)
Definition universe : gset Z :=
  list_to_set (py_hash <$> permutations (concat start)).

Definition item_key (e : K * State * list Action) : Z := hash e.1.2.

Definition abs_item (e : K * State * list Action) : Z * nat :=
  (item_key e, length e.2).

Definition abs_vars (v : @vars K) : acfg :=
  (past_len v, abs_item <$> open_set v).

(** The path of an item leads from the start grid to its state. *)
Definition item_ok (e : K * State * list Action) : Prop :=
  moves start e.2 (content e.1.2) ∧ hash e.1.2 = key (content e.1.2).

Definition pending (open : list (K * State * list Action)) (k : Z) : Prop :=
  ∃ e, e ∈ open ∧ item_key e = k.

(** All neighbours of the known grid with key [k] are known and in the
    closed set, and [k] is not the key of the goal. *)
Definition expanded (closed : gset Z) (k : Z) : Prop :=
  k ≠ key goal ∧
  ∀ g a g', known g → key g = k → move g a g' → known g' ∧ key g' ∈ closed.

(** [busy] is the key of the state whose neighbours are being visited. *)
Record search_inv (busy : option Z) (v : @vars K) : Prop := {
  inv_dom : closed_set v = dom (past_len v);
  inv_items : Forall item_ok (open_set v);
  inv_keys : ∀ e, e ∈ open_set v → item_key e ∈ closed_set v;
  inv_start : key start ∈ closed_set v;
  inv_done : ∀ k, k ∈ closed_set v → Some k ≠ busy →
             pending (open_set v) k ∨ expanded (closed_set v) k
}.

(** The key [k] is recorded with length 1 and every item of the heap
    with that key carries the path [path]. *)
Definition recorded_once (k : Z) (path : list Action) (v : @vars K) : Prop :=
  past_len v !! k = Some 1%nat ∧
  ∀ e, e ∈ open_set v → item_key e = k → e.2 = path.
End SearchInvariants.

(** A computation that does not look at the counter: it returns the same
    result from any value of it and adds the same number of calls. *)
Definition counter_blind {A} (m : M A) : Prop :=
  ∀ calls, m calls = ((m 0%nat).1, (calls + (m 0%nat).2)%nat).

(** ** Runs under two hash functions

    Two runs count the same calls and end alike: in results that [R]
    relates, or in the same exception. *)
Definition alike {A B} (R : A → B → Prop) (x : result A * nat) (y : result B * nat)
    : Prop :=
  x.2 = y.2 ∧
  match x.1, y.1 with
  | Ok a, Ok b => R a b
  | Raise e, Raise e' => e = e'
  | _, _ => False
  end.

Section SameOrder.
Variables h1 h2 : list Z → Z.
Context {K : Type}.

(** The same array, hashed by [h1] on one side and by [h2] on the other. *)
Definition same_state (s1 s2 : State) : Prop :=
  content s1 = content s2 ∧
  hash s1 = h1 (tobytes (content s1)) ∧ hash s2 = h2 (tobytes (content s2)).

Definition same_item (e1 e2 : K * State * list Action) : Prop :=
  e1.1.1 = e2.1.1 ∧ same_state e1.1.2 e2.1.2 ∧ e1.2 = e2.2.

(** The same heap, and tables that hold the same byte strings. *)
Definition same_vars (v1 v2 : @vars K) : Prop :=
  Forall2 same_item (open_set v1) (open_set v2) ∧
  (∀ l, h1 l ∈ closed_set v1 ↔ h2 l ∈ closed_set v2) ∧
  (∀ l, past_len v1 !! h1 l = past_len v2 !! h2 l) ∧
  steps v1 = steps v2.

Definition same_outcome (o1 o2 : @outcome K) : Prop :=
  match o1, o2 with
  | Return r1, Return r2 => r1 = r2
  | Continue v1, Continue v2 => same_vars v1 v2
  | _, _ => False
  end.
End SameOrder.

(** ** Instance generation, metrics and [solve_instance] *)

(** [a.reshape(rows, cols)]: the sizes must agree. *)
Definition np_reshape (g : grid) (rows cols : nat) : result grid :=
  if bool_decide (length (concat g) = (rows * cols)%nat)
  then Ok (reshape rows cols (concat g))
  else Raise "ValueError".

(** [set_goal] with the size check its [reshape] makes: the array built
    first has one dimension and [puzzle_dim**2 - 1 + 1] items, or a single
    item when [puzzle_dim] is 0. *)
Definition set_goal_checked (puzzle_dim : nat) : result grid :=
  np_reshape [seqZ 1 (Z.of_nat puzzle_dim * Z.of_nat puzzle_dim - 1) ++ [0]]
    puzzle_dim puzzle_dim.

(** [random.choice(seq)], where [r] is the number the generator draws: any
    item of a sequence that is not empty can come out. *)
Definition choice {A} (r : nat) (seq : list A) : result A :=
  match seq !! (r `mod` length seq)%nat with
  | Some a => Ok a
  | None => Raise "IndexError"
  end.

(** The loop of [init_state]; [rnd k] is the number drawn for the [k]-th
    call of [choice]. *)
Fixpoint randomize (rnd : nat → nat) (k : nat) (randomize_steps : nat)
    (state : grid) : M grid :=
  match randomize_steps with
  | O => mret state
  | S steps' =>
      actions ← mlift (available_actions state);
      a ← mlift (choice (rnd k) actions);
      state ← do_action state a;
      randomize rnd (S k) steps' state
  end.

(** [init_state]: the shuffle works on the temporary array that
    [state.flatten()] returns (see [Store.init_state_shuffle]), so the walk
    starts from a copy of [goal]. *)
Definition init_state (goal : grid) (puzzle_dim : nat) (randomize_steps : nat)
    (rnd : nat → nat) : M grid :=
  let state := goal in
  state ← randomize rnd 0 randomize_steps state;
  mlift (np_reshape state puzzle_dim puzzle_dim).

(** [cost()]: reads [do_action.calls]. *)
Definition cost : M nat := fun calls => (Ok calls, calls).

(** [do_action.calls = 0] *)
Definition reset_calls : M unit := fun _ => (Ok tt, 0%nat).

Definition mraise {A} (e : string) : M A := fun calls => (Raise e, calls).

Section Solve.
Variable float : Type.
(** [a / b] on Python ints. *)
Variable int_truediv : Z → Z → float.

(** [quality]: a float for a path that is not empty, the int [cost()]
    otherwise. *)
Definition quality (solution : list Action) : M (num float) :=
  match solution with
  | [] => c ← cost; mret (NInt (Z.of_nat c))
  | _ :: _ => mret (NFloat (int_truediv 1 (Z.of_nat (length solution))))
  end.

Variable py_hash : list Z → Z.
Context {K : Type} {cost_K : Cost K}.
Variable heuristic : grid → grid → nat → pyexp → result K.
Variable exp : pyexp.

(** [solve_instance]; [fuel] bounds the turns of the search ([None]: not
    finished yet). *)
Definition solve_instance (rnd : nat → nat) (fuel : nat) (puzzle_dim : nat)
    : M (option (num float * nat)) :=
  goal ← mlift (set_goal_checked puzzle_dim);
  content ← init_state goal puzzle_dim 1400 rnd;
  _ ← reset_calls;
  r ← astar py_hash heuristic exp fuel content goal;
  match r with
  | None => mret None
  | Some (converged, path) =>
      if (converged : bool) then
        q ← quality path;
        c ← cost;
        mret (Some (q, c))
      else mraise "AssertionError"
  end.
End Solve.

(** ** Further notions used to state the properties *)

(** The action that undoes [a], and the path that undoes [path]. *)
Definition flip_action (a : Action) : Action := action (pos2 a) (pos1 a).

Definition reverse_path (path : list Action) : list Action :=
  reverse (flip_action <$> path).

(** A tuple index that numpy accepts on an n×n array, and the position
    it denotes: negative indices count from the end. *)
Definition index_ok (n : nat) (p : pos) : Prop :=
  (- Z.of_nat n ≤ p.1 < Z.of_nat n) ∧ (- Z.of_nat n ≤ p.2 < Z.of_nat n).

Definition norm_pos (n : nat) (p : pos) : pos :=
  (p.1 `mod` Z.of_nat n, p.2 `mod` Z.of_nat n).

(** Every state of the closed set has its entry in [past_len], and the
    states of the heap are in the closed set. *)
Definition keys_ok {K : Type} (v : @vars K) : Prop :=
  closed_set v = dom (past_len v) ∧
  ∀ e, e ∈ open_set v → hash e.1.2 ∈ closed_set v.

(** ** Costs that are ints or floats

    With a scheduled heuristic the cost [past_len[neighbor] + h] is a float
    (int + float) or an np.int64 (int + np.int64).  [num_eqb] and [num_ltb]
    are Python's [==] and [<] on such numbers. *)
Section NumCost.
Variable float : Type.
Variable float_of_int : Z → float.
Variable fadd : float → float → float.
Variables num_eqb num_ltb : num float → num float → bool.

Definition num_cost : Cost (num float) := {|
  cost_zero := NInt 0;
  cost_add n h :=
    match h with
    | NInt z => NInt (add64 (Z.of_nat n) z)
    | NFloat f => NFloat (fadd (float_of_int (Z.of_nat n)) f)
    end;
  cost_eqb := num_eqb;
  cost_ltb := num_ltb
|}.
End NumCost.

(** ** The solvers of the experiments

    The notebook defines [solve] and [solve_instance] a second time for
    its experiments; these are the second definitions.  Printing is left
    out; [time()] is an input: [times k] holds the two readings of the
    clock in the [k]-th call of [solve]. *)
Module Experiments.
Section Solvers.
Variable float : Type.
Variable int_truediv : Z → Z → float.
Variable fsub : float → float → float.
Variable float_of_int : Z → float.
Variables fadd fdiv fpow : float → float → float.
Variable fltb : float → float → bool.
Variable arctan : float → float.
Variables num_eqb num_ltb : num float → num float → bool.
Variable py_hash : list Z → Z.

(** A heuristic function together with the kind of number it returns. *)
Record strategy := {
  cost_type : Type;
  cost_ops : Cost cost_type;
  run : grid → grid → nat → pyexp → result cost_type
}.

(** The key [(name, exp)] and the value [(quality, cost, elapsed)]. *)
Local Abbreviation algorithm := (string * option Z)%type (only parsing).
Local Abbreviation measure := (num float * nat * float)%type (only parsing).

Definition to_pyexp (exp : option Z) : pyexp :=
  match exp with
  | None => ExpNone
  | Some e => ExpInt e
  end.

(** [solve]; [fuel] bounds the turns of the search ([None]: not finished
    yet). *)
Definition solve (fuel : nat) (t : float * float) (name : string) (s : strategy)
    (content goal : grid) (exp : option Z) : M (option (algorithm * measure)) :=
  let start := t.1 in
  _ ← reset_calls;
  r ← astar (cost := cost_ops s) py_hash (run s) (to_pyexp exp) fuel content goal;
  match r with
  | None => mret None
  | Some (success, path) =>
      let elapsed := fsub t.2 start in
      quality_sol ← quality float int_truediv path;
      cost_sol ← cost;
      mret (Some ((name, exp), (quality_sol, cost_sol, elapsed)))
  end.

(** [current = results.get(algorithm, []); current.append(result);
    results[algorithm] = current] *)
Definition record_result (results : gmap algorithm (list measure))
    (alg : algorithm) (result : measure) : gmap algorithm (list measure) :=
  let current := default [] (results !! alg) in
  <[alg := current ++ [result]]> results.

(** [for exp in exp_values]; [k] counts the calls of [solve] made so far. *)
Fixpoint solve_exps (fuel : nat) (times : nat → float * float) (k : nat)
    (name : string) (s : strategy) (content goal : grid)
    (results : gmap algorithm (list measure)) (exp_values : list Z)
    : M (option (gmap algorithm (list measure) * nat)) :=
  match exp_values with
  | [] => mret (Some (results, k))
  | exp :: exp_values' =>
      r ← solve fuel (times k) name s content goal (Some exp);
      match r with
      | None => mret None
      | Some (alg, result) =>
          solve_exps fuel times (S k) name s content goal
            (record_result results alg result) exp_values'
      end
  end.

(** [for (name, strategy) in heuristics.items()]: a dict hands out its
    items in the order in which the keys were inserted. *)
Fixpoint solve_heuristics (fuel : nat) (times : nat → float * float) (k : nat)
    (content goal : grid) (results : gmap algorithm (list measure))
    (heuristics : list (string * strategy)) (exp_values : list Z)
    : M (option (gmap algorithm (list measure))) :=
  match heuristics with
  | [] => mret (Some results)
  | (name, s) :: heuristics' =>
      if bool_decide (name = "fixed") then
        r ← solve_exps fuel times k name s content goal results exp_values;
        match r with
        | None => mret None
        | Some (results, k) =>
            solve_heuristics fuel times k content goal results heuristics' exp_values
        end
      else
        r ← solve fuel (times k) name s content goal None;
        match r with
        | None => mret None
        | Some (alg, result) =>
            solve_heuristics fuel times (S k) content goal
              (record_result results alg result) heuristics' exp_values
        end
  end.

(** [heuristics = dict(zip(strategies, functions))] *)
Definition heuristics : list (string * strategy) :=
  [("fixed", {| cost_type := Z; cost_ops := int64_cost; run := fixed |});
   ("step scheduling",
    {| cost_type := num float;
       cost_ops := num_cost float float_of_int fadd num_eqb num_ltb;
       run := step_scheduling_heuristic float float_of_int fadd fdiv fpow fltb |});
   ("arctan scheduling",
    {| cost_type := num float;
       cost_ops := num_cost float float_of_int fadd num_eqb num_ltb;
       run := arctan_scheduling_heuristic float float_of_int fadd fdiv fpow arctan |})].

(** [solve_instance]: the dict [results] is updated in place; its new
    contents are returned here. *)
Definition solve_instance (fuel : nat) (times : nat → float * float)
    (content goal : grid) (results : gmap algorithm (list measure))
    (heuristics : list (string * strategy)) (exp_values : list Z)
    : M (option (gmap algorithm (list measure))) :=
  solve_heuristics fuel times 0 content goal results heuristics exp_values.
End Solvers.
End Experiments.

(** * Properties *)

(** ** Results and the counter monad *)

Lemma rbind_Ok {A B} (r : result A) (k : A → result B) b :
  r ≫= k = Ok b ↔ ∃ a, r = Ok a ∧ k a = Ok b.
Proof.
  destruct r as [a|e]; simpl; split.
  - intros Hk. by exists a.
  - by intros (a' & [= <-] & Hk).
  - done.
  - by intros (a' & [=] & _).
Qed.

Lemma rmapM_Ok {A B} (f : A → result B) l bs :
  rmapM f l = Ok bs ↔ Forall2 (λ a b, f a = Ok b) l bs.
Proof.
  revert bs. induction l as [|a l IH]; intros bs; simpl.
  - split; [intros [= <-]; constructor | by inversion 1].
  - split.
    + intros (b & Hb & (bs' & Hbs & [= <-])%rbind_Ok)%rbind_Ok.
      constructor; [done | by apply IH].
    + inversion 1 as [|? b ? bs' Hb Hbs]; subst.
      apply rbind_Ok. exists b. split; [done|].
      apply rbind_Ok. exists bs'. split; [by apply IH | done].
Qed.

Lemma rmapM_total {A B} (f : A → result B) l :
  Forall (λ a, ∃ b, f a = Ok b) l → ∃ bs, rmapM f l = Ok bs.
Proof.
  induction 1 as [|a l [b Hb] _ [bs Hbs]]; simpl; [by eexists|].
  exists (b :: bs). by rewrite Hb, Hbs.
Qed.

(** If every failure is [e] and some element fails, the whole map fails
    with [e]. *)
Lemma rmapM_Raise {A B} (f : A → result B) l e :
  Forall (λ a, (∃ b, f a = Ok b) ∨ f a = Raise e) l →
  Exists (λ a, f a = Raise e) l →
  rmapM f l = Raise e.
Proof.
  induction 1 as [|a l Ha Hl IH]; intros Hex; [by inversion Hex|].
  simpl. destruct Ha as [[b Hb]|Ha]; [|by rewrite Ha].
  rewrite Hb. simpl. rewrite IH; [done|].
  inversion Hex; subst; [congruence | done].
Qed.

(** ** np.int64 values in range *)

Lemma wrap64_small z : - 2 ^ 63 ≤ z < 2 ^ 63 → wrap64 z = z.
Proof. intros Hz. unfold wrap64. rewrite Z.mod_small; lia. Qed.

(** ** Grids as item lists *)

Lemma rows_length_concat n g : rows n g → length (concat g) = (length g * n)%nat.
Proof.
  induction 1 as [|row g Hrow _ IH]; simpl; [done|].
  rewrite length_app, IH, Hrow. lia.
Qed.

Lemma square_length_concat n g : square n g → length (concat g) = (n * n)%nat.
Proof. intros [<- Hr]. by apply rows_length_concat. Qed.

Lemma rows_lookup n g i row : rows n g → g !! i = Some row → length row = n.
Proof. intros Hr Hi. by eapply (Forall_lookup_1 _ _ _ _ Hr). Qed.

(** The cell [(i, j)] is the item [i * n + j]. *)
Lemma concat_lookup n g i j row :
  rows n g → g !! i = Some row → (j < n)%nat →
  concat g !! (i * n + j)%nat = row !! j.
Proof.
  intros Hr. revert i. induction Hr as [|r g Hlen _ IH]; intros i Hi Hj; [done|].
  destruct i as [|i]; simpl in *.
  - injection Hi as ->. rewrite lookup_app_l; [done | lia].
  - rewrite lookup_app_r; [|lia].
    replace (n + i * n + j - length r)%nat with (i * n + j)%nat by lia.
    by apply IH.
Qed.

Lemma concat_insert n g i j row v :
  rows n g → g !! i = Some row → (j < n)%nat →
  concat (<[i := <[j := v]> row]> g) = <[(i * n + j)%nat := v]> (concat g).
Proof.
  intros Hr. revert i. induction Hr as [|r g Hlen _ IH]; intros i Hi Hj; [done|].
  destruct i as [|i]; simpl in *.
  - injection Hi as ->. rewrite insert_app_l; [done | lia].
  - rewrite insert_app_r_alt; [|lia].
    replace (n + i * n + j - length r)%nat with (i * n + j)%nat by lia.
    by rewrite IH.
Qed.

Lemma rows_insert n g i j row v :
  rows n g → g !! i = Some row → rows n (<[i := <[j := v]> row]> g).
Proof.
  intros Hr Hi. apply Forall_insert; [done|].
  rewrite length_insert. by eapply rows_lookup.
Qed.

Lemma norm_index_in n i : 0 ≤ i < Z.of_nat n → norm_index n i = Ok (Z.to_nat i).
Proof. intros Hi. unfold norm_index. by rewrite bool_decide_eq_true_2. Qed.

Lemma flat_lt n p : in_bounds n p → (flat n p < n * n)%nat.
Proof. intros [? ?]. unfold flat. nia. Qed.

Lemma flat_inj n p q : in_bounds n p → in_bounds n q → flat n p = flat n q → p = q.
Proof.
  destruct p as [a b], q as [c d]. unfold in_bounds, flat. simpl.
  intros [? ?] [? ?] Heq.
  assert (Z.to_nat b < n)%nat by lia. assert (Z.to_nat d < n)%nat by lia.
  assert (Z.to_nat a = Z.to_nat c ∧ Z.to_nat b = Z.to_nat d) as [? ?].
  { destruct (Nat.lt_trichotomy (Z.to_nat a) (Z.to_nat c)) as [?|[?|?]]; nia. }
  f_equal; lia.
Qed.

Lemma getitem_flat n g p :
  square n g → in_bounds n p →
  ∃ v, concat g !! flat n p = Some v ∧ getitem g p = Ok v.
Proof.
  intros [Hlen Hr] [Hp1 Hp2]. unfold getitem.
  rewrite norm_index_in by lia. simpl.
  destruct (lookup_lt_is_Some_2 g (Z.to_nat p.1)) as [row Hrow]; [lia|].
  rewrite Hrow. pose proof (rows_lookup _ _ _ _ Hr Hrow) as Hrl.
  rewrite norm_index_in by lia. simpl.
  destruct (lookup_lt_is_Some_2 row (Z.to_nat p.2)) as [v Hv]; [lia|].
  rewrite Hv. exists v. split; [|done].
  unfold flat. rewrite (concat_lookup n g _ _ row); [done..|lia].
Qed.

Lemma getitem_flat_eq n g p v :
  square n g → in_bounds n p →
  getitem g p = Ok v ↔ concat g !! flat n p = Some v.
Proof.
  intros Hs Hp. destruct (getitem_flat n g p Hs Hp) as (v' & Hl & Hg).
  rewrite Hl, Hg. split; congruence.
Qed.

Lemma setitem_flat n g p v :
  square n g → in_bounds n p →
  ∃ g', setitem g p v = Ok g' ∧ square n g' ∧
        concat g' = <[flat n p := v]> (concat g).
Proof.
  intros [Hlen Hr] [Hp1 Hp2]. unfold setitem.
  rewrite norm_index_in by lia. simpl.
  destruct (lookup_lt_is_Some_2 g (Z.to_nat p.1)) as [row Hrow]; [lia|].
  rewrite Hrow. pose proof (rows_lookup _ _ _ _ Hr Hrow) as Hrl.
  rewrite norm_index_in by lia. simpl.
  eexists. split; [done|]. split.
  - split; [by rewrite length_insert | by apply rows_insert].
  - unfold flat. apply concat_insert; [done..|lia].
Qed.

(** [do_action] on in-bounds positions: the two items change places. *)
Lemma do_action_body_flat n g a :
  square n g → in_bounds n (pos1 a) → in_bounds n (pos2 a) →
  ∃ g' x y,
    concat g !! flat n (pos1 a) = Some x ∧
    concat g !! flat n (pos2 a) = Some y ∧
    do_action_body g a = Ok g' ∧ square n g' ∧
    concat g' = <[flat n (pos2 a) := x]> (<[flat n (pos1 a) := y]> (concat g)).
Proof.
  intros Hs H1 H2. unfold do_action_body.
  destruct (getitem_flat n g _ Hs H2) as (y & Hy & ->).
  destruct (getitem_flat n g _ Hs H1) as (x & Hx & ->). simpl.
  destruct (setitem_flat n g (pos1 a) y Hs H1) as (g1 & -> & Hs1 & Hc1). simpl.
  destruct (setitem_flat n g1 (pos2 a) x Hs1 H2) as (g2 & -> & Hs2 & Hc2). simpl.
  exists g2, x, y. by rewrite Hc2, Hc1.
Qed.

(** Exchanging two items permutes the list. *)
Lemma insert_swap_head {A} (l : list A) b x y :
  l !! b = Some y → y :: <[b := x]> l ≡ₚ x :: l.
Proof.
  revert b. induction l as [|z l IH]; intros [|b] Hb; simplify_eq/=.
  - apply Permutation_swap.
  - rewrite (Permutation_swap z y). rewrite (Permutation_swap z x).
    f_equiv. by apply IH.
Qed.

Lemma insert_swap_Permutation {A} (l : list A) a b x y :
  l !! a = Some x → l !! b = Some y →
  <[b := x]> (<[a := y]> l) ≡ₚ l.
Proof.
  revert a b. induction l as [|z l IH]; intros [|a] [|b] Ha Hb; simplify_eq/=.
  - done.
  - by apply insert_swap_head.
  - by apply insert_swap_head.
  - f_equiv. by apply IH.
Qed.

Lemma do_action_body_valid n g a :
  valid_grid n g → in_bounds n (pos1 a) → in_bounds n (pos2 a) →
  ∃ g', do_action_body g a = Ok g' ∧ valid_grid n g'.
Proof.
  intros [Hs Hp] H1 H2.
  destruct (do_action_body_flat n g a Hs H1 H2) as (g' & x & y & Hx & Hy & Hd & Hs' & Hc).
  exists g'. split; [done|]. split; [done|].
  rewrite Hc. by rewrite insert_swap_Permutation.
Qed.

(** ** Locating a value *)

Lemma elem_of_concat {A} (x : A) (ls : list (list A)) :
  x ∈ concat ls ↔ ∃ l, l ∈ ls ∧ x ∈ l.
Proof.
  induction ls as [|l ls IH]; simpl.
  - rewrite elem_of_nil. split; [done|]. intros (l & Hl & _). by apply elem_of_nil in Hl.
  - rewrite elem_of_app, IH. split.
    + intros [Hx|(l' & Hl' & Hx)]; [exists l | exists l']; rewrite elem_of_cons; auto.
    + intros (l' & [->|Hl']%elem_of_cons & Hx); eauto.
Qed.

Lemma find_in_row_Some row v c k :
  find_in_row row v c = Some k → ∃ j, k = (c + j)%nat ∧ row !! j = Some v.
Proof.
  revert c. induction row as [|w row IH]; intros c; simpl; [done|].
  case_bool_decide as Hw.
  - intros [= <-]. exists 0%nat. subst. split; [lia | done].
  - intros (j & -> & Hj)%IH. exists (S j). split; [lia | done].
Qed.

Lemma find_in_row_None row v c : find_in_row row v c = None → v ∉ row.
Proof.
  revert c. induction row as [|w row IH]; intros c; simpl.
  - intros _. apply not_elem_of_nil.
  - case_bool_decide as Hw; [done|]. intros Hn%IH.
    rewrite elem_of_cons. naive_solver.
Qed.

Lemma find_from_Some g v r i j :
  find_from g v r = Some (i, j) →
  ∃ i0 row, i = (r + i0)%nat ∧ g !! i0 = Some row ∧ row !! j = Some v.
Proof.
  revert r. induction g as [|row g IH]; intros r; simpl; [done|].
  destruct (find_in_row row v 0) as [c|] eqn:Hrow.
  - intros [= <- <-]. apply find_in_row_Some in Hrow as (j & -> & Hj).
    exists 0%nat, row. split; [lia | done].
  - intros (i0 & row' & -> & Hi0 & Hj)%IH.
    exists (S i0), row'. split; [lia | done].
Qed.

Lemma find_from_None g v r : find_from g v r = None → v ∉ concat g.
Proof.
  revert r. induction g as [|row g IH]; intros r; simpl.
  - intros _. apply not_elem_of_nil.
  - destruct (find_in_row row v 0) as [c|] eqn:Hrow; [by destruct c|].
    intros Hn%IH. apply find_in_row_None in Hrow.
    rewrite elem_of_app. naive_solver.
Qed.

Lemma first_where_Ok n g v p :
  square n g → first_where g v = Ok p →
  in_bounds n p ∧ concat g !! flat n p = Some v.
Proof.
  intros [Hlen Hr]. unfold first_where.
  destruct (find_from g v 0) as [[i j]|] eqn:Hf; [|done].
  intros [= <-]. apply find_from_Some in Hf as (i0 & row & -> & Hi0 & Hj).
  pose proof (rows_lookup _ _ _ _ Hr Hi0) as Hrl.
  apply lookup_lt_Some in Hi0 as Hi0'. apply lookup_lt_Some in Hj as Hj'.
  split.
  - unfold in_bounds. simpl. lia.
  - unfold flat. simpl. rewrite !Nat2Z.id.
    rewrite (concat_lookup n g _ _ row); [done..|lia].
Qed.

Lemma first_where_total g v : v ∈ concat g → ∃ p, first_where g v = Ok p.
Proof.
  intros Hv. unfold first_where.
  destruct (find_from g v 0) as [[i j]|] eqn:Hf; [by eexists|].
  by apply find_from_None in Hf.
Qed.

Lemma first_where_None g v : v ∉ concat g → first_where g v = Raise "IndexError".
Proof.
  intros Hv. unfold first_where.
  destruct (find_from g v 0) as [[i j]|] eqn:Hf; [|done].
  apply find_from_Some in Hf as (i0 & row & -> & Hi0 & Hj).
  destruct Hv. apply elem_of_concat. exists row.
  split; [by eapply list_elem_of_lookup_2 | by eapply list_elem_of_lookup_2].
Qed.

Lemma first_where_cases g v :
  (∃ p, first_where g v = Ok p) ∨ first_where g v = Raise "IndexError".
Proof.
  unfold first_where. destruct (find_from g v 0) as [[i j]|]; eauto.
Qed.

(** In a grid without repeated items, a value sits where it is found. *)
Lemma first_where_unique n g v p :
  square n g → NoDup (concat g) → in_bounds n p →
  concat g !! flat n p = Some v → first_where g v = Ok p.
Proof.
  intros Hs Hnd Hp Hv.
  destruct (first_where_total g v) as [q Hq].
  { by eapply list_elem_of_lookup_2. }
  rewrite Hq. f_equal.
  destruct (first_where_Ok n g v q Hs Hq) as [Hqb Hqv].
  eapply flat_inj; [done..|]. by eapply NoDup_lookup.
Qed.

(** ** available_actions *)

Lemma available_actions_at n g p :
  square n g → first_where g 0 = Ok p →
  available_actions g = Ok ((action p <$> neighbours_in_order n p)).
Proof.
  intros Hs Hp. pose proof (first_where_Ok _ _ _ _ Hs Hp) as [[Hx Hy] _].
  destruct Hs as [Hlen _]. destruct p as [x y]. simpl in *.
  unfold available_actions. rewrite Hp. simpl.
  unfold neighbours_in_order, shape0. rewrite Hlen. simpl.
  rewrite !filter_cons, filter_nil.
  repeat case_bool_decide; repeat case_decide; simpl; try done;
    exfalso; unfold in_bounds in *; simpl in *; lia.
Qed.

Lemma neighbours_in_order_spec n p q :
  in_bounds n p →
  q ∈ neighbours_in_order n p ↔ in_bounds n q ∧ adjacent p q.
Proof.
  intros Hp. unfold neighbours_in_order. rewrite list_elem_of_filter.
  rewrite !elem_of_cons, elem_of_nil.
  destruct p as [x y], q as [x' y']. unfold adjacent, in_bounds in *. simpl in *.
  split.
  - intros [Hq [[= -> ->]|[[= -> ->]|[[= -> ->]|[[= -> ->]|[]]]]]]; split; try done; lia.
  - intros [Hq Hadj]. split; [done|].
    assert ((x' = x - 1 ∧ y' = y) ∨ (x' = x + 1 ∧ y' = y) ∨
            (x' = x ∧ y' = y - 1) ∨ (x' = x ∧ y' = y + 1)) as Hc by lia.
    destruct Hc as [[-> ->]|[[-> ->]|[[-> ->]|[-> ->]]]]; auto.
Qed.

Lemma available_actions_elem n g p a :
  square n g → first_where g 0 = Ok p →
  a ∈ (action p <$> neighbours_in_order n p) →
  pos1 a = p ∧ in_bounds n (pos1 a) ∧ in_bounds n (pos2 a) ∧ adjacent (pos1 a) (pos2 a).
Proof.
  intros Hs Hp Ha. pose proof (first_where_Ok _ _ _ _ Hs Hp) as [Hpb _].
  apply list_elem_of_fmap in Ha as (q & -> & Hq). simpl.
  apply neighbours_in_order_spec in Hq as [? ?]; done.
Qed.

(** A legal move keeps a grid valid. *)
Lemma move_valid n g a g' : valid_grid n g → move g a g' → valid_grid n g'.
Proof.
  intros Hv (actions & Hact & Ha & Hdo).
  destruct (first_where_cases g 0) as [[p Hp]|Hp].
  - rewrite (available_actions_at n g p) in Hact by (by destruct Hv || done).
    injection Hact as <-.
    destruct (available_actions_elem n g p a) as (_ & H1 & H2 & _); [by destruct Hv|done..|].
    destruct (do_action_body_valid n g a Hv H1 H2) as (g'' & Hdo' & Hv').
    congruence.
  - unfold available_actions in Hact. by rewrite Hp in Hact.
Qed.

(** A property of the first grid that moves preserve holds at the end. *)
Lemma moves_ind_from (P : list (list Z) → Prop) g p g' :
  moves g p g' → P g → (∀ g1 a g2, P g1 → move g1 a g2 → P g2) → P g'.
Proof.
  intros Hm. induction Hm as [g|g p g1 a g2 _ IH Hmv]; intros H0 Hstep; [done|].
  eapply Hstep; [|exact Hmv]. by apply IH.
Qed.

Lemma moves_valid n g p g' : valid_grid n g → moves g p g' → valid_grid n g'.
Proof.
  intros Hv Hm. apply (moves_ind_from _ _ _ _ Hm); [done|].
  intros g1 a g2 Hv1 Hmv. by eapply move_valid.
Qed.

Lemma valid_grid_elem n g v :
  valid_grid n g → v ∈ concat g ↔ 0 ≤ v < Z.of_nat (n * n).
Proof. intros [_ Hp]. rewrite Hp. rewrite elem_of_seqZ. lia. Qed.

Lemma valid_grid_NoDup n g : valid_grid n g → NoDup (concat g).
Proof. intros [_ Hp]. rewrite Hp. apply NoDup_seqZ. Qed.

(** A valid grid offers its moves, and each of them can be made. *)
Lemma valid_available n g :
  valid_grid n g → (0 < n)%nat →
  ∃ p, first_where g 0 = Ok p ∧
       available_actions g = Ok ((action p <$> neighbours_in_order n p)).
Proof.
  intros Hv Hn. destruct (first_where_total g 0) as [p Hp].
  { apply (valid_grid_elem n); [done | nia]. }
  exists p. split; [done|]. apply available_actions_at; [by destruct Hv | done].
Qed.

(** ** The effect of a move on the positions of the values *)

Lemma adjacent_ne p q : adjacent p q → p ≠ q.
Proof. unfold adjacent. intros Ha ->. lia. Qed.

Lemma move_inv n g a g' :
  valid_grid n g → move g a g' →
  first_where g 0 = Ok (pos1 a) ∧ in_bounds n (pos1 a) ∧ in_bounds n (pos2 a) ∧
  adjacent (pos1 a) (pos2 a).
Proof.
  intros Hv (actions & Hact & Ha & Hdo).
  destruct (first_where_cases g 0) as [[p Hp]|Hp].
  - rewrite (available_actions_at n g p) in Hact by (by destruct Hv || done).
    injection Hact as <-.
    destruct (available_actions_elem n g p a) as (-> & H1 & H2 & ?); [by destruct Hv|done..].
  - unfold available_actions in Hact. by rewrite Hp in Hact.
Qed.

Lemma move_positions n g a g' :
  valid_grid n g → move g a g' →
  ∃ w, 1 ≤ w < Z.of_nat (n * n) ∧
       in_bounds n (pos1 a) ∧ in_bounds n (pos2 a) ∧ adjacent (pos1 a) (pos2 a) ∧
       first_where g 0 = Ok (pos1 a) ∧ first_where g' 0 = Ok (pos2 a) ∧
       first_where g w = Ok (pos2 a) ∧ first_where g' w = Ok (pos1 a) ∧
       ∀ v, v ≠ w → v ≠ 0 → first_where g' v = first_where g v.
Proof.
  intros Hv Hm. pose proof (move_valid _ _ _ _ Hv Hm) as Hv'.
  destruct (move_inv _ _ _ _ Hv Hm) as (H0 & Hb1 & Hb2 & Hadj).
  pose proof Hv as [Hs Hperm]. pose proof Hv' as [Hs' Hperm'].
  pose proof (valid_grid_NoDup _ _ Hv) as Hnd.
  pose proof (valid_grid_NoDup _ _ Hv') as Hnd'.
  destruct Hm as (_ & _ & _ & Hdo).
  destruct (do_action_body_flat n g a Hs Hb1 Hb2)
    as (g'' & x & w & Hx & Hw & Hdo' & _ & Hc).
  rewrite Hdo in Hdo'. injection Hdo' as <-.
  destruct (first_where_Ok _ _ _ _ Hs H0) as [_ Hx0].
  rewrite Hx in Hx0. injection Hx0 as ->.
  assert (flat n (pos1 a) ≠ flat n (pos2 a)) as Hne.
  { intros Heq. apply (adjacent_ne _ _ Hadj). by eapply flat_inj. }
  pose proof (flat_lt _ _ Hb1) as Hlt1. pose proof (flat_lt _ _ Hb2) as Hlt2.
  pose proof (square_length_concat _ _ Hs) as Hlen.
  assert (w ≠ 0) as Hw0.
  { intros ->. apply Hne. by apply (NoDup_lookup (concat g) _ _ 0). }
  assert (0 ≤ w < Z.of_nat (n * n)) as Hwr.
  { apply (valid_grid_elem n g); [done|]. by eapply list_elem_of_lookup_2. }
  exists w. split; [lia|]. do 4 (split; [done|]).
  split.
  { apply (first_where_unique n); [done..|]. rewrite Hc.
    rewrite list_lookup_insert_eq; [done|]. rewrite length_insert. lia. }
  split.
  { by apply (first_where_unique n). }
  split.
  { apply (first_where_unique n); [done..|]. rewrite Hc.
    rewrite list_lookup_insert_ne by done.
    rewrite list_lookup_insert_eq; [done|lia]. }
  intros v Hvw Hv0.
  destruct (decide (v ∈ concat g)) as [Hin|Hnin].
  - destruct (first_where_total g v Hin) as [q Hq]. rewrite Hq.
    destruct (first_where_Ok _ _ _ _ Hs Hq) as [Hqb Hqv].
    apply (first_where_unique n); [done..|]. rewrite Hc.
    rewrite !list_lookup_insert_ne; [done| |]; intros Heq; rewrite <- Heq in Hqv; congruence.
  - rewrite (first_where_None g v Hnin). apply first_where_None.
    rewrite Hperm'. by rewrite <- Hperm.
Qed.

(** ** Manhattan distances *)

Lemma tiles_square n g : square n g → tiles g = seqZ 1 (Z.of_nat (n * n) - 1).
Proof. intros [Hlen _]. unfold tiles, shape0. rewrite Hlen. f_equal. lia. Qed.

Lemma pos_of_valid n g v :
  valid_grid n g → 0 ≤ v < Z.of_nat (n * n) →
  first_where g v = Ok (pos_of g v) ∧ in_bounds n (pos_of g v).
Proof.
  intros Hv Hr. destruct (first_where_total g v) as [p Hp].
  { by apply (valid_grid_elem n). }
  unfold pos_of. rewrite Hp. split; [done|].
  destruct Hv as [Hs _]. by destruct (first_where_Ok _ _ _ _ Hs Hp).
Qed.

Lemma manhattan_distance_total n state goal v p :
  valid_grid n state → valid_grid n goal → 0 ≤ v < Z.of_nat (n * n) → 0 ≤ p →
  ∃ d, manhattan_distance state goal v p = Ok d.
Proof.
  intros Hs Hg Hv Hp. unfold manhattan_distance, get_pos.
  destruct (pos_of_valid _ _ _ Hs Hv) as [-> _].
  destruct (pos_of_valid _ _ _ Hg Hv) as [-> _]. simpl.
  destruct (pos_of state v), (pos_of goal v). simpl.
  unfold pow64. rewrite bool_decide_eq_false_2 by lia. by eexists.
Qed.

Lemma wrap64_range z : - 2 ^ 63 ≤ wrap64 z < 2 ^ 63.
Proof.
  unfold wrap64. pose proof (Z.mod_pos_bound (z + 2 ^ 63) (2 ^ 64) ltac:(lia)). lia.
Qed.

(** An np.int64 result [d] stands for the integer [m]: it equals [m], or
    [m] is beyond the np.int64 range. *)
Lemma manhattan_distance_md n state goal v :
  valid_grid n state → valid_grid n goal → 0 ≤ v < Z.of_nat (n * n) →
  ∃ d, manhattan_distance state goal v 1 = Ok d ∧ - 2 ^ 63 ≤ d < 2 ^ 63 ∧
       0 ≤ md state goal v ∧ (d = md state goal v ∨ 2 ^ 63 ≤ md state goal v).
Proof.
  intros Hs Hg Hv. unfold manhattan_distance, get_pos, md.
  destruct (pos_of_valid _ _ _ Hs Hv) as [-> [? ?]].
  destruct (pos_of_valid _ _ _ Hg Hv) as [-> [? ?]]. simpl.
  destruct (pos_of state v) as [x1 y1], (pos_of goal v) as [x2 y2]. simpl in *.
  unfold pow64. rewrite bool_decide_eq_false_2 by lia. rewrite Z.pow_1_r.
  eexists. split; [reflexivity|]. split; [apply wrap64_range|]. split; [lia|].
  destruct (decide (Z.abs (x1 - x2) + Z.abs (y1 - y2) < 2 ^ 63)) as [Hsmall|Hbig];
    [left | right; lia].
  unfold add64, abs64, sub64.
  assert (wrap64 (x1 - x2) = x1 - x2) as -> by (apply wrap64_small; lia).
  assert (wrap64 (y1 - y2) = y1 - y2) as -> by (apply wrap64_small; lia).
  assert (wrap64 (Z.abs (x1 - x2)) = Z.abs (x1 - x2)) as -> by (apply wrap64_small; lia).
  assert (wrap64 (Z.abs (y1 - y2)) = Z.abs (y1 - y2)) as -> by (apply wrap64_small; lia).
  assert (wrap64 (Z.abs (x1 - x2) + Z.abs (y1 - y2)) = Z.abs (x1 - x2) + Z.abs (y1 - y2))
    as -> by (apply wrap64_small; lia).
  apply wrap64_small. lia.
Qed.

Lemma tiles_range n g v :
  square n g → v ∈ tiles g → 1 ≤ v < Z.of_nat (n * n).
Proof. intros Hs. rewrite (tiles_square n) by done. rewrite elem_of_seqZ. lia. Qed.

Lemma fixed_heuristic_total n state goal step e p :
  valid_grid n state → valid_grid n goal → 0 ≤ e → 0 ≤ p →
  ∃ h, fixed_heuristic state goal step (ExpInt e) p = Ok h.
Proof.
  intros Hs Hg He Hp. unfold fixed_heuristic.
  destruct (rmapM_total (λ v, manhattan_distance state goal v p) (tiles state))
    as [ds ->].
  { apply Forall_forall. intros v Hv. apply (manhattan_distance_total n); [done..| |done].
    destruct Hs as [Hs _]. pose proof (tiles_range _ _ _ Hs Hv). lia. }
  simpl. unfold sum_pow, pow64.
  destruct ds; rewrite bool_decide_eq_false_2 by lia; by eexists.
Qed.

Lemma sumZ_cons x l : sumZ (x :: l) = x + sumZ l.
Proof. done. Qed.

(** The np.int64 sum of results that stand for the integers [ms] stands
    for the sum of [ms]. *)
Lemma sum64_stands_for (ds ms : list Z) :
  Forall2 (λ d m, - 2 ^ 63 ≤ d < 2 ^ 63 ∧ 0 ≤ m ∧ (d = m ∨ 2 ^ 63 ≤ m)) ds ms →
  - 2 ^ 63 ≤ sum64 ds < 2 ^ 63 ∧ 0 ≤ sumZ ms ∧
  (sum64 ds = sumZ ms ∨ 2 ^ 63 ≤ sumZ ms).
Proof.
  intros Hall. unfold sum64.
  assert (∀ acc accT, - 2 ^ 63 ≤ acc < 2 ^ 63 → 0 ≤ accT → (acc = accT ∨ 2 ^ 63 ≤ accT) →
    - 2 ^ 63 ≤ foldl add64 acc ds < 2 ^ 63 ∧ 0 ≤ sumZ ms ∧
    (foldl add64 acc ds = accT + sumZ ms ∨ 2 ^ 63 ≤ accT + sumZ ms)) as Hgen.
  { induction Hall as [|d m ds ms (Hd & Hm & Hdm) _ IH]; intros acc accT Hacc HaccT Hrel.
    - simpl. split; [done|]. split; [done|]. destruct Hrel; [left|right]; lia.
    - rewrite sumZ_cons. simpl foldl.
      destruct (IH (add64 acc d) (accT + m)) as (Hr & Hs & Hrel'); [apply wrap64_range|lia| |].
      + destruct (decide (accT + m < 2 ^ 63)) as [Hsmall|Hbig]; [left|right; lia].
        destruct Hrel as [->|?]; [|lia]. destruct Hdm as [->|?]; [|lia].
        apply wrap64_small. lia.
      + split; [done|]. split; [lia|]. destruct Hrel'; [left|right]; lia. }
  destruct (Hgen 0 0) as (Hr & Hs & Hrel); [lia|lia|by left|].
  split; [done|]. split; [done|]. destruct Hrel; [left|right]; lia.
Qed.

(** With exp = 1 and p = 1 the heuristic stands for the Manhattan sum. *)
Lemma fixed_heuristic_stands n state goal step :
  valid_grid n state → valid_grid n goal →
  ∃ h, fixed_heuristic state goal step (ExpInt 1) 1 = Ok h ∧
       0 ≤ manhattan_sum state goal ∧
       (h = manhattan_sum state goal ∨ 2 ^ 63 ≤ manhattan_sum state goal).
Proof.
  intros Hs Hg. unfold fixed_heuristic.
  assert (∃ ds, rmapM (λ v, manhattan_distance state goal v 1) (tiles state) = Ok ds ∧
            Forall2 (λ d m, - 2 ^ 63 ≤ d < 2 ^ 63 ∧ 0 ≤ m ∧ (d = m ∨ 2 ^ 63 ≤ m))
              ds (md state goal <$> tiles state)) as (ds & -> & Hds).
  { assert (Forall (λ v, 0 ≤ v < Z.of_nat (n * n)) (tiles state)) as Hrange.
    { apply Forall_forall. intros v Hv. destruct Hs as [Hs _].
      pose proof (tiles_range _ _ _ Hs Hv). lia. }
    induction Hrange as [|v l Hv _ (ds & Hds & Hall)]; [by exists []|].
    destruct (manhattan_distance_md n state goal v Hs Hg Hv) as (d & Hd & Hr & Hm & Hrel).
    exists (d :: ds). simpl. rewrite Hd. simpl. rewrite Hds. simpl.
    split; [done|]. by constructor. }
  simpl. destruct (sum64_stands_for _ _ Hds) as (Hr & Hnn & Hrel).
  unfold manhattan_sum, sum_pow, pow64. rewrite bool_decide_eq_false_2 by lia.
  destruct ds as [|d ds].
  - exists 0. split; [done|]. split; [done|]. destruct Hrel as [<-|?]; [by left|by right].
  - rewrite Z.pow_1_r, wrap64_small by done.
    eexists. split; [reflexivity|]. by split.
Qed.


(** ** Admissibility of the Manhattan sum *)



Lemma manhattan_sum_refl g : manhattan_sum g g = 0.
Proof.
  unfold manhattan_sum. induction (tiles g) as [|v l IH]; [done|].
  rewrite fmap_cons, sumZ_cons, IH. unfold md. lia.
Qed.


(** ** Termination of the abstract search

    Whatever item is removed at each turn, the abstract search stops:
    the argument does not use the order of the heap. *)
Section AbstractTermination.
Implicit Types (φ : gmap Z nat) (H : list (Z * nat)) (A : gset Z).
Local Open Scope nat_scope.

Lemma foreign_perm A φ φ' H H' :
  H ≡ₚ H' → foreign A (φ, H) = foreign A (φ', H').
Proof. intros HP. unfold foreign. simpl. by rewrite HP. Qed.

Lemma foreign_pushes A q n c c' :
  pushes A q n c c' → foreign A c' = foreign A c.
Proof.
  induction 1 as [c|φ H H1 c' HP _ IH|φ H H1 w c' Hw _ HP _ IH]; [done| |].
  - rewrite IH. by apply foreign_perm.
  - rewrite IH. rewrite (foreign_perm A _ φ _ _ HP).
    unfold foreign. simpl. rewrite filter_cons_False; [done|]. simpl. tauto.
Qed.

Lemma foreign_pop_in A φ φ' H y n H0 :
  H ≡ₚ (y, n) :: H0 → y ∈ A → foreign A (φ, H) = foreign A (φ', H0).
Proof.
  intros HP Hy. rewrite (foreign_perm A _ φ' _ _ HP).
  unfold foreign. simpl. rewrite filter_cons_False; [done|]. simpl. tauto.
Qed.

Lemma foreign_pop_out A φ φ' H y n H0 :
  H ≡ₚ (y, n) :: H0 → y ∉ A → foreign A (φ, H) = S (foreign A (φ', H0)).
Proof.
  intros HP Hy. rewrite (foreign_perm A _ φ' _ _ HP).
  unfold foreign. simpl. by rewrite filter_cons_True.
Qed.

Lemma pushes_trans A q n c1 c2 c3 :
  pushes A q n c1 c2 → pushes A q n c2 c3 → pushes A q n c1 c3.
Proof.
  induction 1 as [c|φ H H1 c' HP _ IH|φ H H1 w c' Hw HR HP _ IH]; intros H23.
  - done.
  - eapply pushes_skip; eauto.
  - eapply pushes_push; eauto.
Qed.

(** A key recorded with at most [q + 1] is left alone. *)
Lemma pushes_frozen A q n x m c c' :
  pushes A q n c c' → c.1 !! x = Some m → m ≤ q + 1 →
  pushes (A ∖ {[x]}) q n c c' ∧ c'.1 !! x = Some m.
Proof.
  induction 1 as [c|φ H H1 c' HP _ IH|φ H H1 w c' Hw HR HP _ IH];
    simpl; intros Hx Hm.
  - split; [constructor | done].
  - destruct (IH Hx Hm) as [? ?]. split; [|done]. by eapply pushes_skip.
  - assert (w ≠ x) as Hne.
    { intros ->. unfold relaxable in HR. rewrite Hx in HR. lia. }
    destruct IH as [? ?]; [by simpl; rewrite lookup_insert_ne | done |].
    split; [|done]. eapply pushes_push; eauto. set_solver.
Qed.

Lemma lowest_exists A φ x l :
  x ∈ A → φ !! x = Some l → ∃ x' m, lowest A φ x' m ∧ m ≤ l.
Proof.
  revert x. induction l as [l IH] using lt_wf_ind. intros x Hx Hl.
  destruct (decide (set_Forall (above φ l) A)) as [Hall|Hex].
  - exists x, l. by repeat split.
  - apply not_set_Forall_Exists in Hex; [|apply _].
    destruct Hex as (x' & Hx' & Hlt). simpl in Hlt. unfold above in Hlt.
    destruct (φ !! x') as [l'|] eqn:Hl'; [|done].
    destruct (IH l' ltac:(lia) x' Hx' Hl') as (x'' & m & ? & ?).
    exists x'', m. split; [done|lia].
Qed.

(** The induction: the key with the least recorded length cannot be
    pushed again by items of [A], so between two removals of foreign
    items the search runs inside [A] without that key. *)
Lemma astep_acc_step A :
  (∀ A', A' ⊂ A → ∀ c, Acc (flip (astep A')) c) →
  ∀ c, Acc (flip (astep A)) c.
Proof.
  intros IHA c.
  remember (foreign A c) as k eqn:Hk. revert c Hk.
  induction k as [k IHk] using lt_wf_ind. intros c Hk.
  assert (∀ m c x, foreign A c = k → lowest A c.1 x m → Acc (flip (astep A)) c)
    as Hlow.
  { clear c Hk. intros m. induction m as [m IHm] using lt_wf_ind.
    intros c x Hk Hlo.
    assert (A ∖ {[x]} ⊂ A) as Hsub.
    { destruct Hlo as [? _]. set_solver. }
    pose proof (IHA _ Hsub c) as Hacc.
    induction Hacc as [c _ IHacc].
    constructor. intros c' Hst. unfold flip in Hst.
    destruct Hst as [φ H y n q H0 c' HP Hy Hpu].
    destruct (decide (y ∈ A)) as [HyA|HyA].
    - destruct Hlo as (HxA & Hxm & Hmin). simpl in *.
      assert (m ≤ q).
      { specialize (Hmin y HyA). unfold above in Hmin. by rewrite Hy in Hmin. }
      destruct (pushes_frozen _ _ _ x m _ _ Hpu) as [Hpu' Hx']; [done|lia|].
      assert (foreign A c' = foreign A (φ, H)) as Hk'.
      { rewrite (foreign_pushes _ _ _ _ _ Hpu). symmetry.
        by eapply foreign_pop_in. }
      destruct (decide (set_Forall (above c'.1 m) A)) as [Hall|Hex].
      + apply IHacc; [|by rewrite Hk'|done]. unfold flip. econstructor; eauto.
      + apply not_set_Forall_Exists in Hex; [|apply _].
        destruct Hex as (x' & Hx'A & Hlt). simpl in Hlt. unfold above in Hlt.
        destruct (c'.1 !! x') as [l'|] eqn:Hl'; [|done].
        destruct (lowest_exists A c'.1 x' l' Hx'A Hl') as (x'' & m' & Hlo' & ?).
        eapply (IHm m'); [lia| |exact Hlo']. by rewrite Hk'.
    - eapply IHk; [|reflexivity].
      rewrite (foreign_pushes _ _ _ _ _ Hpu). rewrite <- Hk.
      rewrite (foreign_pop_out A φ φ H y n H0 HP HyA). lia. }
  destruct (decide (set_Exists (λ x, is_Some (c.1 !! x)) A)) as [Hex|Hno].
  - destruct Hex as (x & Hx & [l Hl]).
    destruct (lowest_exists A c.1 x l Hx Hl) as (x' & m & Hlo & _).
    by eapply Hlow.
  - constructor. intros c' Hst. unfold flip in Hst.
    destruct Hst as [φ H y n q H0 c' HP Hy Hpu].
    assert (y ∉ A) as HyA.
    { intros HyA. apply Hno. exists y. split; [done|]. simpl. by rewrite Hy. }
    eapply IHk; [|reflexivity].
    rewrite (foreign_pushes _ _ _ _ _ Hpu). rewrite Hk.
    rewrite (foreign_pop_out A φ φ H y n H0 HP HyA). lia.
Qed.

Theorem astep_acc A c : Acc (flip (astep A)) c.
Proof.
  revert c. induction (set_wf A) as [A _ IH].
  apply astep_acc_step. intros A' HA'. by apply IH.
Qed.
End AbstractTermination.

(** ** Running computations in [M] *)

Lemma mbind_run {A B} (m : M A) (k : A → M B) c :
  (m ≫= k) c = match m c with
               | (Ok a, c') => k a c'
               | (Raise e, c') => (Raise e, c')
               end.
Proof. done. Qed.

(** Runs the outermost bind of the goal. *)
Ltac run_bind :=
  cbv beta iota;
  match goal with
  | |- context [ @mbind M M_bind ?A ?B ?k ?m ] => rewrite (@mbind_run A B m k)
  end.

Lemma mbind_Ok {A B} (m : M A) (k : A → M B) c b c2 :
  (m ≫= k) c = (Ok b, c2) ↔ ∃ a c1, m c = (Ok a, c1) ∧ k a c1 = (Ok b, c2).
Proof.
  rewrite mbind_run. destruct (m c) as [[a|e] c1]; split.
  - intros Hk. by exists a, c1.
  - by intros (a' & c1' & [= <- <-] & Hk).
  - done.
  - by intros (a' & c1' & [=] & _).
Qed.

Lemma mlift_Ok {A} (r : result A) c a c' :
  mlift r c = (Ok a, c') ↔ r = Ok a ∧ c' = c.
Proof. unfold mlift. split; [by intros [= -> ->] | by intros [-> ->]]. Qed.

Lemma mret_Ok {A} (x : A) c a c' :
  (mret x : M A) c = (Ok a, c') ↔ a = x ∧ c' = c.
Proof. split; [by intros [= -> ->] | by intros [-> ->]]. Qed.

Lemma mfoldl_app {A S} (f : S → A → M S) s l1 l2 c :
  mfoldl f s (l1 ++ l2) c =
  match mfoldl f s l1 c with
  | (Ok s', c') => mfoldl f s' l2 c'
  | (Raise e, c') => (Raise e, c')
  end.
Proof.
  revert s c. induction l1 as [|a l1 IH]; intros s c; simpl; [done|].
  rewrite !mbind_run. destruct (f s a c) as [[s'|e] c']; [apply IH | done].
Qed.

(** An invariant of every round of a loop holds after the loop. *)
Lemma mfoldl_inv {A S} (P : S → Prop) (f : S → A → M S) l :
  (∀ s a c s' c', a ∈ l → P s → f s a c = (Ok s', c') → P s') →
  ∀ s c s' c', P s → mfoldl f s l c = (Ok s', c') → P s'.
Proof.
  induction l as [|a l IH]; intros Hf s c s' c' Hs; simpl.
  - by intros [-> ->]%mret_Ok.
  - intros (s1 & c1 & H1 & H2)%mbind_Ok.
    eapply IH; [| |exact H2].
    + intros. eapply Hf; eauto. by apply list_elem_of_further.
    + eapply Hf; eauto. apply list_elem_of_here.
Qed.

(** ** Replaying a path *)

Lemma moves_replay g p g' c :
  moves g p g' → replay g p c = (Ok g', (c + length p)%nat).
Proof.
  intros Hm. revert c. induction Hm as [g|g p g1 a g2 _ IH (_ & _ & _ & Hdo)]; intros c.
  - unfold replay. simpl. change ((Ok g, c) = (Ok g, (c + 0)%nat)). f_equal. lia.
  - unfold replay in *. rewrite mfoldl_app, IH. simpl.
    rewrite mbind_run. unfold do_action at 1. rewrite Hdo.
    change ((Ok g2, S (c + length p)) = (Ok g2, (c + length (p ++ [a]))%nat)).
    f_equal. rewrite length_app. simpl. lia.
Qed.

(** ** The heap *)

Section Heap.
Variable py_hash : list Z → Z.
Context {K : Type} {cost : Cost K}.

Lemma heappush_Permutation (heap : list (K * State * list Action)) item :
  heappush heap item ≡ₚ item :: heap.
Proof.
  induction heap as [|x heap IH]; simpl; [done|].
  destruct (entry_ltb item x); [done|].
  rewrite IH. apply Permutation_swap.
Qed.

Lemma elem_of_heappush (heap : list (K * State * list Action)) item e :
  e ∈ heappush heap item ↔ e = item ∨ e ∈ heap.
Proof. rewrite heappush_Permutation. apply elem_of_cons. Qed.

Variable heuristic : grid → grid → nat → pyexp → result K.
Variable exp : pyexp.

(** What a round of the [for] loop can do. *)
Lemma visit_inv goal current curr_path v a c v' c' :
  visit py_hash heuristic exp goal current curr_path v a c = (Ok v', c') →
  ∃ g', do_action_body (content current) a = Ok g' ∧ c' = S c ∧
    ((neighbor_test v current (mkState py_hash g') = Ok false ∧ v' = v) ∨
     (∃ h, neighbor_test v current (mkState py_hash g') = Ok true ∧
           heuristic g' (content goal) (steps v) exp = Ok h ∧
           v' = {| open_set := heappush (open_set v)
                     (cost_add (length curr_path + 1) h, mkState py_hash g',
                      curr_path ++ [a]);
                   closed_set := {[hash (mkState py_hash g')]} ∪ closed_set v;
                   past_len := <[hash (mkState py_hash g') :=
                                   (length curr_path + 1)%nat]> (past_len v);
                   steps := steps v |})).
Proof.
  unfold visit. intros (g' & c1 & Hdo & Hrest)%mbind_Ok.
  unfold do_action in Hdo. injection Hdo as Hdo <-.
  exists g'. split; [done|].
  apply mbind_Ok in Hrest as (b & c2 & [Hb ->]%mlift_Ok & Hrest).
  destruct b.
  - apply mbind_Ok in Hrest as (h & c3 & [Hh ->]%mlift_Ok & Hrest).
    apply mret_Ok in Hrest as [-> ->]. split; [done|]. right. by exists h.
  - apply mret_Ok in Hrest as [-> ->]. split; [done|]. by left.
Qed.

Lemma neighbor_test_true (v : @vars K) current neighbor :
  neighbor_test v current neighbor = Ok true →
  hash neighbor ∉ closed_set v ∨
  ∃ pc pn, past_len v !! hash current = Some pc ∧
           past_len v !! hash neighbor = Some pn ∧ (pc + 1 < pn)%nat.
Proof.
  unfold neighbor_test. case_bool_decide as Hc; [by left|].
  unfold dict_get.
  destruct (past_len v !! hash current) as [pc|]; [|done]. simpl.
  destruct (past_len v !! hash neighbor) as [pn|]; [|done]. simpl.
  intros [= Hlt%bool_decide_eq_true]. right. by exists pc, pn.
Qed.

(** What a turn of the [while] loop can do. *)
Lemma astar_iter_Continue goal v c v' c' :
  astar_iter py_hash heuristic exp goal v c = (Ok (Continue v'), c') →
  ∃ k current curr_path rest actions v1,
    open_set v = (k, current, curr_path) :: rest ∧
    log_progress goal current v = Ok tt ∧
    State_eq current goal = false ∧
    available_actions (content current) = Ok actions ∧
    mfoldl (visit py_hash heuristic exp goal current curr_path)
      {| open_set := rest; closed_set := closed_set v;
         past_len := past_len v; steps := steps v |} actions c = (Ok v1, c') ∧
    v' = {| open_set := open_set v1; closed_set := closed_set v1;
            past_len := past_len v1; steps := steps v1 + 1 |}.
Proof.
  unfold astar_iter, heappop.
  destruct (open_set v) as [|[[k current] curr_path] rest] eqn:Hopen.
  { by intros [? ?]%mret_Ok. }
  intros ([] & c1 & [Hlog ->]%mlift_Ok & Hrest)%mbind_Ok.
  destruct (State_eq current goal) eqn:Heq.
  { by apply mret_Ok in Hrest as [? ?]. }
  apply mbind_Ok in Hrest as (actions & c2 & [Hact ->]%mlift_Ok & Hrest).
  apply mbind_Ok in Hrest as (v1 & c3 & Hfold & Hrest).
  apply mret_Ok in Hrest as [[= ->] ->].
  by exists k, current, curr_path, rest, actions, v1.
Qed.

Lemma astar_iter_unfold goal v c k current curr_path rest :
  open_set v = (k, current, curr_path) :: rest →
  log_progress goal current v = Ok tt →
  astar_iter py_hash heuristic exp goal v c =
  if State_eq current goal then (Ok (Return (true, curr_path)), c)
  else match available_actions (content current) with
       | Ok actions =>
           match mfoldl (visit py_hash heuristic exp goal current curr_path)
                   {| open_set := rest; closed_set := closed_set v;
                      past_len := past_len v; steps := steps v |} actions c with
           | (Ok v1, c1) =>
               (Ok (Continue {| open_set := open_set v1; closed_set := closed_set v1;
                                past_len := past_len v1; steps := steps v1 + 1 |}), c1)
           | (Raise e, c1) => (Raise e, c1)
           end
       | Raise e => (Raise e, c)
       end.
Proof.
  intros Hopen Hlog. unfold astar_iter, heappop. rewrite Hopen.
  cbv beta iota zeta delta [mbind M_bind mlift mret M_ret]. rewrite Hlog.
  destruct (State_eq current goal); [done|].
  destruct (available_actions (content current)); [|done].
  by destruct (mfoldl _ _ _ _) as [[?|?] ?].
Qed.
(** The turns counted by [after_turns] are those of the loop. *)
Lemma after_turns_next turns goal' :
  ∀ (v0 : @vars K) c0 v c v' c',
    after_turns py_hash heuristic exp turns goal' v0 c0 = Some (v, c) →
    astar_iter py_hash heuristic exp goal' v c = (Ok (Continue v'), c') →
    after_turns py_hash heuristic exp (S turns) goal' v0 c0 = Some (v', c').
Proof.
  induction turns as [|turns IH]; intros v0 c0 v c v' c' Hrun Hiter.
  - injection Hrun as -> ->. cbn [after_turns]. by rewrite Hiter.
  - cbn [after_turns] in Hrun. change (after_turns py_hash heuristic exp (S (S turns)) goal' v0 c0)
      with (match astar_iter py_hash heuristic exp goal' v0 c0 with
            | (Ok (Continue v1), c1) =>
                after_turns py_hash heuristic exp (S turns) goal' v1 c1
            | _ => None
            end).
    destruct (astar_iter py_hash heuristic exp goal' v0 c0) as [[[r|v1]|e] c1];
      [done| |done].
    by eapply IH.
Qed.
End Heap.

(** ** Keys of valid grids *)

Lemma rows_concat_inj n g g' :
  rows n g → rows n g' → length g = length g' → concat g = concat g' → g = g'.
Proof.
  intros Hr. revert g'. induction Hr as [|r g Hlen _ IH]; intros g' Hr' Hl Hc.
  - destruct g'; [done | discriminate].
  - destruct Hr' as [|r' g' Hlen' Hr']; [discriminate|]. simpl in *.
    apply app_inj_1 in Hc as [-> Hc]; [|lia].
    f_equal. apply IH; [done|lia|done].
Qed.

Lemma valid_grid_0 g : valid_grid 0 g → g = [].
Proof. intros [[Hlen _] _]. by destruct g. Qed.

Section Keys.
Variable py_hash : list Z → Z.
Hypothesis py_hash_inj : ∀ l1 l2, py_hash l1 = py_hash l2 → l1 = l2.
Variables (n : nat) (start : grid).
Hypothesis start_valid : valid_grid n start.

Lemma key_inj g g' :
  valid_grid n g → valid_grid n g' → key py_hash g = key py_hash g' → g = g'.
Proof.
  intros [[Hl Hr] _] [[Hl' Hr'] _] Hk. apply py_hash_inj in Hk.
  apply (rows_concat_inj n); [done..|lia|done].
Qed.

Lemma key_universe g : valid_grid n g → key py_hash g ∈ universe py_hash start.
Proof.
  intros [_ Hp]. unfold universe, key, tobytes.
  apply elem_of_list_to_set, list_elem_of_fmap. exists (concat g).
  split; [done|]. apply permutations_Permutation.
  destruct start_valid as [_ Hs]. by rewrite Hs, Hp.
Qed.
End Keys.

(** ** The turns of the search keep the invariant, and the search stops *)

Section AstarSearch.
Variable py_hash : list Z → Z.
Context {K : Type} {cost : Cost K}.
Variable heuristic : grid → grid → nat → pyexp → result K.
Variable exp : pyexp.
Variable known : grid → Prop.
Variables (n : nat) (start goal : grid).
Hypothesis start_valid : valid_grid n start.
Hypothesis goal_valid : valid_grid n goal.
Hypothesis heuristic_total :
  ∀ g step, valid_grid n g → ∃ k, heuristic g goal step exp = Ok k.

Local Abbreviation key := (key py_hash).
Local Abbreviation U := (universe py_hash start).
Local Abbreviation inv := (search_inv py_hash known start goal).
Local Abbreviation gs := (mkState py_hash goal).

Lemma move_total g a actions :
  valid_grid n g → available_actions g = Ok actions → a ∈ actions →
  ∃ g', move g a g'.
Proof.
  intros Hv Hact Ha.
  destruct (first_where_cases g 0) as [[p Hp]|Hp].
  - pose proof Hact as Hact'.
    rewrite (available_actions_at n g p) in Hact' by (by destruct Hv || done).
    injection Hact' as <-.
    destruct (available_actions_elem n g p a) as (_ & H1 & H2 & _); [by destruct Hv|done..|].
    destruct (do_action_body_valid n g a Hv H1 H2) as (g' & Hdo & _).
    exists g', (action p <$> neighbours_in_order n p). done.
  - unfold available_actions in Hact. by rewrite Hp in Hact.
Qed.

Lemma expanded_mono (c1 c2 : gset Z) k :
  c1 ⊆ c2 → expanded py_hash known goal c1 k → expanded py_hash known goal c2 k.
Proof.
  intros Hsub [Hne Hall]. split; [done|]. intros g a g' Hg Hk Hm.
  destruct (Hall g a g' Hg Hk Hm) as [Hg' Hin]. split; [done|]. by apply Hsub.
Qed.

Lemma abs_heappush (heap : list (K * State * list Action)) item :
  abs_item <$> heappush heap item ≡ₚ abs_item item :: (abs_item <$> heap).
Proof. by rewrite heappush_Permutation. Qed.

(** One round of the [for] loop keeps the invariant. *)
Lemma visit_spec current curr_path q v a g' c :
  inv (Some (hash current)) v →
  moves start curr_path (content current) →
  hash current = key (content current) →
  past_len v !! hash current = Some q →
  move (content current) a g' →
  ∃ v', visit py_hash heuristic exp gs current curr_path v a c = (Ok v', S c) ∧
        inv (Some (hash current)) v' ∧
        past_len v' !! hash current = Some q ∧
        key g' ∈ closed_set v' ∧ closed_set v ⊆ closed_set v' ∧
        steps v' = steps v ∧
        pushes U q (length curr_path) (abs_vars v) (abs_vars v').
Proof.
  intros Hinv Hpath Hhash Hq Hmv.
  pose proof (moves_valid _ _ _ _ start_valid Hpath) as Hcv.
  pose proof (move_valid _ _ _ _ Hcv Hmv) as Hv'.
  pose proof Hmv as (_ & _ & _ & Hdo).
  destruct Hinv as [Hdom Hitems Hkeys Hstart Hdone].
  unfold visit. rewrite mbind_run. unfold do_action at 1. rewrite Hdo.
  rewrite mbind_run. unfold mlift at 1.
  assert (hash (mkState py_hash g') = key g') as Hk' by done.
  assert (pushes U q (length curr_path) (abs_vars v) (abs_vars v)) as Hnop
    by constructor.
  destruct (neighbor_test v current (mkState py_hash g')) as [[|]|e] eqn:Htest.
  - (* the neighbour is pushed *)
    destruct (heuristic_total g' (steps v) Hv') as [h Hh].
    rewrite mbind_run. unfold mlift. simpl content. rewrite Hh.
    eexists. split; [reflexivity|].
    assert (key g' ≠ hash current) as Hne.
    { apply neighbor_test_true in Htest as [Hnc|(pc & pn & Hpc & Hpn & Hlt)].
      - intros Heq. apply Hnc. rewrite Hk', Heq, Hdom.
        apply elem_of_dom. by eexists.
      - intros Heq. rewrite Hk', Heq in Hpn. simplify_eq. lia. }
    assert (relaxable (past_len v) q (key g')) as Hrel.
    { unfold relaxable.
      apply neighbor_test_true in Htest as [Hnc|(pc & pn & Hpc & Hpn & Hlt)].
      - rewrite Hk', Hdom in Hnc. apply not_elem_of_dom in Hnc. by rewrite Hnc.
      - rewrite Hk' in Hpn. rewrite Hpn. simplify_eq. done. }
    simpl. split; [|split; [|split; [|split; [|split]]]].
    + split; simpl.
      * rewrite dom_insert_L. by rewrite Hdom.
      * apply Forall_forall. intros e [->|He]%elem_of_heappush.
        -- split; simpl; [by eapply moves_snoc | done].
        -- by eapply (proj1 (Forall_forall _ _) Hitems).
      * intros e [->|He]%elem_of_heappush.
        -- unfold item_key. simpl. set_solver.
        -- apply elem_of_union_r. by apply Hkeys.
      * set_solver.
      * intros k [Hk%elem_of_singleton|Hk]%elem_of_union Hbusy.
        -- left. eexists. split; [apply elem_of_heappush; by left|]. done.
        -- destruct (Hdone k Hk Hbusy) as [(e & He & Hek)|Hexp].
           ++ left. exists e. split; [apply elem_of_heappush; by right | done].
           ++ right. eapply expanded_mono; [|done]. set_solver.
    + by rewrite lookup_insert_ne.
    + set_solver.
    + set_solver.
    + done.
    + unfold abs_vars. simpl. rewrite Nat.add_1_r.
      eapply (pushes_push _ _ _ _ _ _ (key g')); last first.
      * constructor.
      * rewrite abs_heappush. unfold abs_item at 1, item_key. simpl.
        rewrite length_app. simpl. rewrite Nat.add_1_r. reflexivity.
      * exact Hrel.
      * by apply (key_universe py_hash n start).
  - (* nothing happens *)
    exists v. split; [reflexivity|]. split; [done|]. split; [done|].
    split; [|done].
    unfold neighbor_test in Htest. case_bool_decide as Hc; [done|].
    exact Hc.
  - (* the test cannot fail *)
    exfalso. unfold neighbor_test in Htest. case_bool_decide as Hc; [done|].
    assert (key g' ∈ closed_set v) as Hin by exact Hc.
    rewrite Hdom in Hin. apply elem_of_dom in Hin as [pn Hpn].
    change (key g') with (hash (mkState py_hash g')) in Hpn.
    unfold dict_get in Htest. rewrite Hq, Hpn in Htest. done.
Qed.

(** The whole [for] loop. *)
Lemma visits_spec current curr_path q actions :
  moves start curr_path (content current) →
  hash current = key (content current) →
  (∀ a, a ∈ actions → ∃ g', move (content current) a g') →
  ∀ v c,
    inv (Some (hash current)) v →
    past_len v !! hash current = Some q →
    ∃ v' c',
      mfoldl (visit py_hash heuristic exp gs current curr_path) v actions c
        = (Ok v', c') ∧
      inv (Some (hash current)) v' ∧
      past_len v' !! hash current = Some q ∧
      (∀ a g', a ∈ actions → do_action_body (content current) a = Ok g' →
               key g' ∈ closed_set v') ∧
      closed_set v ⊆ closed_set v' ∧ steps v' = steps v ∧
      pushes U q (length curr_path) (abs_vars v) (abs_vars v').
Proof.
  intros Hpath Hhash. induction actions as [|a actions IH]; intros Hmoves v c Hinv Hq.
  - exists v, c. split; [done|]. split; [done|]. split; [done|].
    split; [by intros ? ? ?%elem_of_nil|]. split; [done|]. split; [done|constructor].
  - destruct (Hmoves a) as [g1 Hm1]; [apply list_elem_of_here|].
    destruct (visit_spec current curr_path q v a g1 c Hinv Hpath Hhash Hq Hm1)
      as (v1 & Hvis & Hinv1 & Hq1 & Hin1 & Hsub1 & Hst1 & Hpu1).
    destruct (IH (λ a' Ha', Hmoves a' (list_elem_of_further _ _ _ Ha')) v1 (S c) Hinv1 Hq1)
      as (v2 & c2 & Hfold & Hinv2 & Hq2 & Hin2 & Hsub2 & Hst2 & Hpu2).
    exists v2, c2. split.
    { simpl. rewrite mbind_run, Hvis. exact Hfold. }
    split; [done|]. split; [done|]. split.
    { intros a' g' [->|Ha']%elem_of_cons Hdo.
      - destruct Hm1 as (_ & _ & _ & Hdo1). rewrite Hdo in Hdo1.
        injection Hdo1 as ->. by apply Hsub2.
      - by eapply Hin2. }
    split; [set_solver|]. split; [congruence|].
    by eapply pushes_trans.
Qed.

(** A turn of the [while] loop either returns the path of an item whose
    state has the hash of the goal, or leaves the invariant in place,
    after one abstract step.  The hash is needed without collision only
    between the popped grid and the known grids. *)
Lemma astar_iter_turn v c k current curr_path rest :
  inv None v → open_set v = (k, current, curr_path) :: rest →
  (State_eq current gs = false →
   ∀ g a g', known g → key g = hash current → move g a g' →
             g = content current ∧ known g') →
  (astar_iter py_hash heuristic exp gs v c = (Ok (Return (true, curr_path)), c) ∧
   moves start curr_path (content current) ∧ hash current = key goal) ∨
  (∃ v' c', astar_iter py_hash heuristic exp gs v c = (Ok (Continue v'), c') ∧
            inv None v' ∧ astep U (abs_vars v) (abs_vars v')).
Proof.
  intros [Hdom Hitems Hkeys Hstart Hdone] Hopen Hcur.
  assert ((k, current, curr_path) ∈ open_set v) as Hhead.
  { rewrite Hopen. apply list_elem_of_here. }
  pose proof (proj1 (Forall_forall _ _) Hitems _ Hhead) as [Hpath Hhash].
  simpl in Hpath, Hhash.
  pose proof (moves_valid _ _ _ _ start_valid Hpath) as Hcv.
  pose proof goal_valid as Hgv.
  assert (log_progress gs current v = Ok tt) as Hlog.
  { unfold log_progress. case_bool_decide; [|done]. simpl content.
    destruct (fixed_heuristic_total n (content current) goal None 1 1) as [h ->];
      done. }
  rewrite !(astar_iter_unfold py_hash heuristic exp gs v c _ _ _ _ Hopen Hlog).
  destruct (State_eq current gs) eqn:Heq.
  { left. split; [done|]. split; [done|].
    apply bool_decide_eq_true in Heq. exact Heq. }
  right. specialize (Hcur eq_refl).
  apply bool_decide_eq_false in Heq. simpl in Heq.
  assert (0 < n)%nat as Hn.
  { destruct n; [|lia]. destruct Heq. rewrite Hhash.
    by rewrite (valid_grid_0 _ Hcv), (valid_grid_0 _ Hgv). }
  destruct (valid_available n (content current) Hcv Hn) as (p & Hp & Hact).
  rewrite Hact.
  assert (hash current ∈ closed_set v) as Hcin by (by apply (Hkeys _ Hhead)).
  assert (∃ q, past_len v !! hash current = Some q) as [q Hq].
  { rewrite Hdom in Hcin. by apply elem_of_dom in Hcin. }
  set (v0 := {| open_set := rest; closed_set := closed_set v;
                past_len := past_len v; steps := steps v |}).
  assert (inv (Some (hash current)) v0) as Hinv0.
  { split; simpl; [done| | |done|].
    - rewrite Hopen in Hitems. by inversion Hitems.
    - intros e He. apply Hkeys. rewrite Hopen. by apply list_elem_of_further.
    - intros k' Hk' Hbusy. destruct (Hdone k' Hk') as [(e & He & Hek)|Hexp]; [done| |by right].
      left. exists e. split; [|done]. rewrite Hopen in He.
      apply elem_of_cons in He as [->|He]; [|done].
      unfold item_key in Hek. simpl in Hek. congruence. }
  destruct (visits_spec current curr_path q _ Hpath Hhash
              (λ a Ha, move_total _ a _ Hcv Hact Ha) v0 c Hinv0 Hq)
    as (v1 & c1 & Hfold & [Hdom1 Hitems1 Hkeys1 Hstart1 Hdone1] & Hq1 & Hin1 & Hsub1 & Hst1 & Hpu1).
  fold v0. rewrite Hfold.
  eexists _, c1. split; [reflexivity|]. split.
  - split; simpl; [done..|].
    intros k' Hk' _. destruct (decide (k' = hash current)) as [->|Hne].
    + right. split; [done|]. intros g a g' Hg Hkg Hm.
      destruct (Hcur g a g' Hg Hkg Hm) as [-> Hg']. split; [done|].
      destruct Hm as (actions & Hact' & Ha & Hdo).
      rewrite Hact in Hact'. injection Hact' as <-. by eapply Hin1.
    + apply Hdone1; [done|congruence].
  - unfold abs_vars in *. simpl in *. rewrite Hopen. rewrite fmap_cons.
    change (abs_item (k, current, curr_path)) with (hash current, length curr_path).
    eapply astep_intro; [reflexivity|exact Hq|]. exact Hpu1.
Qed.

(** With the heap empty, every grid that can be reached from the start
    is known and has its key in the closed set, expanded: the goal is
    not among them. *)
Lemma heap_empty_unreachable (v : @vars K) :
  known start → inv None v → open_set v = [] → ¬ solvable start goal.
Proof.
  intros Hks [Hdom Hitems Hkeys Hstart Hdone] Hopen [p Hp].
  assert (∀ k, k ∈ closed_set v → expanded py_hash known goal (closed_set v) k) as Hexp.
  { intros k Hk. destruct (Hdone k Hk) as [(e & He & _)|Hexp]; [done| |done].
    rewrite Hopen in He. by apply elem_of_nil in He. }
  assert (∀ p g, moves start p g → known g ∧ key g ∈ closed_set v) as Hreach.
  { intros p' g Hm.
    apply (moves_ind_from (λ g, known g ∧ key g ∈ closed_set v) _ _ _ Hm);
      [done|].
    intros g1 a g2 [Hv1 Hk1] Hmv.
    destruct (Hexp _ Hk1) as [_ Hall]. by eapply Hall. }
  destruct (Hreach _ _ Hp) as [_ Hg]. destruct (Hexp _ Hg) as [Hne _]. done.
Qed.

Lemma astar_iter_empty goal' (v : @vars K) c :
  open_set v = [] →
  astar_iter py_hash heuristic exp goal' v c = (Ok (Return (false, [])), c).
Proof. intros Hopen. unfold astar_iter. by rewrite Hopen. Qed.

(** The loop returns, whatever the hash and whatever the order in which
    the heap hands out its items: with [(True, path)] when an item whose
    state has the hash of the goal heads the heap, with [(False, [])]
    when the heap is empty.  A property [Q] of the variables and the
    call counter that every turn keeps holds at that moment. *)
Lemma astar_loop_ends (Q : @vars K → nat → Prop) :
  (∀ v c v' c', inv None v → Q v c →
     astar_iter py_hash heuristic exp gs v c = (Ok (Continue v'), c') → Q v' c') →
  (∀ v c k current curr_path rest, inv None v → Q v c →
     open_set v = (k, current, curr_path) :: rest →
     State_eq current gs = false →
     ∀ g a g', known g → key g = hash current → move g a g' →
               g = content current ∧ known g') →
  ∀ v, inv None v →
  ∀ c, Q v c →
  ∃ fuel c' vf,
    inv None vf ∧ Q vf c' ∧
    ((∃ path k current rest,
        astar_loop py_hash heuristic exp fuel gs v c = (Ok (Some (true, path)), c') ∧
        moves start path (content current) ∧
        open_set vf = (k, current, path) :: rest ∧ hash current = key goal) ∨
     (astar_loop py_hash heuristic exp fuel gs v c = (Ok (Some (false, [])), c') ∧
      open_set vf = [])).
Proof.
  intros HQ Hcur v Hinv. pose proof (astep_acc U (abs_vars v)) as Hacc.
  remember (abs_vars v) as cfg eqn:Hcfg. revert v Hinv Hcfg.
  induction Hacc as [cfg _ IH]. intros v Hinv -> c Hq.
  destruct (open_set v) as [|[[k current] curr_path] rest] eqn:Hopen.
  { exists 1%nat, c, v. split; [done|]. split; [done|]. right. split; [|done].
    cbn [astar_loop]. by rewrite mbind_run, (astar_iter_empty _ _ _ Hopen). }
  destruct (astar_iter_turn v c k current curr_path rest Hinv Hopen
              (Hcur v c k current curr_path rest Hinv Hq Hopen))
    as [(Hiter & Hpath & Hgoal)|(v' & c' & Hiter & Hinv' & Hstep)].
  - exists 1%nat, c, v. split; [done|]. split; [done|]. left.
    exists curr_path, k, current, rest. split; [|done].
    cbn [astar_loop]. by rewrite mbind_run, Hiter.
  - destruct (IH (abs_vars v') Hstep v' Hinv' eq_refl c' (HQ _ _ _ _ Hinv Hq Hiter))
      as (fuel & c'' & vf & Hinvf & HQf & Hend).
    exists (S fuel), c'', vf. split; [done|]. split; [done|].
    destruct Hend as [(path & k' & cur' & rest' & Hloop & Hrest)|[Hloop Hrest]].
    + left. exists path, k', cur', rest'. split; [|done].
      cbn [astar_loop]. by rewrite mbind_run, Hiter.
    + right. split; [|done]. cbn [astar_loop]. by rewrite mbind_run, Hiter.
Qed.

Lemma astar_init_holds : inv None (astar_init (mkState py_hash start)).
Proof.
  split; simpl.
  - by rewrite dom_singleton_L.
  - repeat constructor.
  - intros e ->%list_elem_of_singleton. unfold item_key. simpl. set_solver.
  - set_solver.
  - intros k ->%elem_of_singleton _. left. eexists. split; [apply list_elem_of_here|done].
Qed.

End AstarSearch.

(** ** The search under a hash free of collisions *)

Section AstarInjective.
Variable py_hash : list Z → Z.
Hypothesis py_hash_inj : ∀ l1 l2, py_hash l1 = py_hash l2 → l1 = l2.
Context {K : Type} {cost : Cost K}.
Variable heuristic : grid → grid → nat → pyexp → result K.
Variable exp : pyexp.
Variables (n : nat) (start goal : grid).
Hypothesis start_valid : valid_grid n start.
Hypothesis goal_valid : valid_grid n goal.
Hypothesis heuristic_total :
  ∀ g step, valid_grid n g → ∃ k, heuristic g goal step exp = Ok k.

Local Abbreviation key := (key py_hash).
Local Abbreviation U := (universe py_hash start).
Local Abbreviation inv := (search_inv py_hash (valid_grid n) start goal).
Local Abbreviation gs := (mkState py_hash goal).

(** The popped grid is the only valid grid with its key. *)
Lemma head_only (v : @vars K) k current curr_path rest :
  inv None v → open_set v = (k, current, curr_path) :: rest →
  moves start curr_path (content current) ∧
  hash current = key (content current) ∧
  ∀ g a g', valid_grid n g → key g = hash current → move g a g' →
            g = content current ∧ valid_grid n g'.
Proof using All.
  intros [_ Hitems _ _ _] Hopen. rewrite Hopen in Hitems.
  apply Forall_cons in Hitems as [[Hpath Hhash] _]. simpl in Hpath, Hhash.
  split; [done|]. split; [done|]. intros g a g' Hg Hk Hm.
  pose proof (moves_valid _ _ _ _ start_valid Hpath) as Hcv.
  rewrite Hhash in Hk. apply (key_inj py_hash py_hash_inj n) in Hk; [|done..].
  subst g. split; [done|]. by eapply move_valid.
Qed.

Lemma astar_iter_spec v c k current curr_path rest :
  inv None v → open_set v = (k, current, curr_path) :: rest →
  (astar_iter py_hash heuristic exp gs v c = (Ok (Return (true, curr_path)), c) ∧
   moves start curr_path goal ∧ hash current = key goal) ∨
  (∃ v' c', astar_iter py_hash heuristic exp gs v c = (Ok (Continue v'), c') ∧
            inv None v' ∧ astep U (abs_vars v) (abs_vars v')).
Proof using All.
  intros Hinv Hopen.
  destruct (head_only v k current curr_path rest Hinv Hopen) as (Hpath & Hhash & Honly).
  destruct (astar_iter_turn py_hash heuristic exp (valid_grid n) n start goal
              start_valid goal_valid heuristic_total v c k current curr_path rest
              Hinv Hopen (λ _, Honly))
    as [(Hiter & _ & Hgoal)|Hcont]; [left|by right].
  split; [done|]. split; [|done].
  rewrite Hhash in Hgoal.
  apply (key_inj py_hash py_hash_inj n) in Hgoal; [by rewrite <- Hgoal| |done].
  exact (moves_valid n start curr_path _ start_valid Hpath).
Qed.

Lemma inv_empty_unreachable (v : @vars K) :
  inv None v → open_set v = [] → ¬ solvable start goal.
Proof using All.
  intros Hinv Hopen.
  eapply (heap_empty_unreachable py_hash); [..|exact Hinv|exact Hopen]; eauto.
Qed.

(** The loop returns: with [(True, path)] for a path to the goal when
    an item whose state is the goal heads the heap, with [(False, [])]
    when the heap is empty.  A property [Q] that every turn keeps holds
    of the variables at that moment. *)
Lemma astar_loop_ends_with (Q : @vars K → Prop) :
  (∀ v c v' c', inv None v → Q v →
     astar_iter py_hash heuristic exp gs v c = (Ok (Continue v'), c') → Q v') →
  ∀ v, inv None v → Q v →
  ∀ c, ∃ fuel c' vf,
    inv None vf ∧ Q vf ∧
    ((∃ path k current rest,
        astar_loop py_hash heuristic exp fuel gs v c = (Ok (Some (true, path)), c') ∧
        moves start path goal ∧
        open_set vf = (k, current, path) :: rest ∧ hash current = key goal) ∨
     (astar_loop py_hash heuristic exp fuel gs v c = (Ok (Some (false, [])), c') ∧
      open_set vf = [])).
Proof using All.
  intros HQ v Hinv Hq c.
  assert (∀ (v0 : @vars K) (c0 : nat) k current curr_path rest,
            inv None v0 → Q v0 → open_set v0 = (k, current, curr_path) :: rest →
            State_eq current gs = false →
            ∀ g a g', valid_grid n g → key g = hash current → move g a g' →
                      g = content current ∧ valid_grid n g') as Hcur.
  { intros v0 c0 k current curr_path rest Hinv0 _ Hopen _.
    by destruct (head_only v0 k current curr_path rest Hinv0 Hopen) as (_ & _ & Honly). }
  destruct (astar_loop_ends py_hash heuristic exp (valid_grid n) n start goal
              start_valid goal_valid heuristic_total (λ v _, Q v) HQ Hcur v Hinv c Hq)
    as (fuel & c' & vf & Hinvf & HQf & Hend).
  exists fuel, c', vf. split; [done|]. split; [done|].
  destruct Hend as [(path & k & current & rest & Hloop & Hpath & Hopen & Hgoal)|Hend];
    [left|by right].
  exists path, k, current, rest. split; [done|]. split; [|done].
  destruct (head_only vf k current path rest Hinvf Hopen) as (_ & Hhash & _).
  rewrite Hhash in Hgoal.
  apply (key_inj py_hash py_hash_inj n) in Hgoal; [by rewrite <- Hgoal| |done].
  exact (moves_valid n start path _ start_valid Hpath).
Qed.

Lemma astar_init_search_inv : inv None (astar_init (mkState py_hash start)).
Proof using All. eapply astar_init_holds; eauto. Qed.
End AstarInjective.

(** ** The search finds the goal *)

Section AstarCorrect.
Variable py_hash : list Z → Z.
Hypothesis py_hash_inj : ∀ l1 l2, py_hash l1 = py_hash l2 → l1 = l2.
Context {K : Type} {cost : Cost K}.
Variable heuristic : grid → grid → nat → pyexp → result K.
Variable exp : pyexp.
Variables (n : nat) (start goal : grid).
Hypothesis start_valid : valid_grid n start.
Hypothesis goal_reachable : solvable start goal.
Hypothesis heuristic_total :
  ∀ g step, valid_grid n g → ∃ k, heuristic g goal step exp = Ok k.

Local Abbreviation key := (key py_hash).
Local Abbreviation inv := (search_inv py_hash (valid_grid n) start goal).
Local Abbreviation gs := (mkState py_hash goal).

Lemma goal_valid : valid_grid n goal.
Proof. destruct goal_reachable as [p Hp]. by eapply moves_valid. Qed.

(** The loop returns; a property [Q] that every turn keeps holds of the
    variables at that moment, when the returned path heads the heap. *)
Lemma astar_loop_finds_with (Q : @vars K → Prop) :
  (∀ v c v' c', inv None v → Q v →
     astar_iter py_hash heuristic exp gs v c = (Ok (Continue v'), c') → Q v') →
  ∀ v, inv None v → Q v →
  ∀ c, ∃ fuel path c' vf k current rest,
    astar_loop py_hash heuristic exp fuel gs v c = (Ok (Some (true, path)), c') ∧
    moves start path goal ∧
    Q vf ∧ open_set vf = (k, current, path) :: rest ∧ hash current = key goal.
Proof using All.
  intros HQ v Hinv Hq c.
  destruct (astar_loop_ends_with py_hash py_hash_inj heuristic exp n start goal
              start_valid goal_valid heuristic_total Q HQ v Hinv Hq c)
    as (fuel & c' & vf & Hinvf & HQf & Hend).
  destruct Hend as [(path & k & current & rest & Hloop & Hpath & Hopen & Hgoal)|[_ Hopen]].
  - by exists fuel, path, c', vf, k, current, rest.
  - exfalso. eapply (inv_empty_unreachable py_hash); [..|exact goal_reachable];
      eauto using goal_valid.
Qed.

Lemma astar_loop_finds (v : @vars K) :
  inv None v →
  ∀ c, ∃ fuel path c',
    astar_loop py_hash heuristic exp fuel gs v c = (Ok (Some (true, path)), c') ∧
    moves start path goal.
Proof using All.
  intros Hinv c.
  destruct (astar_loop_finds_with (λ _, True) ltac:(done) v Hinv I c)
    as (fuel & path & c' & _ & _ & _ & _ & Hloop & Hpath & _).
  by exists fuel, path, c'.
Qed.

Lemma astar_init_inv : inv None (astar_init (mkState py_hash start)).
Proof using All. eapply astar_init_search_inv; eauto using goal_valid. Qed.

(** [astar] returns [(True, path)] for a path of legal moves from the
    start grid to the goal grid. *)
Lemma astar_finds c :
  ∃ fuel path c',
    astar py_hash heuristic exp fuel start goal c = (Ok (Some (true, path)), c') ∧
    moves start path goal.
Proof using All. apply astar_loop_finds, astar_init_inv. Qed.
End AstarCorrect.

(** ** The search under any hash *)

Section AstarAnyHash.
Variable py_hash : list Z → Z.
Context {K : Type} {cost : Cost K}.
Variable heuristic : grid → grid → nat → pyexp → result K.
Variable exp : pyexp.
Variables (n : nat) (start goal : grid).
Hypothesis start_valid : valid_grid n start.
Hypothesis goal_valid : valid_grid n goal.
Hypothesis heuristic_total :
  ∀ g step, valid_grid n g → ∃ k, heuristic g goal step exp = Ok k.

Local Abbreviation key := (key py_hash).
Local Abbreviation inv := (search_inv py_hash (λ _, False) start goal).
Local Abbreviation gs := (mkState py_hash goal).

(** Collisions or not, the loop returns: the path of an item whose
    state has the hash of the goal, or [(False, [])] with the heap
    empty. *)
Lemma astar_loop_stops (Q : @vars K → nat → Prop) :
  (∀ v c v' c', inv None v → Q v c →
     astar_iter py_hash heuristic exp gs v c = (Ok (Continue v'), c') → Q v' c') →
  ∀ v, inv None v →
  ∀ c, Q v c →
  ∃ fuel c' vf,
    inv None vf ∧ Q vf c' ∧
    ((∃ path k current rest,
        astar_loop py_hash heuristic exp fuel gs v c = (Ok (Some (true, path)), c') ∧
        moves start path (content current) ∧
        open_set vf = (k, current, path) :: rest ∧ hash current = key goal) ∨
     (astar_loop py_hash heuristic exp fuel gs v c = (Ok (Some (false, [])), c') ∧
      open_set vf = [])).
Proof using All.
  intros HQ v Hinv c Hq.
  apply (astar_loop_ends py_hash heuristic exp (λ _, False) n start goal
           start_valid goal_valid heuristic_total Q HQ); [|done..].
  by intros.
Qed.

(** [astar] returns: [(False, [])], or [(True, path)] for a path of
    legal moves from the start grid to a grid with the hash of the
    goal. *)
Lemma astar_stops c :
  ∃ fuel r c',
    astar py_hash heuristic exp fuel start goal c = (Ok (Some r), c') ∧
    (r = (false, []) ∨
     ∃ path g, r = (true, path) ∧ moves start path g ∧ key g = key goal).
Proof using All.
  destruct (astar_loop_stops (λ _ _, True)) with
    (v := astar_init (mkState py_hash start)) (c := c)
    as (fuel & c' & vf & Hinvf & _ & Hend); [done| |done|].
  { eapply astar_init_holds; eauto. }
  exists fuel.
  destruct Hend as [(path & k & current & rest & Hloop & Hpath & Hopen & Hgoal)|[Hloop _]].
  - exists (true, path), c'. split; [done|]. right.
    exists path, (content current). split; [done|]. split; [done|].
    destruct Hinvf as [_ Hitems _ _ _]. rewrite Hopen in Hitems.
    apply Forall_cons in Hitems as [[_ Hhash] _]. cbn [fst snd] in Hhash.
    congruence.
  - exists (false, []), c'. split; [done|]. by left.
Qed.
End AstarAnyHash.

(** ** The search when the grids it meets have different hashes *)

Section AstarGenerated.
Variable py_hash : list Z → Z.
Context {K : Type} {cost : Cost K}.
Variable heuristic : grid → grid → nat → pyexp → result K.
Variable exp : pyexp.
Variables (n : nat) (start goal : grid) (calls : nat).
Hypothesis start_valid : valid_grid n start.
Hypothesis goal_reachable : solvable start goal.
Hypothesis heuristic_total :
  ∀ g step, valid_grid n g → ∃ k, heuristic g goal step exp = Ok k.

Local Abbreviation key := (key py_hash).
Local Abbreviation gen := (generated py_hash heuristic exp start goal calls).
Local Abbreviation inv := (search_inv py_hash gen start goal).
Local Abbreviation gs := (mkState py_hash goal).
Local Abbreviation init := (astar_init (mkState py_hash start)).

Hypothesis gen_inj : ∀ g g', gen g → gen g' → key g = key g' → g = g'.

(** [v] and [c] are the variables and the counter after some turns of
    the run, and the heap holds generated grids only. *)
Local Abbreviation met v c :=
  ((∃ turns, after_turns py_hash heuristic exp turns gs init calls = Some (v, c)) ∧
   ∀ e, e ∈ open_set v → gen (content e.1.2)).

Lemma met_next (v : @vars K) c v' c' :
  inv None v → met v c →
  astar_iter py_hash heuristic exp gs v c = (Ok (Continue v'), c') → met v' c'.
Proof using Type.
  intros _ [[t Ht] Hitems] Hiter. split.
  { exists (S t). by eapply after_turns_next. }
  apply astar_iter_Continue in Hiter
    as (k & current & curr_path & rest & actions & v1 & Hopen & _ & Heq & Hact & Hfold & ->).
  cbn [open_set].
  eapply (mfoldl_inv (λ s, ∀ e, e ∈ open_set s → gen (content e.1.2))); [| |exact Hfold].
  - intros s a c0 s' c0' Ha Hs Hvis.
    apply visit_inv in Hvis as (g' & Hdo & _ & [[_ ->]|(h & _ & _ & ->)]); [done|].
    cbn [open_set]. intros e [->|He]%elem_of_heappush; [|by apply Hs].
    cbn [fst snd content mkState].
    eapply generated_neighbor; [exact Ht|exact Hopen|exact Heq|].
    by exists actions.
  - cbn [open_set]. intros e He. apply Hitems. rewrite Hopen.
    by apply list_elem_of_further.
Qed.

Lemma met_only (v : @vars K) c k current curr_path rest :
  inv None v → met v c →
  open_set v = (k, current, curr_path) :: rest →
  State_eq current gs = false →
  ∀ g a g', gen g → key g = hash current → move g a g' →
            g = content current ∧ gen g'.
Proof using gen_inj.
  intros [_ Hitems _ _ _] [[t Ht] Hgen] Hopen Heq g a g' Hg Hk Hm.
  assert ((k, current, curr_path) ∈ open_set v) as Hhead.
  { rewrite Hopen. apply list_elem_of_here. }
  pose proof (proj1 (Forall_forall _ _) Hitems _ Hhead) as [_ Hhash].
  cbn [fst snd] in Hhash.
  assert (g = content current) as ->.
  { apply gen_inj; [done|exact (Hgen _ Hhead)|congruence]. }
  split; [done|]. by eapply generated_neighbor.
Qed.

(** [astar] returns [(True, path)] for a path of legal moves from the
    start grid to the goal grid. *)
Lemma astar_finds_generated :
  ∃ fuel path c',
    astar py_hash heuristic exp fuel start goal calls
      = (Ok (Some (true, path)), c') ∧
    moves start path goal.
Proof using All.
  assert (valid_grid n goal) as goal_valid.
  { destruct goal_reachable as [p Hp]. by eapply moves_valid. }
  assert (inv None init) as Hinit by (eapply astar_init_holds; eauto).
  assert (met init calls) as Hmet.
  { split; [by exists 0%nat|].
    intros e ->%list_elem_of_singleton. apply generated_start. }
  destruct (astar_loop_ends py_hash heuristic exp gen n start goal
              start_valid goal_valid heuristic_total (λ v c, met v c)
              met_next met_only init Hinit calls Hmet)
    as (fuel & c' & vf & Hinvf & [_ Hgenf] & Hend).
  destruct Hend as [(path & k & current & rest & Hloop & Hpath & Hopen & Hgoal)|[_ Hopen]].
  - exists fuel, path, c'. split; [done|].
    assert ((k, current, path) ∈ open_set vf) as Hhead.
    { rewrite Hopen. apply list_elem_of_here. }
    destruct Hinvf as [_ Hitems _ _ _].
    pose proof (proj1 (Forall_forall _ _) Hitems _ Hhead) as [_ Hhash].
    cbn [fst snd] in Hhash.
    assert (content current = goal) as <-; [|done].
    apply gen_inj; [exact (Hgenf _ Hhead)|apply generated_goal|congruence].
  - exfalso.
    eapply (heap_empty_unreachable py_hash); [..|exact Hinvf|exact Hopen|exact goal_reachable];
      eauto using generated_start.
Qed.
End AstarGenerated.

(** ** Auxiliary facts for the examples *)

Lemma injective_hash_inj l1 l2 : injective_hash l1 = injective_hash l2 → l1 = l2.
Proof. unfold injective_hash. intros [= Heq]. by apply (inj encode). Qed.

(** ** The counter does not influence the search *)

Lemma counter_blind_ret {A} (a : A) : counter_blind (mret a : M A).
Proof. intros c. change ((Ok a, c) = (Ok a, (c + 0)%nat)). f_equal. lia. Qed.

Lemma counter_blind_lift {A} (r : result A) : counter_blind (mlift r).
Proof. intros c. change ((r, c) = (r, (c + 0)%nat)). f_equal. lia. Qed.

Lemma counter_blind_do_action state a : counter_blind (do_action state a).
Proof. intros c. unfold do_action. simpl. f_equal. lia. Qed.

Lemma counter_blind_bind {A B} (m : M A) (k : A → M B) :
  counter_blind m → (∀ a, counter_blind (k a)) → counter_blind (m ≫= k).
Proof.
  intros Hm Hk c. rewrite !mbind_run. rewrite (Hm c).
  destruct (m 0%nat) as [[a|e] d]; simpl.
  - rewrite (Hk a (c + d)%nat), (Hk a d). simpl. f_equal. lia.
  - done.
Qed.

Lemma counter_blind_mfoldl {A S} (f : S → A → M S) l s :
  (∀ s a, counter_blind (f s a)) → counter_blind (mfoldl f s l).
Proof.
  intros Hf. revert s. induction l as [|a l IH]; intros s; simpl.
  - apply counter_blind_ret.
  - apply counter_blind_bind; [apply Hf | done].
Qed.

Section CounterBlind.
Variable py_hash : list Z → Z.
Context {K : Type} {cost : Cost K}.
Variable heuristic : grid → grid → nat → pyexp → result K.
Variable exp : pyexp.

Lemma counter_blind_visit goal current curr_path v a :
  counter_blind (visit py_hash heuristic exp goal current curr_path v a).
Proof.
  unfold visit. apply counter_blind_bind; [apply counter_blind_do_action|].
  intros g. apply counter_blind_bind; [apply counter_blind_lift|].
  intros [|]; [|apply counter_blind_ret].
  apply counter_blind_bind; [apply counter_blind_lift|].
  intros h. apply counter_blind_ret.
Qed.

Lemma counter_blind_iter goal v :
  counter_blind (astar_iter py_hash heuristic exp goal v).
Proof.
  unfold astar_iter. destruct (heappop (open_set v)) as [[[[k current] path] rest]|].
  - apply counter_blind_bind; [apply counter_blind_lift|]. intros _.
    destruct (State_eq current goal); [apply counter_blind_ret|].
    apply counter_blind_bind; [apply counter_blind_lift|]. intros actions.
    apply counter_blind_bind.
    + apply counter_blind_mfoldl. intros. apply counter_blind_visit.
    + intros v'. apply counter_blind_ret.
  - apply counter_blind_ret.
Qed.

Lemma counter_blind_loop fuel goal v :
  counter_blind (astar_loop py_hash heuristic exp fuel goal v).
Proof.
  revert v. induction fuel as [|fuel IH]; intros v; simpl.
  - apply counter_blind_ret.
  - apply counter_blind_bind; [apply counter_blind_iter|].
    intros [r|v']; [apply counter_blind_ret | apply IH].
Qed.

(** More fuel does not change a result. *)
Lemma astar_loop_more_fuel fuel fuel' goal v c r c' :
  astar_loop py_hash heuristic exp fuel goal v c = (Ok (Some r), c') →
  (fuel ≤ fuel')%nat →
  astar_loop py_hash heuristic exp fuel' goal v c = (Ok (Some r), c').
Proof.
  revert fuel' v c. induction fuel as [|fuel IH]; intros fuel' v c; simpl.
  - by intros [[=] _]%mret_Ok.
  - intros Hrun Hle. destruct fuel' as [|fuel']; [lia|]. simpl.
    rewrite mbind_run in *.
    destruct (astar_iter py_hash heuristic exp goal v c) as [[[r'|v']|e] c1]; [done| |done].
    apply IH; [done|lia].
Qed.
End CounterBlind.

(** ** The hash matters through its order only *)

Lemma alike_eq {A} (x y : result A * nat) : alike eq x y → x = y.
Proof.
  destruct x as [[a|e] c], y as [[b|e'] c']; intros [Hc Hr]; simpl in *;
    by subst.
Qed.

Lemma alike_refl {A} (x : result A * nat) : alike eq x x.
Proof. by destruct x as [[a|e] c]. Qed.

Lemma alike_bind {A A' B B'} (R : A → A' → Prop) (S : B → B' → Prop)
    (m1 : M A) (m2 : M A') (k1 : A → M B) (k2 : A' → M B') c :
  alike R (m1 c) (m2 c) →
  (∀ a a' c', R a a' → alike S (k1 a c') (k2 a' c')) →
  alike S ((m1 ≫= k1) c) ((m2 ≫= k2) c).
Proof.
  intros Hm Hk. rewrite !mbind_run.
  destruct (m1 c) as [[a|e] c1], (m2 c) as [[a'|e'] c2], Hm as [Hc Hr];
    simpl in *; subst; try done.
  by apply Hk.
Qed.

Lemma alike_mfoldl {A S S'} (R : S → S' → Prop)
    (f1 : S → A → M S) (f2 : S' → A → M S') l :
  (∀ s s' a c, R s s' → alike R (f1 s a c) (f2 s' a c)) →
  ∀ s s' c, R s s' → alike R (mfoldl f1 s l c) (mfoldl f2 s' l c).
Proof.
  intros Hf. induction l as [|a l IH]; intros s s' c Hs; simpl.
  - done.
  - eapply alike_bind; [by apply Hf|]. intros. by apply IH.
Qed.

Section HashOrder.
Variables h1 h2 : list Z → Z.
Hypothesis same_order : ∀ l l', h1 l < h1 l' ↔ h2 l < h2 l'.
Context {K : Type} {cost : Cost K}.
Variable heuristic : grid → grid → nat → pyexp → result K.
Variable exp : pyexp.

Local Abbreviation same_state := (same_state h1 h2).
Local Abbreviation same_item := (same_item h1 h2 (K := K)).
Local Abbreviation same_vars := (same_vars h1 h2 (K := K)).
Local Abbreviation same_outcome := (same_outcome h1 h2 (K := K)).

Lemma same_collisions l l' : h1 l = h1 l' ↔ h2 l = h2 l'.
Proof.
  pose proof (same_order l l'). pose proof (same_order l' l). lia.
Qed.

Lemma mkState_same g : same_state (mkState h1 g) (mkState h2 g).
Proof. done. Qed.

Lemma State_eq_same s1 s2 t1 t2 :
  same_state s1 s2 → same_state t1 t2 → State_eq s1 t1 = State_eq s2 t2.
Proof.
  intros (Hs & Hs1 & Hs2) (Ht & Ht1 & Ht2). unfold State_eq.
  rewrite Hs1, Hs2, Ht1, Ht2, <- Hs, <- Ht.
  apply bool_decide_ext, same_collisions.
Qed.

Lemma State_lt_same s1 s2 t1 t2 :
  same_state s1 s2 → same_state t1 t2 → State_lt s1 t1 = State_lt s2 t2.
Proof.
  intros (Hs & Hs1 & Hs2) (Ht & Ht1 & Ht2). unfold State_lt.
  rewrite Hs1, Hs2, Ht1, Ht2, <- Hs, <- Ht.
  apply bool_decide_ext, same_order.
Qed.

Lemma entry_ltb_same (a1 a2 b1 b2 : K * State * list Action) :
  same_item a1 a2 → same_item b1 b2 → entry_ltb a1 b1 = entry_ltb a2 b2.
Proof.
  destruct a1 as [[ka1 sa1] pa1], a2 as [[ka2 sa2] pa2],
           b1 as [[kb1 sb1] pb1], b2 as [[kb2 sb2] pb2].
  intros (Hk & Hs & Hp) (Hk' & Hs' & Hp'). simpl in *. subst.
  by rewrite (State_eq_same _ _ _ _ Hs Hs'), (State_lt_same _ _ _ _ Hs Hs').
Qed.

Lemma heappush_same (heap1 heap2 : list (K * State * list Action)) e1 e2 :
  Forall2 same_item heap1 heap2 → same_item e1 e2 →
  Forall2 same_item (heappush heap1 e1) (heappush heap2 e2).
Proof.
  intros Hheap He. induction Hheap as [|x1 x2 heap1 heap2 Hx Hheap IH]; simpl.
  - by constructor.
  - rewrite (entry_ltb_same _ _ _ _ He Hx).
    destruct (entry_ltb e2 x2).
    + constructor; [exact He|]. constructor; [exact Hx|exact Hheap].
    + constructor; [exact Hx|exact IH].
Qed.

Lemma neighbor_test_same (v1 v2 : @vars K) c1 c2 n1 n2 :
  same_vars v1 v2 → same_state c1 c2 → same_state n1 n2 →
  neighbor_test v1 c1 n1 = neighbor_test v2 c2 n2.
Proof.
  intros (_ & Hclosed & Hpast & _) (Hc & Hc1 & Hc2) (Hn & Hn1 & Hn2).
  unfold neighbor_test, dict_get.
  rewrite Hc1, Hc2, Hn1, Hn2, <- Hc, <- Hn, !Hpast.
  rewrite (bool_decide_ext _ (h2 (tobytes (content n1)) ∉ closed_set v2)); [done|].
  by rewrite Hclosed.
Qed.

Lemma visit_same goal1 goal2 c1 c2 curr_path (v1 v2 : @vars K) a c :
  content goal1 = content goal2 → same_state c1 c2 → same_vars v1 v2 →
  alike same_vars (visit h1 heuristic exp goal1 c1 curr_path v1 a c)
                  (visit h2 heuristic exp goal2 c2 curr_path v2 a c).
Proof.
  intros Hgoal Hcur Hv. unfold visit.
  destruct Hcur as (Hc & Hc1 & Hc2). rewrite <- Hc, <- Hgoal.
  eapply alike_bind; [apply alike_refl|]. intros g ? c' <-.
  rewrite (neighbor_test_same v1 v2 c1 c2 (mkState h1 g) (mkState h2 g));
    [|done|done|apply mkState_same].
  eapply alike_bind; [apply alike_refl|]. intros b ? c'' <-.
  destruct b; [|done].
  destruct Hv as (Hopen & Hclosed & Hpast & Hsteps). rewrite <- Hsteps.
  eapply alike_bind; [apply alike_refl|]. intros h ? c3 <-.
  split; [done|]. cbn [fst snd]. split; [|split; [|split]]; cbn [open_set closed_set past_len steps].
  - apply heappush_same; [done|]. split; [done|]. split; [apply mkState_same|done].
  - intros l. rewrite !elem_of_union, !elem_of_singleton. cbn [hash mkState].
    by rewrite Hclosed, same_collisions.
  - intros l. cbn [hash mkState].
    destruct (decide (h1 (tobytes g) = h1 l)) as [Heq|Hne].
    + rewrite Heq, lookup_insert_eq. apply same_collisions in Heq.
      by rewrite Heq, lookup_insert_eq.
    + rewrite lookup_insert_ne by done.
      rewrite lookup_insert_ne; [done|]. by rewrite <- same_collisions.
  - done.
Qed.

Lemma astar_iter_same goal (v1 v2 : @vars K) c :
  same_vars v1 v2 →
  alike same_outcome (astar_iter h1 heuristic exp (mkState h1 goal) v1 c)
                     (astar_iter h2 heuristic exp (mkState h2 goal) v2 c).
Proof.
  intros Hv. pose proof Hv as (Hopen & Hclosed & Hpast & Hsteps).
  unfold astar_iter, heappop.
  destruct Hopen as [|[[k1 s1] p1] [[k2 s2] p2] rest1 rest2 (Hk & Hs & Hp) Hrest];
    [done|].
  simpl in Hk, Hs, Hp. subst k2 p2.
  assert (log_progress (mkState h1 goal) s1 v1 = log_progress (mkState h2 goal) s2 v2)
    as ->.
  { unfold log_progress. destruct Hs as (-> & _). by rewrite Hsteps. }
  eapply alike_bind; [apply alike_refl|]. intros _ _ c' _.
  rewrite (State_eq_same s1 s2 _ _ Hs (mkState_same goal)).
  destruct (State_eq s2 (mkState h2 goal)); [done|].
  pose proof Hs as (Hc & _). rewrite <- Hc.
  eapply alike_bind; [apply alike_refl|]. intros actions ? c'' <-.
  eapply (alike_bind same_vars).
  - apply alike_mfoldl.
    + intros. by apply visit_same.
    + done.
  - intros v1' v2' c3 (Hopen' & Hclosed' & Hpast' & Hsteps').
    split; [done|]. simpl.
    split; [done|]. split; [done|]. split; [done|].
    cbn [steps]. by rewrite Hsteps'.
Qed.

Lemma astar_loop_same fuel goal :
  ∀ (v1 v2 : @vars K) c,
    same_vars v1 v2 →
    alike eq (astar_loop h1 heuristic exp fuel (mkState h1 goal) v1 c)
             (astar_loop h2 heuristic exp fuel (mkState h2 goal) v2 c).
Proof.
  induction fuel as [|fuel IH]; intros v1 v2 c Hv; cbn [astar_loop]; [done|].
  eapply alike_bind; [by apply astar_iter_same|].
  intros [r1|v1'] [r2|v2'] c' Ho; try done.
  - by rewrite Ho.
  - by apply IH.
Qed.

(** Hash functions that order the byte strings alike give the same
    search. *)
Lemma astar_same_order fuel state goal c :
  astar h1 heuristic exp fuel state goal c = astar h2 heuristic exp fuel state goal c.
Proof.
  apply alike_eq. unfold astar. apply astar_loop_same.
  split; [|split; [|split]]; cbn [astar_init open_set closed_set past_len steps heappush].
  - constructor; [|constructor].
    split; [done|]. split; [apply mkState_same|done].
  - intros l. rewrite !elem_of_singleton. cbn [hash mkState]. apply same_collisions.
  - intros l. cbn [hash mkState].
    destruct (decide (h1 (tobytes state) = h1 l)) as [Heq|Hne].
    + rewrite Heq, lookup_singleton_eq. apply same_collisions in Heq.
      by rewrite Heq, lookup_singleton_eq.
    + rewrite lookup_singleton_ne by done.
      rewrite lookup_singleton_ne; [done|]. by rewrite <- same_collisions.
  - done.
Qed.
End HashOrder.

(** [C8] (as amended) With the hash function held fixed, astar is
    deterministic: two runs on the same start grid, goal grid, heuristic
    and exponent return the same result — in particular paths of the
    same length — and make the same number of [do_action] calls,
    whatever the value of the call counter (the only state that outlives
    a call) when each run starts.  The hash matters through its order
    only: under another hash that orders the byte strings of the arrays
    in the same way, the run is the same. *)
Theorem astar_deterministic (py_hash : list Z → Z) {K : Type} {cost : Cost K}
    (heuristic : grid → grid → nat → pyexp → result K) (exp : pyexp)
    (fuel : nat) (state goal : grid) (calls1 calls2 : nat) :
  (astar py_hash heuristic exp fuel state goal calls1).1
    = (astar py_hash heuristic exp fuel state goal calls2).1 ∧
  ((astar py_hash heuristic exp fuel state goal calls1).2 - calls1
    = (astar py_hash heuristic exp fuel state goal calls2).2 - calls2)%nat ∧
  ∀ py_hash' : list Z → Z,
    (∀ l l', py_hash l < py_hash l' ↔ py_hash' l < py_hash' l') →
    astar py_hash' heuristic exp fuel state goal calls1
      = astar py_hash heuristic exp fuel state goal calls1.
Proof.
  split; [|split].
  - unfold astar.
    pose proof (counter_blind_loop py_hash heuristic exp fuel (mkState py_hash goal)
                  (astar_init (mkState py_hash state))) as Hb.
    by rewrite (Hb calls1), (Hb calls2).
  - unfold astar.
    pose proof (counter_blind_loop py_hash heuristic exp fuel (mkState py_hash goal)
                  (astar_init (mkState py_hash state))) as Hb.
    rewrite (Hb calls1), (Hb calls2). simpl. lia.
  - intros py_hash' Horder. symmetry.
    by apply (astar_same_order py_hash py_hash').
Qed.

Lemma astar_deterministic_witness :
  (∀ l l', hash16 l < hash16 l' ↔ 2 * hash16 l + 1 < 2 * hash16 l' + 1) ∧
  astar (λ l, 2 * hash16 l + 1) fixed (ExpInt 2) 20
    [[1; 5; 2]; [8; 0; 3]; [4; 7; 6]] (set_goal 3) 0%nat
  = astar hash16 fixed (ExpInt 2) 20 [[1; 5; 2]; [8; 0; 3]; [4; 7; 6]] (set_goal 3) 0%nat.
Proof.
  assert (∀ l l', hash16 l < hash16 l' ↔ 2 * hash16 l + 1 < 2 * hash16 l' + 1)
    as Horder by (intros l l'; lia).
  split; [exact Horder|].
  exact (proj2 (proj2 (astar_deterministic hash16 fixed (ExpInt 2) 20
                         [[1; 5; 2]; [8; 0; 3]; [4; 7; 6]] (set_goal 3) 0%nat 0%nat))
           (λ l, 2 * hash16 l + 1) Horder).
Defined.

(** [C8] (counterexample) The result is not determined by the start
    grid, the goal grid, the heuristic and the exponent: the hash, which
    orders the states of equal cost in the heap, matters too.  On
    [[1,5,2],[8,0,3],[4,7,6]] with fixed_heuristic and exp = 2, a hash
    and its negation (neither has a collision among 3×3 grids) make
    astar return a path of 10 actions after 36 calls of do_action and a
    path of 8 actions after 24 calls. *)
Lemma astar_depends_on_hash :
  astar hash16 fixed (ExpInt 2) 20 [[1; 5; 2]; [8; 0; 3]; [4; 7; 6]] (set_goal 3) 0%nat
    = (Ok (Some (true, [action (1, 1) (0, 1); action (0, 1) (0, 2);
                        action (0, 2) (1, 2); action (1, 2) (1, 1);
                        action (1, 1) (1, 0); action (1, 0) (2, 0);
                        action (2, 0) (2, 1); action (2, 1) (1, 1);
                        action (1, 1) (1, 2); action (1, 2) (2, 2)])), 36%nat) ∧
  astar (λ l, - hash16 l) fixed (ExpInt 2) 20
    [[1; 5; 2]; [8; 0; 3]; [4; 7; 6]] (set_goal 3) 0%nat
    = (Ok (Some (true, [action (1, 1) (1, 0); action (1, 0) (2, 0);
                        action (2, 0) (2, 1); action (2, 1) (1, 1);
                        action (1, 1) (0, 1); action (0, 1) (0, 2);
                        action (0, 2) (1, 2); action (1, 2) (2, 2)])), 24%nat).
Proof. split; vm_compute; reflexivity. Qed.

(** ** A small instance, used to exercise the statements *)

Lemma example_start_valid : valid_grid 2 [[1; 2]; [0; 3]].
Proof.
  split; [split; [done | by repeat constructor]|].
  apply (bool_decide_unpack _). by vm_compute.
Qed.

Lemma example_goal_valid : valid_grid 2 (set_goal 2).
Proof.
  split; [split; [done | by repeat constructor]|].
  apply (bool_decide_unpack _). by vm_compute.
Qed.

Lemma example_move : move [[1; 2]; [0; 3]] (action (1, 0) (1, 1)) (set_goal 2).
Proof.
  exists [action (1, 0) (0, 0); action (1, 0) (1, 1)].
  split; [done|]. split; [|done]. apply list_elem_of_further, list_elem_of_here.
Qed.

Lemma example_solvable : solvable [[1; 2]; [0; 3]] (set_goal 2).
Proof.
  exists [action (1, 0) (1, 1)].
  apply (moves_snoc _ [] _ _ _ (moves_nil _)), example_move.
Qed.

Lemma fixed_total n goal e :
  valid_grid n goal → 0 ≤ e →
  ∀ g (step : nat), valid_grid n g → ∃ k, fixed g goal step (ExpInt e) = Ok k.
Proof. intros Hg He g step Hv. by apply (fixed_heuristic_total n). Qed.

(** ** The search on solvable instances *)

(** The grids met by the search on the small instance, under [hash16]. *)
Lemma after_turns_stays_None (py_hash : list Z → Z) {K : Type} {cost : Cost K}
    (heuristic : grid → grid → nat → pyexp → result K) (exp : pyexp) goal turns :
  ∀ (v : @vars K) c turns',
    after_turns py_hash heuristic exp turns goal v c = None → (turns ≤ turns')%nat →
    after_turns py_hash heuristic exp turns' goal v c = None.
Proof.
  induction turns as [|turns IH]; intros v c turns' Hrun Hle; [done|].
  destruct turns' as [|turns']; [lia|]. cbn [after_turns] in *.
  destruct (astar_iter py_hash heuristic exp goal v c) as [[[r|v1]|e] c1]; [done| |done].
  apply (IH _ _ _ Hrun). lia.
Qed.

Lemma example_generated g :
  generated hash16 fixed (ExpInt 1) [[1; 2]; [0; 3]] (set_goal 2) 0%nat g →
  g ∈ [[[1; 2]; [0; 3]]; [[1; 2]; [3; 0]]; [[0; 2]; [1; 3]]].
Proof.
  intros [| |turns v calls' k current curr_path rest a g' Hrun Hopen Heq Hm].
  - apply list_elem_of_here.
  - apply list_elem_of_further, list_elem_of_here.
  - destruct turns as [|[|turns]].
    + (* the first turn expands the start grid *)
      injection Hrun as <- <-. vm_compute in Hopen. injection Hopen as <- <- <- <-.
      destruct Hm as (actions & Hact & Ha & Hdo).
      vm_compute in Hact. injection Hact as <-.
      apply elem_of_cons in Ha as [->|Ha];
        [|apply elem_of_cons in Ha as [->|Ha%elem_of_nil]; [|done]];
        vm_compute in Hdo; injection Hdo as <-.
      * do 2 apply list_elem_of_further. apply list_elem_of_here.
      * apply list_elem_of_further, list_elem_of_here.
    + (* the second turn pops the goal *)
      assert (match after_turns hash16 fixed (ExpInt 1) 1 (mkState hash16 (set_goal 2))
                      (astar_init (mkState hash16 [[1; 2]; [0; 3]])) 0%nat with
              | Some (v, _) =>
                  match open_set v with
                  | (_, current, _) :: _ => State_eq current (mkState hash16 (set_goal 2))
                  | [] => true
                  end
              | None => true
              end = true) as Hpop by (vm_compute; reflexivity).
      rewrite Hrun, Hopen, Heq in Hpop. discriminate Hpop.
    + (* there is no third turn *)
      rewrite (after_turns_stays_None hash16 fixed (ExpInt 1) _ 2) in Hrun;
        [discriminate Hrun|vm_compute; reflexivity|lia].
Qed.

Lemma example_no_collision g g' :
  generated hash16 fixed (ExpInt 1) [[1; 2]; [0; 3]] (set_goal 2) 0%nat g →
  generated hash16 fixed (ExpInt 1) [[1; 2]; [0; 3]] (set_goal 2) 0%nat g' →
  hash16 (tobytes g) = hash16 (tobytes g') → g = g'.
Proof.
  intros Hg%example_generated Hg'%example_generated Hk.
  repeat (apply elem_of_cons in Hg as [->|Hg]); [..|by apply elem_of_nil in Hg];
    repeat (apply elem_of_cons in Hg' as [->|Hg']);
    try (by apply elem_of_nil in Hg'); try reflexivity;
    vm_compute in Hk; discriminate Hk.
Qed.

(** [C1] (as amended) For every valid N×N start grid from which the
    conventional goal grid can be reached by legal moves, and every
    heuristic that returns a number on valid grids, astar terminates,
    whatever the hash: from some number of turns on it returns one and
    the same result.  If no two different grids among those the run
    meets — the start, the goal and the neighbours built with do_action —
    have the same hash, that result is [(True, path)], and applying the
    actions of [path] in order with do_action, from the start grid,
    yields exactly the goal grid (each action being one that
    available_actions offers at that point). *)
Theorem astar_solves (py_hash : list Z → Z) {K : Type} {cost : Cost K}
    (heuristic : grid → grid → nat → pyexp → result K) (exp : pyexp)
    (n : nat) (start : grid) (calls : nat) :
  valid_grid n start →
  solvable start (set_goal n) →
  (∀ g step, valid_grid n g → ∃ k, heuristic g (set_goal n) step exp = Ok k) →
  ∃ fuel r calls',
    (∀ fuel', (fuel ≤ fuel')%nat →
       astar py_hash heuristic exp fuel' start (set_goal n) calls
       = (Ok (Some r), calls')) ∧
    ((∀ g g',
        generated py_hash heuristic exp start (set_goal n) calls g →
        generated py_hash heuristic exp start (set_goal n) calls g' →
        py_hash (tobytes g) = py_hash (tobytes g') → g = g') →
     ∃ path,
       r = (true, path) ∧
       moves start path (set_goal n) ∧
       replay start path 0%nat = (Ok (set_goal n), length path)).
Proof.
  intros Hstart Hsolv Hheur.
  assert (valid_grid n (set_goal n)) as Hgoal.
  { destruct Hsolv as [p Hp]. by eapply moves_valid. }
  destruct (astar_stops py_hash heuristic exp n start (set_goal n)
              Hstart Hgoal Hheur calls) as (fuel & r & calls' & Hrun & _).
  exists fuel, r, calls'. split.
  - intros fuel' Hle. unfold astar in *. by eapply astar_loop_more_fuel.
  - intros Hinj.
    destruct (astar_finds_generated py_hash heuristic exp n start (set_goal n) calls
                Hstart Hsolv Hheur Hinj) as (fuel2 & path & calls2 & Hrun2 & Hpath).
    exists path. split; [|split; [done|]].
    + unfold astar in *.
      apply (astar_loop_more_fuel _ _ _ _ (fuel `max` fuel2)%nat) in Hrun; [|lia].
      apply (astar_loop_more_fuel _ _ _ _ (fuel `max` fuel2)%nat) in Hrun2; [|lia].
      rewrite Hrun in Hrun2. by injection Hrun2 as -> _.
    + by rewrite (moves_replay _ _ _ 0%nat Hpath).
Qed.

Lemma astar_solves_witness :
  valid_grid 2 [[1; 2]; [0; 3]] ∧
  solvable [[1; 2]; [0; 3]] (set_goal 2) ∧
  (∀ g (step : nat), valid_grid 2 g →
     ∃ k, fixed g (set_goal 2) step (ExpInt 1) = Ok k) ∧
  (∀ g g',
     generated hash16 fixed (ExpInt 1) [[1; 2]; [0; 3]] (set_goal 2) 0%nat g →
     generated hash16 fixed (ExpInt 1) [[1; 2]; [0; 3]] (set_goal 2) 0%nat g' →
     hash16 (tobytes g) = hash16 (tobytes g') → g = g') ∧
  ∃ fuel r calls',
    (∀ fuel', (fuel ≤ fuel')%nat →
       astar hash16 fixed (ExpInt 1) fuel' [[1; 2]; [0; 3]] (set_goal 2) 0%nat
       = (Ok (Some r), calls')) ∧
    ∃ path,
      r = (true, path) ∧
      moves [[1; 2]; [0; 3]] path (set_goal 2) ∧
      replay [[1; 2]; [0; 3]] path 0%nat = (Ok (set_goal 2), length path).
Proof.
  split; [exact example_start_valid|].
  split; [exact example_solvable|].
  split; [exact (fixed_total 2 (set_goal 2) 1 example_goal_valid ltac:(lia))|].
  split; [exact example_no_collision|].
  destruct (astar_solves hash16 fixed (ExpInt 1) 2 [[1; 2]; [0; 3]] 0%nat
              example_start_valid example_solvable
              (fixed_total 2 (set_goal 2) 1 example_goal_valid ltac:(lia)))
    as (fuel & r & calls' & Hrun & Hgood).
  exists fuel, r, calls'. split; [exact Hrun|]. exact (Hgood example_no_collision).
Defined.

(** [C1] (counterexample) Under a 64-bit hash that gives the start grid
    [[1,2],[0,3]] the hash of the goal, astar returns [(True, [])] from
    its first turn on, without a call of do_action; replaying the empty
    path leaves the start grid, which is not the goal. *)
Lemma astar_collision_empty_path :
  valid_grid 2 [[1; 2]; [0; 3]] ∧
  solvable [[1; 2]; [0; 3]] (set_goal 2) ∧
  (∀ g (step : nat), valid_grid 2 g →
     ∃ k, fixed g (set_goal 2) step (ExpInt 1) = Ok k) ∧
  (∀ fuel, (1 ≤ fuel)%nat →
     astar (hash16_colliding [1; 2; 0; 3] [1; 2; 3; 0]) fixed (ExpInt 1) fuel
       [[1; 2]; [0; 3]] (set_goal 2) 0%nat = (Ok (Some (true, [])), 0%nat)) ∧
  replay [[1; 2]; [0; 3]] [] 0%nat = (Ok [[1; 2]; [0; 3]], 0%nat) ∧
  [[1; 2]; [0; 3]] ≠ set_goal 2.
Proof.
  split; [exact example_start_valid|].
  split; [exact example_solvable|].
  split; [exact (fixed_total 2 (set_goal 2) 1 example_goal_valid ltac:(lia))|].
  split; [|split; [reflexivity|discriminate]].
  intros fuel Hle. unfold astar.
  apply (astar_loop_more_fuel _ _ _ 1%nat); [|exact Hle].
  vm_compute. reflexivity.
Qed.



(** ** The second disjunct of the neighbour test *)

Section Relax.
Variable py_hash : list Z → Z.
Context {K : Type} {cost : Cost K}.
Variable heuristic : grid → grid → nat → pyexp → result K.
Variable exp : pyexp.

Lemma relax_check_sound goal (v : @vars K) calls i neighbor :
  relax_check py_hash heuristic exp goal v calls i = Some neighbor →
  relax_taken py_hash heuristic exp goal v calls i neighbor.
Proof.
  unfold relax_check, relax_taken.
  destruct (open_set v) as [|[[k current] curr_path] rest]; [done|].
  destruct (log_progress goal current v) as [[]|] eqn:Hlog; [|done].
  destruct (State_eq current goal) eqn:Heq; [done|].
  destruct (available_actions (content current)) as [actions|] eqn:Hact; [|done].
  destruct (actions !! i) as [a|] eqn:Ha; [|done].
  destruct (mfoldl _ _ _ _) as [[v_i|] calls_i] eqn:Hfold; [|done].
  destruct (do_action_body (content current) a) as [g'|] eqn:Hdo; [|done].
  case_bool_decide as Hin; [|done].
  destruct (neighbor_test v_i current (mkState py_hash g')) as [[|]|] eqn:Htest;
    [|done..].
  intros [= <-]. by exists k, current, curr_path, rest, actions, a, v_i, calls_i, g'.
Qed.

(** The start state keeps its recorded length 0 through every round. *)
Lemma visit_start_len hs goal current curr_path (v : @vars K) a c v' c' :
  hs ∈ closed_set v ∧ past_len v !! hs = Some 0%nat →
  visit py_hash heuristic exp goal current curr_path v a c = (Ok v', c') →
  hs ∈ closed_set v' ∧ past_len v' !! hs = Some 0%nat.
Proof.
  intros [Hin Hlen] (g' & _ & _ & [[_ ->]|(h & Htest & _ & ->)])%visit_inv; [done|].
  simpl. split; [set_solver|].
  rewrite lookup_insert_ne; [done|]. intros Heq.
  apply neighbor_test_true in Htest as [Hnc|(pc & pn & _ & Hpn & Hlt)].
  - apply Hnc. simpl. by rewrite Heq.
  - simpl in Hpn. rewrite Heq, Hlen in Hpn. injection Hpn as <-. lia.
Qed.

Lemma visits_start_len hs goal current curr_path actions (v : @vars K) c v' c' :
  hs ∈ closed_set v ∧ past_len v !! hs = Some 0%nat →
  mfoldl (visit py_hash heuristic exp goal current curr_path) v actions c
    = (Ok v', c') →
  hs ∈ closed_set v' ∧ past_len v' !! hs = Some 0%nat.
Proof.
  intros Hv Hfold.
  eapply (mfoldl_inv (λ v, hs ∈ closed_set v ∧ past_len v !! hs = Some 0%nat));
    [|exact Hv|exact Hfold].
  intros. by eapply visit_start_len.
Qed.

Lemma after_turns_start_len hs goal turns (v : @vars K) c v' c' :
  hs ∈ closed_set v ∧ past_len v !! hs = Some 0%nat →
  after_turns py_hash heuristic exp turns goal v c = Some (v', c') →
  hs ∈ closed_set v' ∧ past_len v' !! hs = Some 0%nat.
Proof.
  revert v c. induction turns as [|turns IH]; intros v c Hv; simpl.
  - by intros [= <- <-].
  - destruct (astar_iter py_hash heuristic exp goal v c) as [[[r|v1]|e] c1] eqn:Hiter;
      [done| |done].
    apply IH.
    apply astar_iter_Continue in Hiter
      as (k & current & path & rest & actions & v2 & _ & _ & _ & _ & Hfold & ->).
    simpl. by eapply visits_start_len in Hfold.
Qed.
End Relax.

(** [C3] (as amended) During a run of astar, on any input grid, heuristic
    and exp, when a generated neighbor is already in the closed set and
    the condition past_len[current] + 1 < past_len[neighbor] holds — so
    that the neighbor is enqueued again — the neighbor is not the start
    state: the start state is never re-enqueued. *)
Theorem relax_never_start (py_hash : list Z → Z) {K : Type} {cost : Cost K}
    (heuristic : grid → grid → nat → pyexp → result K) (exp : pyexp)
    (state goal : grid) (turns : nat) (v : @vars K) (calls calls' : nat)
    (i : nat) (neighbor : State) :
  after_turns py_hash heuristic exp turns (mkState py_hash goal)
    (astar_init (mkState py_hash state)) calls = Some (v, calls') →
  relax_taken py_hash heuristic exp (mkState py_hash goal) v calls' i neighbor →
  State_eq neighbor (mkState py_hash state) = false.
Proof.
  intros Hturns Hrelax. apply bool_decide_eq_false. intros Heq.
  set (hs := hash (mkState py_hash state)) in *.
  assert (hs ∈ closed_set v ∧ past_len v !! hs = Some 0%nat) as Hv.
  { eapply after_turns_start_len; [|exact Hturns]. simpl. split; [set_solver|].
    apply lookup_singleton_eq. }
  destruct Hrelax as (k & current & path & rest & actions & a & v_i & calls_i & g'
                      & _ & _ & _ & _ & _ & Hfold & _ & _ & Hin & Htest).
  apply visits_start_len with (hs := hs) in Hfold as [_ Hlen]; [|done].
  apply neighbor_test_true in Htest as [Hnc|(pc & pn & _ & Hpn & Hlt)]; [done|].
  rewrite Heq, Hlen in Hpn. injection Hpn as <-. lia.
Qed.

(** Running [turns] turns and checking the [i]-th action of the next. *)
Lemma relax_probe (py_hash : list Z → Z) (e : Z) (state goal : grid)
    (turns i : nat) (g : grid) :
  match after_turns py_hash fixed (ExpInt e) turns (mkState py_hash goal)
          (astar_init (mkState py_hash state)) 0%nat with
  | Some (v, calls) =>
      content <$> relax_check py_hash fixed (ExpInt e) (mkState py_hash goal) v calls i
  | None => None
  end = Some g →
  ∃ v calls neighbor,
    after_turns py_hash fixed (ExpInt e) turns (mkState py_hash goal)
      (astar_init (mkState py_hash state)) 0%nat = Some (v, calls) ∧
    relax_taken py_hash fixed (ExpInt e) (mkState py_hash goal) v calls i neighbor ∧
    content neighbor = g.
Proof.
  destruct (after_turns _ _ _ _ _ _ _) as [[v calls]|]; [|done].
  destruct (relax_check _ _ _ _ _ _ _) as [neighbor|] eqn:Hcheck; [|done].
  intros [= <-]. exists v, calls, neighbor.
  split; [done|]. split; [by apply relax_check_sound | done].
Qed.

(** On the start grid [[1,0,2],[4,6,5],[7,8,3]] with fixed_heuristic and
    exp = 2, the turn after 19 complete turns expands [[1,0,6],[4,5,2],[7,8,3]],
    reached by a path of length 4; its first neighbour
    [[1,5,6],[4,0,2],[7,8,3]] is in the closed set with recorded length 7,
    and 4 + 1 < 7. *)
Lemma relax_example :
  ∃ v calls neighbor,
    after_turns injective_hash fixed (ExpInt 2) 19
      (mkState injective_hash (set_goal 3))
      (astar_init (mkState injective_hash [[1; 0; 2]; [4; 6; 5]; [7; 8; 3]])) 0%nat
      = Some (v, calls) ∧
    relax_taken injective_hash fixed (ExpInt 2)
      (mkState injective_hash (set_goal 3)) v calls 0 neighbor ∧
    content neighbor = [[1; 5; 6]; [4; 0; 2]; [7; 8; 3]].
Proof. apply relax_probe. vm_compute. reflexivity. Qed.

(** [C3] (counterexample) The second disjunct does re-enqueue a state of
    the closed set: with fixed_heuristic and exp = 2 on
    [[1,0,2],[4,6,5],[7,8,3]], in the turn after 19 complete turns, the
    first neighbour is in the closed set and the test holds.  The same
    happens when ties between equal costs are broken the other way
    round (hash negated). *)
Lemma relax_disjunct_fires :
  (∃ v calls neighbor,
     after_turns injective_hash fixed (ExpInt 2) 19
       (mkState injective_hash (set_goal 3))
       (astar_init (mkState injective_hash [[1; 0; 2]; [4; 6; 5]; [7; 8; 3]])) 0%nat
       = Some (v, calls) ∧
     relax_taken injective_hash fixed (ExpInt 2)
       (mkState injective_hash (set_goal 3)) v calls 0 neighbor) ∧
  (∃ v calls neighbor,
     after_turns (λ l, - injective_hash l) fixed (ExpInt 2) 19
       (mkState (λ l, - injective_hash l) (set_goal 3))
       (astar_init (mkState (λ l, - injective_hash l)
                      [[1; 0; 2]; [4; 6; 5]; [7; 8; 3]])) 0%nat
       = Some (v, calls) ∧
     relax_taken (λ l, - injective_hash l) fixed (ExpInt 2)
       (mkState (λ l, - injective_hash l) (set_goal 3)) v calls 0 neighbor).
Proof.
  split.
  - destruct relax_example as (v & calls & neighbor & Hturns & Hrelax & _).
    exists v, calls, neighbor. exact (conj Hturns Hrelax).
  - destruct (relax_probe (λ l, - injective_hash l) 2
                [[1; 0; 2]; [4; 6; 5]; [7; 8; 3]] (set_goal 3) 19 0
                [[1; 5; 6]; [4; 0; 2]; [7; 8; 3]])
      as (v & calls & neighbor & Hturns & Hrelax & _); [vm_compute; reflexivity|].
    exists v, calls, neighbor. exact (conj Hturns Hrelax).
Qed.

Lemma relax_never_start_witness :
  ∃ v calls neighbor,
    after_turns injective_hash fixed (ExpInt 2) 19
      (mkState injective_hash (set_goal 3))
      (astar_init (mkState injective_hash [[1; 0; 2]; [4; 6; 5]; [7; 8; 3]])) 0%nat
      = Some (v, calls) ∧
    relax_taken injective_hash fixed (ExpInt 2)
      (mkState injective_hash (set_goal 3)) v calls 0 neighbor ∧
    State_eq neighbor (mkState injective_hash [[1; 0; 2]; [4; 6; 5]; [7; 8; 3]]) = false.
Proof.
  destruct relax_example as (v & calls & neighbor & Hturns & Hrelax & _).
  exists v, calls, neighbor. split; [exact Hturns|]. split; [exact Hrelax|].
  exact (relax_never_start injective_hash fixed (ExpInt 2)
           [[1; 0; 2]; [4; 6; 5]; [7; 8; 3]] (set_goal 3) 19 v 0%nat calls 0 neighbor
           Hturns Hrelax).
Defined.

(** ** Malformed grids *)

Lemma manhattan_distance_cases state goal v :
  (∃ d, manhattan_distance state goal v 1 = Ok d) ∨
  manhattan_distance state goal v 1 = Raise "IndexError".
Proof.
  unfold manhattan_distance, get_pos.
  destruct (first_where_cases state v) as [[[x1 y1] ->] | ->]; [|by right].
  destruct (first_where_cases goal v) as [[[x2 y2] ->] | ->]; [|by right].
  left. simpl. unfold pow64. rewrite bool_decide_eq_false_2 by lia. by eexists.
Qed.

Lemma fixed_heuristic_missing state goal step exp t :
  t ∈ tiles state → t ∉ concat state →
  fixed_heuristic state goal step exp 1 = Raise "IndexError".
Proof.
  intros Ht Hmiss. unfold fixed_heuristic.
  rewrite (rmapM_Raise _ _ "IndexError"); [done| |].
  - apply Forall_forall. intros v _. apply manhattan_distance_cases.
  - apply Exists_exists. exists t. split; [done|].
    unfold manhattan_distance, get_pos. by rewrite (first_where_None state t Hmiss).
Qed.

Lemma astar_iter_log_raise (py_hash : list Z → Z) {K : Type} {cost : Cost K}
    (heuristic : grid → grid → nat → pyexp → result K) (exp : pyexp)
    goal (v : @vars K) c k current curr_path rest e :
  open_set v = (k, current, curr_path) :: rest →
  log_progress goal current v = Raise e →
  astar_iter py_hash heuristic exp goal v c = (Raise e, c).
Proof.
  intros Hopen Hlog. unfold astar_iter, heappop. rewrite Hopen.
  cbv beta iota zeta delta [mbind M_bind mlift]. by rewrite Hlog.
Qed.

Lemma astar_missing_tile (py_hash : list Z → Z) {K : Type} {cost : Cost K}
    (heuristic : grid → grid → nat → pyexp → result K) (exp : pyexp)
    (fuel : nat) (state goal : grid) (calls : nat) (t : Z) :
  t ∈ tiles state → t ∉ concat state →
  astar py_hash heuristic exp (S fuel) state goal calls = (Raise "IndexError", calls).
Proof.
  intros Ht Hmiss. unfold astar.
  cbn [astar_loop]. rewrite mbind_run.
  erewrite astar_iter_log_raise; [done|reflexivity|].
  unfold log_progress. rewrite bool_decide_eq_true_2 by done. cbn [content mkState].
  by rewrite (fixed_heuristic_missing state goal None (ExpInt 1) t Ht Hmiss).
Qed.

Lemma example_missing_tile :
  3 ∈ tiles [[1; 1]; [2; 0]] ∧ 3 ∉ concat [[1; 1]; [2; 0]].
Proof. split; apply (bool_decide_unpack _); vm_compute; exact I. Qed.

(** [C4] (as amended) A grid in which one of the tile values
    [1 .. N*N-1] is missing — in particular [[1,1],[2,0]] — is not
    validated; astar starts its loop and fails with IndexError, raised by
    get_pos while the first turn evaluates fixed_heuristic for the
    progress line, before any do_action call (the call counter is
    unchanged). *)
Theorem astar_missing_tile_IndexError (py_hash : list Z → Z) {K : Type} {cost : Cost K}
    (heuristic : grid → grid → nat → pyexp → result K) (exp : pyexp)
    (fuel : nat) (state goal : grid) (calls : nat) (t : Z) :
  t ∈ tiles state → t ∉ concat state →
  astar py_hash heuristic exp (S fuel) state goal calls = (Raise "IndexError", calls) ∧
  astar py_hash heuristic exp (S fuel) [[1; 1]; [2; 0]] goal calls
    = (Raise "IndexError", calls).
Proof.
  intros Ht Hmiss. split; [by eapply astar_missing_tile|].
  destruct example_missing_tile as [Ht3 Hmiss3].
  exact (astar_missing_tile _ _ _ _ _ _ _ 3 Ht3 Hmiss3).
Qed.

Lemma astar_missing_tile_IndexError_witness :
  (3 ∈ tiles [[1; 1]; [2; 0]]) ∧ (3 ∉ concat [[1; 1]; [2; 0]]) ∧
  astar injective_hash fixed (ExpInt 1) 1 [[1; 1]; [2; 0]] (set_goal 2) 0%nat
    = (Raise "IndexError", 0%nat) ∧
  astar injective_hash fixed (ExpInt 1) 1 [[1; 1]; [2; 0]] (set_goal 2) 0%nat
    = (Raise "IndexError", 0%nat).
Proof.
  destruct example_missing_tile as [Ht Hmiss].
  split; [exact Ht|]. split; [exact Hmiss|].
  exact (astar_missing_tile_IndexError injective_hash fixed (ExpInt 1) 0
           [[1; 1]; [2; 0]] (set_goal 2) 0%nat 3 Ht Hmiss).
Defined.

(** [C4] (counterexample) On [[1,1],[2,0]] the solver's first turn ends
    with IndexError, and it never reports InvalidGrid, however long it is
    left to run. *)
Lemma malformed_grid_not_InvalidGrid :
  astar injective_hash fixed (ExpInt 1) 1 [[1; 1]; [2; 0]] (set_goal 2) 0%nat
    = (Raise "IndexError", 0%nat) ∧
  ¬ ∃ fuel, (astar injective_hash fixed (ExpInt 1) fuel [[1; 1]; [2; 0]]
               (set_goal 2) 0%nat).1 = Raise "InvalidGrid".
Proof.
  destruct example_missing_tile as [Ht Hmiss].
  split; [exact (astar_missing_tile _ _ _ _ _ _ _ 3 Ht Hmiss)|].
  intros [[|fuel] Hf]; [discriminate Hf|].
  rewrite (astar_missing_tile _ _ _ _ _ _ _ 3 Ht Hmiss) in Hf.
  discriminate Hf.
Qed.

(** ** The actions offered at the blank *)

Lemma blank_at_first_where n g p :
  square n g → blank_at n g p → first_where g 0 = Ok p.
Proof.
  intros Hs (Hp & Hget & Huniq).
  apply (getitem_flat_eq n) in Hget; [|done..].
  destruct (first_where_total g 0) as [q Hq]; [by eapply list_elem_of_lookup_2|].
  destruct (first_where_Ok _ _ _ _ Hs Hq) as [Hqb Hqv].
  rewrite Hq. f_equal. apply Huniq; [done|]. by apply (getitem_flat_eq n).
Qed.

Lemma neighbours_in_order_length n p :
  (2 ≤ n)%nat → in_bounds n p →
  (corner n p → length (neighbours_in_order n p) = 2%nat) ∧
  (edge n p → length (neighbours_in_order n p) = 3%nat) ∧
  (interior n p → length (neighbours_in_order n p) = 4%nat).
Proof.
  intros Hn Hp. destruct p as [x y].
  unfold neighbours_in_order, corner, edge, interior, in_bounds in *. simpl in *.
  rewrite !filter_cons, filter_nil.
  repeat case_decide; unfold in_bounds in *; simpl in *;
    (split; [|split]); intros; try done; exfalso;
    unfold corner, interior in *; simpl in *; lia.
Qed.

(** [C6] (as amended) For every N×N grid with N ≥ 2 whose only 0 is at
    position p, available_actions returns the actions pairing p with each
    of its in-bounds orthogonal neighbours, in the order up, down, left,
    right: 2 actions when p is a corner, 3 when p is on an edge and not a
    corner, 4 when p is interior. *)
Theorem available_actions_by_position (n : nat) (g : grid) (p : pos) :
  (2 ≤ n)%nat → square n g → blank_at n g p →
  available_actions g = Ok (action p <$> neighbours_in_order n p) ∧
  (corner n p → length (action p <$> neighbours_in_order n p) = 2%nat) ∧
  (edge n p → length (action p <$> neighbours_in_order n p) = 3%nat) ∧
  (interior n p → length (action p <$> neighbours_in_order n p) = 4%nat).
Proof.
  intros Hn Hs Hb. split.
  - apply available_actions_at; [done|]. by apply (blank_at_first_where n).
  - rewrite length_fmap. apply neighbours_in_order_length; [done|]. by destruct Hb.
Qed.

Lemma example_blank_at : blank_at 2 [[1; 2]; [0; 3]] (1, 0).
Proof.
  split; [unfold in_bounds; simpl; lia|]. split; [done|].
  intros [x y] [Hx Hy] Hget. simpl in *.
  assert ((x = 0 ∨ x = 1) ∧ (y = 0 ∨ y = 1)) as [[-> | ->] [-> | ->]] by lia;
    done.
Qed.

Lemma available_actions_by_position_witness :
  (2 ≤ 2)%nat ∧ square 2 [[1; 2]; [0; 3]] ∧ blank_at 2 [[1; 2]; [0; 3]] (1, 0) ∧
  available_actions [[1; 2]; [0; 3]]
    = Ok (action (1, 0) <$> neighbours_in_order 2 (1, 0)) ∧
  (corner 2 (1, 0) →
   length (action (1, 0) <$> neighbours_in_order 2 (1, 0)) = 2%nat) ∧
  (edge 2 (1, 0) →
   length (action (1, 0) <$> neighbours_in_order 2 (1, 0)) = 3%nat) ∧
  (interior 2 (1, 0) →
   length (action (1, 0) <$> neighbours_in_order 2 (1, 0)) = 4%nat).
Proof.
  split; [lia|]. split; [exact (proj1 example_start_valid)|].
  split; [exact example_blank_at|].
  exact (available_actions_by_position 2 [[1; 2]; [0; 3]] (1, 0) ltac:(lia)
           (proj1 example_start_valid) example_blank_at).
Defined.

(** [C6] (counterexample) In the 1×1 grid [[0]] the blank is at a
    corner, and available_actions returns no action at all. *)
Lemma available_actions_1x1 :
  square 1 [[0]] ∧ blank_at 1 [[0]] (0, 0) ∧ corner 1 (0, 0) ∧
  available_actions [[0]] = Ok [].
Proof.
  split; [split; [done | by repeat constructor]|].
  split; [|split; [unfold corner; simpl; lia | done]].
  split; [unfold in_bounds; simpl; lia|]. split; [done|].
  intros [x y] [Hx Hy] _. simpl in *. f_equal; lia.
Qed.

(** [C9] For every N×N grid containing a 0, in every Action that
    available_actions returns the first component pos1 is the position of
    the blank (the first 0 in row-major order, where the grid holds 0) and
    the second component pos2 is the position of a neighbouring cell: in
    bounds, one step away from pos1 along a row or a column. *)
Theorem available_actions_blank_first (n : nat) (g : grid) :
  square n g → 0 ∈ concat g →
  ∃ actions p,
    available_actions g = Ok actions ∧
    first_where g 0 = Ok p ∧ getitem g p = Ok 0 ∧
    ∀ a, a ∈ actions →
      pos1 a = p ∧ in_bounds n (pos2 a) ∧ adjacent (pos1 a) (pos2 a) ∧
      pos2 a ≠ pos1 a.
Proof.
  intros Hs H0. destruct (first_where_total g 0 H0) as [p Hp].
  destruct (first_where_Ok _ _ _ _ Hs Hp) as [Hpb Hpv].
  exists (action p <$> neighbours_in_order n p), p.
  split; [by apply available_actions_at|]. split; [done|].
  split; [by apply (getitem_flat_eq n)|].
  intros a Ha.
  destruct (available_actions_elem n g p a Hs Hp Ha) as (H1 & _ & H2 & Hadj).
  split; [done|]. split; [done|]. split; [done|].
  intros Heq. by apply (adjacent_ne _ _ Hadj).
Qed.

Lemma available_actions_blank_first_witness :
  square 2 [[1; 2]; [0; 3]] ∧ 0 ∈ concat [[1; 2]; [0; 3]] ∧
  ∃ actions p,
    available_actions [[1; 2]; [0; 3]] = Ok actions ∧
    first_where [[1; 2]; [0; 3]] 0 = Ok p ∧ getitem [[1; 2]; [0; 3]] p = Ok 0 ∧
    ∀ a, a ∈ actions →
      pos1 a = p ∧ in_bounds 2 (pos2 a) ∧ adjacent (pos1 a) (pos2 a) ∧
      pos2 a ≠ pos1 a.
Proof.
  assert (0 ∈ concat [[1; 2]; [0; 3]]) as H0
    by (apply (bool_decide_unpack _); vm_compute; exact I).
  split; [exact (proj1 example_start_valid)|]. split; [exact H0|].
  exact (available_actions_blank_first 2 [[1; 2]; [0; 3]]
           (proj1 example_start_valid) H0).
Defined.

(** ** do_action works on a copy *)

Lemma swap_pos_in_bounds n a b p :
  in_bounds n a → in_bounds n b → in_bounds n p → in_bounds n (swap_pos a b p).
Proof. intros. unfold swap_pos. by repeat case_decide. Qed.

Lemma do_action_body_getitem n g a g' :
  square n g → in_bounds n (pos1 a) → in_bounds n (pos2 a) →
  do_action_body g a = Ok g' →
  square n g' ∧
  ∀ p, in_bounds n p → getitem g' p = getitem g (swap_pos (pos1 a) (pos2 a) p).
Proof.
  intros Hs H1 H2 Hdo.
  destruct (do_action_body_flat n g a Hs H1 H2) as (g'' & x & y & Hx & Hy & Hdo' & Hs' & Hc).
  rewrite Hdo in Hdo'. injection Hdo' as <-. split; [done|].
  intros p Hp.
  pose proof (swap_pos_in_bounds n _ _ p H1 H2 Hp) as Hsp.
  destruct (getitem_flat n g' p Hs' Hp) as (v' & Hv' & ->).
  destruct (getitem_flat n g _ Hs Hsp) as (v & Hv & ->). f_equal.
  pose proof (flat_lt _ _ H1) as Hlt1. pose proof (flat_lt _ _ H2) as Hlt2.
  pose proof (square_length_concat _ _ Hs) as Hlen.
  rewrite Hc in Hv'. unfold swap_pos in Hv. repeat case_decide; subst.
  - rewrite Hy in Hv. injection Hv as <-.
    destruct (decide (flat n (pos1 a) = flat n (pos2 a))) as [Heq|Hne].
    + rewrite Heq in Hv', Hx. rewrite list_lookup_insert_eq in Hv'
        by (rewrite length_insert; lia). congruence.
    + rewrite list_lookup_insert_ne in Hv' by done.
      rewrite list_lookup_insert_eq in Hv' by lia. congruence.
  - rewrite list_lookup_insert_eq in Hv' by (rewrite length_insert; lia). congruence.
  - rewrite !list_lookup_insert_ne in Hv'; [congruence| |];
      intros Heq; apply (flat_inj n) in Heq; done.
Qed.

Lemma do_action_body_steps g a g' :
  do_action_body g a = Ok g' →
  ∃ x y g1, getitem g (pos2 a) = Ok y ∧ getitem g (pos1 a) = Ok x ∧
            setitem g (pos1 a) y = Ok g1 ∧ setitem g1 (pos2 a) x = Ok g'.
Proof.
  unfold do_action_body.
  intros (y & Hy & (x & Hx & (g1 & H1 & (g2 & H2 & [= <-])%rbind_Ok)%rbind_Ok)%rbind_Ok)%rbind_Ok.
  by exists x, y, g1.
Qed.

(** [C7] For every (N×N) grid and every Action with in-bounds positions,
    do_action returns a new array — an object that did not exist before —
    equal to the input grid with the two referenced cells swapped, and the
    input array is unchanged after the call: it still holds the grid it
    held before. *)
Theorem do_action_copies (σ : gmap nat grid) (state : nat) (g : grid)
    (n : nat) (a : Action) :
  σ !! state = Some g → square n g →
  in_bounds n (pos1 a) → in_bounds n (pos2 a) →
  ∃ new_state g',
    Store.do_action state a σ = (Ok new_state, <[new_state := g']> σ) ∧
    σ !! new_state = None ∧
    (<[new_state := g']> σ) !! state = Some g ∧
    do_action_body g a = Ok g' ∧ square n g' ∧
    ∀ p, in_bounds n p → getitem g' p = getitem g (swap_pos (pos1 a) (pos2 a) p).
Proof.
  intros Hσ Hs H1 H2.
  destruct (do_action_body_flat n g a Hs H1 H2) as (g' & _ & _ & _ & _ & Hdo & _ & _).
  destruct (do_action_body_getitem n g a g' Hs H1 H2 Hdo) as [Hs' Hcells].
  destruct (do_action_body_steps g a g' Hdo) as (x & y & g1 & Hy & Hx & Hset1 & Hset2).
  set (l' := fresh (dom σ)).
  assert (σ !! l' = None) as Hfresh.
  { apply not_elem_of_dom. apply is_fresh. }
  exists l', g'. split; [|split; [done|split; [|done]]].
  - unfold Store.do_action, Store.sbind, Store.np_copy. rewrite Hσ. fold l'.
    unfold Store.np_getitem. rewrite !lookup_insert_eq, Hy, Hx.
    unfold Store.np_setitem. rewrite lookup_insert_eq, Hset1.
    rewrite lookup_insert_eq, Hset2. by rewrite !insert_insert_eq.
  - rewrite lookup_insert_ne; [done|]. intros <-. congruence.
Qed.

Lemma do_action_copies_witness :
  ({[ 0%nat := [[1; 2]; [0; 3]] ]} : gmap nat grid) !! 0%nat = Some [[1; 2]; [0; 3]] ∧
  square 2 [[1; 2]; [0; 3]] ∧
  in_bounds 2 (1, 0) ∧ in_bounds 2 (1, 1) ∧
  ∃ new_state g',
    Store.do_action 0%nat (action (1, 0) (1, 1)) {[ 0%nat := [[1; 2]; [0; 3]] ]}
      = (Ok new_state, <[new_state := g']> {[ 0%nat := [[1; 2]; [0; 3]] ]}) ∧
    ({[ 0%nat := [[1; 2]; [0; 3]] ]} : gmap nat grid) !! new_state = None ∧
    (<[new_state := g']> ({[ 0%nat := [[1; 2]; [0; 3]] ]} : gmap nat grid)) !! 0%nat
      = Some [[1; 2]; [0; 3]] ∧
    do_action_body [[1; 2]; [0; 3]] (action (1, 0) (1, 1)) = Ok g' ∧ square 2 g' ∧
    ∀ p, in_bounds 2 p →
      getitem g' p = getitem [[1; 2]; [0; 3]] (swap_pos (1, 0) (1, 1) p).
Proof.
  assert (in_bounds 2 (1, 0)) as H1 by (unfold in_bounds; simpl; lia).
  assert (in_bounds 2 (1, 1)) as H2 by (unfold in_bounds; simpl; lia).
  split; [apply lookup_singleton_eq|]. split; [exact (proj1 example_start_valid)|].
  split; [exact H1|]. split; [exact H2|].
  exact (do_action_copies {[ 0%nat := [[1; 2]; [0; 3]] ]} 0%nat [[1; 2]; [0; 3]] 2
           (action (1, 0) (1, 1)) (lookup_singleton_eq _ _)
           (proj1 example_start_valid) H1 H2).
Defined.

(** ** fixed_heuristic without an exponent *)

(** [C10] fixed_heuristic always raises when it is called with exp unset
    (None): a TypeError from the final power, unless computing the
    distances raised before; it never falls back to the exponent 1.  The
    two scheduled heuristics ignore exp, and return a value with exp unset
    whenever the distances can be computed. *)
Theorem fixed_heuristic_unset_exp (float : Type) (float_of_int : Z → float)
    (fadd fdiv fpow : float → float → float) (fltb : float → float → bool)
    (arctan : float → float)
    (state goal : grid) (step : option nat) (p : Z) (step' : nat) (exp : pyexp) :
  fixed_heuristic state goal step ExpNone p =
    match rmapM (λ v, manhattan_distance state goal v p) (tiles state) with
    | Ok _ => Raise "TypeError"
    | Raise e => Raise e
    end ∧
  (∃ e, fixed_heuristic state goal step ExpNone p = Raise e) ∧
  step_scheduling_heuristic float float_of_int fadd fdiv fpow fltb state goal step' exp
    = step_scheduling_heuristic float float_of_int fadd fdiv fpow fltb state goal step' ExpNone ∧
  arctan_scheduling_heuristic float float_of_int fadd fdiv fpow arctan state goal step' exp
    = arctan_scheduling_heuristic float float_of_int fadd fdiv fpow arctan state goal step' ExpNone ∧
  match rmapM (λ v, manhattan_distance state goal v 1) (tiles state) with
  | Ok _ =>
      (∃ r, step_scheduling_heuristic float float_of_int fadd fdiv fpow fltb
              state goal step' ExpNone = Ok r) ∧
      (∃ r, arctan_scheduling_heuristic float float_of_int fadd fdiv fpow arctan
              state goal step' ExpNone = Ok r)
  | Raise e =>
      step_scheduling_heuristic float float_of_int fadd fdiv fpow fltb
        state goal step' ExpNone = Raise e ∧
      arctan_scheduling_heuristic float float_of_int fadd fdiv fpow arctan
        state goal step' ExpNone = Raise e
  end.
Proof.
  split; [|split; [|split; [done|split; [done|]]]].
  - unfold fixed_heuristic. by destruct (rmapM _ _).
  - unfold fixed_heuristic. destruct (rmapM _ _); simpl; by eexists.
  - unfold step_scheduling_heuristic, arctan_scheduling_heuristic.
    destruct (rmapM _ _) as [ds|e]; simpl; [|done].
    split; [|by eexists].
    destruct (fltb _ _); [|by eexists]. destruct ds; by eexists.
Qed.

(** ** A goal one move away *)

Section RecordedOnce.
Variable py_hash : list Z → Z.
Context {K : Type} {cost : Cost K}.
Variable heuristic : grid → grid → nat → pyexp → result K.
Variable exp : pyexp.

(** A key recorded with length 1 is never pushed again. *)
Lemma visit_recorded_once k path goal current curr_path (v : @vars K) a c v' c' :
  closed_set v = dom (past_len v) ∧ recorded_once k path v →
  visit py_hash heuristic exp goal current curr_path v a c = (Ok v', c') →
  closed_set v' = dom (past_len v') ∧ recorded_once k path v'.
Proof.
  intros [Hdom [Hlen Hitems]] (g' & _ & _ & [[_ ->]|(h & Htest & _ & ->)])%visit_inv;
    [done|].
  assert (hash (mkState py_hash g') ≠ k) as Hne.
  { intros Heq. apply neighbor_test_true in Htest as [Hnc|(pc & pn & _ & Hpn & Hlt)].
    - apply Hnc. rewrite Heq, Hdom. apply elem_of_dom. by eexists.
    - rewrite Heq, Hlen in Hpn. injection Hpn as <-. lia. }
  simpl. split; [by rewrite dom_insert_L, Hdom|]. split; simpl.
  - by rewrite lookup_insert_ne.
  - intros e [->|He]%elem_of_heappush Hk; [done | by apply Hitems].
Qed.

Lemma astar_iter_recorded_once k path goal (v : @vars K) c v' c' :
  closed_set v = dom (past_len v) → recorded_once k path v →
  astar_iter py_hash heuristic exp goal v c = (Ok (Continue v'), c') →
  recorded_once k path v'.
Proof.
  intros Hdom [Hlen Hitems] Hiter.
  apply astar_iter_Continue in Hiter
    as (k0 & current & curr_path & rest & actions & v1 & Hopen & _ & _ & _ & Hfold & ->).
  eapply (mfoldl_inv (λ v, closed_set v = dom (past_len v) ∧ recorded_once k path v))
    in Hfold as [_ [Hlen1 Hitems1]].
  - by split.
  - intros. by eapply visit_recorded_once.
  - split; [done|]. split; [done|]. simpl. intros e He. apply Hitems.
    rewrite Hopen. by apply list_elem_of_further.
Qed.
(** An item whose state has the hash of the goal stays in the heap for
    as long as the loop goes on. *)
Lemma astar_iter_pending goal (v : @vars K) c v' c' :
  pending (open_set v) (hash goal) →
  astar_iter py_hash heuristic exp goal v c = (Ok (Continue v'), c') →
  pending (open_set v') (hash goal).
Proof.
  intros (e & He & Hk) Hiter.
  apply astar_iter_Continue in Hiter
    as (k0 & current & curr_path & rest & actions & v1 & Hopen & _ & Heq & _ & Hfold & ->).
  apply bool_decide_eq_false in Heq.
  exists e. split; [|done]. cbn [open_set].
  eapply (mfoldl_inv (λ s, e ∈ open_set s)); [| |exact Hfold].
  - intros s a c0 s' c0' _ Hs Hvis.
    apply visit_inv in Hvis as (g' & _ & _ & [[_ ->]|(h & _ & _ & ->)]); [done|].
    cbn [open_set]. apply elem_of_heappush. by right.
  - cbn [open_set]. rewrite Hopen in He.
    apply elem_of_cons in He as [->|He]; [|done].
    by destruct Heq.
Qed.
End RecordedOnce.

Section OneMove.
Variable py_hash : list Z → Z.
Context {K : Type} {cost : Cost K}.
Variable heuristic : grid → grid → nat → pyexp → result K.
Variable exp : pyexp.

Local Abbreviation start := [[1; 2]; [0; 3]].
Local Abbreviation goal := [[1; 2]; [3; 0]].
Local Abbreviation other := [[0; 2]; [1; 3]].
Local Abbreviation key := (key py_hash).
Local Abbreviation gs := (mkState py_hash goal).
Local Abbreviation init := (astar_init (mkState py_hash start)).

(** The goal shares its hash neither with the start grid nor with the
    other neighbour of the start grid. *)
Hypothesis start_goal : key goal ≠ key start.
Hypothesis other_goal : key goal ≠ key other.
Hypothesis heuristic_total :
  ∀ g step, valid_grid 2 g → ∃ k, heuristic g goal step exp = Ok k.

(** The first turn pushes the goal with the path of one action. *)
Lemma first_turn_records_goal c v' c' :
  astar_iter py_hash heuristic exp gs init c = (Ok (Continue v'), c') →
  recorded_once (key goal) [action (1, 0) (1, 1)] v' ∧
  pending (open_set v') (key goal).
Proof using start_goal other_goal.
  intros Hiter.
  apply astar_iter_Continue in Hiter
    as (k0 & current & curr_path & rest & actions & v1 & Hopen & _ & _ & Hact & Hfold & ->).
  injection Hopen as <- <- <- <-.
  change (available_actions (content (mkState py_hash start)))
    with (Ok [action (1, 0) (0, 0); action (1, 0) (1, 1)]) in Hact.
  injection Hact as <-.
  simpl in Hfold.
  apply mbind_Ok in Hfold as (va & c1 & Hva & Hfold).
  apply mbind_Ok in Hfold as (vb & c2 & Hvb & Hfold).
  apply mret_Ok in Hfold as [-> ->].
  apply visit_inv in Hva as (g1 & Hdo1 & _ & Hva).
  change (do_action_body (content (mkState py_hash start)) (action (1, 0) (0, 0)))
    with (Ok other) in Hdo1.
  injection Hdo1 as <-.
  apply visit_inv in Hvb as (g2 & Hdo2 & _ & Hvb).
  change (do_action_body (content (mkState py_hash start)) (action (1, 0) (1, 1)))
    with (Ok goal) in Hdo2.
  injection Hdo2 as <-.
  assert (hash (mkState py_hash goal) ∉ closed_set va) as Hfresh.
  { destruct Hva as [[_ ->]|(h1 & _ & _ & ->)]; cbn [closed_set astar_init hash mkState].
    - by apply not_elem_of_singleton.
    - apply not_elem_of_union. split; by apply not_elem_of_singleton. }
  destruct Hvb as [[Hf _]|(h2 & _ & _ & ->)].
  { exfalso. unfold neighbor_test in Hf. by rewrite bool_decide_eq_true_2 in Hf. }
  cbn [open_set past_len closed_set steps]. split; [split|].
  - apply lookup_insert_eq.
  - intros e [->|He]%elem_of_heappush Hk; [done|].
    destruct Hva as [[_ ->]|(h1 & _ & _ & ->)]; cbn [open_set] in He.
    + by apply elem_of_nil in He.
    + apply elem_of_heappush in He as [->|He%elem_of_nil]; [|done].
      by destruct other_goal.
  - eexists. split; [apply elem_of_heappush; by left|done].
Qed.

Lemma astar_one_move_finds c :
  ∃ fuel c',
    astar py_hash heuristic exp fuel start goal c
      = (Ok (Some (true, [action (1, 0) (1, 1)])), c').
Proof using All.
  pose (Q := λ (v : @vars K) (_ : nat),
          v = init ∨
          (recorded_once (key goal) [action (1, 0) (1, 1)] v ∧
           pending (open_set v) (key goal))).
  assert (search_inv py_hash (λ _, False) start goal None init) as Hinit.
  { eapply astar_init_holds; eauto using example_start_valid, example_goal_valid. }
  destruct (astar_loop_stops py_hash heuristic exp 2 start goal
              example_start_valid example_goal_valid heuristic_total Q) with
    (v := init) (c := c)
    as (fuel & c' & vf & _ & HQ & Hend); [|exact Hinit|by left|].
  { intros v c0 v' c0' Hinv [->|[Hrec Hpend]] Hiter; right.
    - by eapply first_turn_records_goal.
    - split.
      + eapply astar_iter_recorded_once; [|exact Hrec|exact Hiter]. by destruct Hinv.
      + by eapply (astar_iter_pending py_hash heuristic exp gs). }
  exists fuel, c'. unfold astar.
  destruct Hend as [(path & k & current & rest & Hrun & _ & Hopen & Hgoal)|[_ Hopen]].
  - rewrite Hrun.
    assert (path = [action (1, 0) (1, 1)]) as ->; [|done].
    destruct HQ as [->|[[_ Hitems] _]].
    + injection Hopen as <- <- <- <-. by destruct start_goal.
    + apply (Hitems (k, current, path)); [|done]. rewrite Hopen. apply list_elem_of_here.
  - exfalso. destruct HQ as [->|[_ (e & He & _)]].
    + discriminate Hopen.
    + rewrite Hopen in He. by apply elem_of_nil in He.
Qed.
End OneMove.

(** [C5] (as amended) On start = [[1,2],[0,3]] and goal = [[1,2],[3,0]],
    astar returns success = True and a path of exactly one Action, the
    one that swaps positions (1,0) and (1,1), provided the hash of the
    goal differs from the hash of the start grid and from the hash of
    [[0,2],[1,3]], the other neighbour of the start grid — with any
    heuristic that returns a number on the valid 2×2 grids (whatever the
    type of that number and whatever exp), which covers fixed_heuristic
    with an exponent ≥ 0 and the two scheduled heuristics.  Collisions
    between other grids do not matter. *)
Theorem astar_one_move (py_hash : list Z → Z) {K : Type} {cost : Cost K}
    (heuristic : grid → grid → nat → pyexp → result K) (exp : pyexp) (calls : nat) :
  py_hash (tobytes [[1; 2]; [3; 0]]) ≠ py_hash (tobytes [[1; 2]; [0; 3]]) →
  py_hash (tobytes [[1; 2]; [3; 0]]) ≠ py_hash (tobytes [[0; 2]; [1; 3]]) →
  (∀ g step, valid_grid 2 g → ∃ k, heuristic g [[1; 2]; [3; 0]] step exp = Ok k) →
  ∃ fuel calls',
    ∀ fuel', (fuel ≤ fuel')%nat →
      astar py_hash heuristic exp fuel' [[1; 2]; [0; 3]] [[1; 2]; [3; 0]] calls
        = (Ok (Some (true, [action (1, 0) (1, 1)])), calls').
Proof.
  intros Hstart Hother Hheur.
  destruct (astar_one_move_finds py_hash heuristic exp Hstart Hother Hheur calls)
    as (fuel & calls' & Hrun).
  exists fuel, calls'. intros fuel' Hle. unfold astar in *.
  by eapply astar_loop_more_fuel.
Qed.

Lemma astar_one_move_witness :
  hash16 (tobytes [[1; 2]; [3; 0]]) ≠ hash16 (tobytes [[1; 2]; [0; 3]]) ∧
  hash16 (tobytes [[1; 2]; [3; 0]]) ≠ hash16 (tobytes [[0; 2]; [1; 3]]) ∧
  (∀ g (step : nat), valid_grid 2 g →
     ∃ k, fixed g [[1; 2]; [3; 0]] step (ExpInt 1) = Ok k) ∧
  ∃ fuel calls',
    ∀ fuel', (fuel ≤ fuel')%nat →
      astar hash16 fixed (ExpInt 1) fuel' [[1; 2]; [0; 3]] [[1; 2]; [3; 0]] 0%nat
        = (Ok (Some (true, [action (1, 0) (1, 1)])), calls').
Proof.
  assert (hash16 (tobytes [[1; 2]; [3; 0]]) ≠ hash16 (tobytes [[1; 2]; [0; 3]])) as H1
    by (vm_compute; discriminate).
  assert (hash16 (tobytes [[1; 2]; [3; 0]]) ≠ hash16 (tobytes [[0; 2]; [1; 3]])) as H2
    by (vm_compute; discriminate).
  split; [exact H1|]. split; [exact H2|].
  split; [exact (fixed_total 2 [[1; 2]; [3; 0]] 1 example_goal_valid ltac:(lia))|].
  exact (astar_one_move hash16 fixed (ExpInt 1) 0%nat H1 H2
           (fixed_total 2 [[1; 2]; [3; 0]] 1 example_goal_valid ltac:(lia))).
Defined.

(** [C5] (counterexample) Under a 64-bit hash that gives [[0,2],[1,3]],
    the first neighbour of the start grid, the hash of the goal, astar
    returns the one action that swaps (1,0) and (0,0): the state it pops
    in its second turn compares equal to the goal.  Under a hash that
    gives the start grid the hash of the goal it returns the empty
    path. *)
Lemma astar_one_move_collision :
  astar (hash16_colliding [0; 2; 1; 3] [1; 2; 3; 0]) fixed (ExpInt 1) 2
    [[1; 2]; [0; 3]] [[1; 2]; [3; 0]] 0%nat
    = (Ok (Some (true, [action (1, 0) (0, 0)])), 2%nat) ∧
  astar (hash16_colliding [1; 2; 0; 3] [1; 2; 3; 0]) fixed (ExpInt 1) 2
    [[1; 2]; [0; 3]] [[1; 2]; [3; 0]] 0%nat
    = (Ok (Some (true, [])), 0%nat).
Proof. split; vm_compute; reflexivity. Qed.

(** The three heuristics of the notebook return a number on valid grids. *)
Lemma scheduled_total (float : Type) (float_of_int : Z → float)
    (fadd fdiv fpow : float → float → float) (fltb : float → float → bool)
    (arctan : float → float) (n : nat) (goal : grid) (exp : pyexp) :
  valid_grid n goal →
  ∀ g (step : nat), valid_grid n g →
    (∃ k, step_scheduling_heuristic float float_of_int fadd fdiv fpow fltb
            g goal step exp = Ok k) ∧
    (∃ k, arctan_scheduling_heuristic float float_of_int fadd fdiv fpow arctan
            g goal step exp = Ok k).
Proof.
  intros Hgoal g step Hg.
  unfold step_scheduling_heuristic, arctan_scheduling_heuristic.
  destruct (rmapM_total (λ v, manhattan_distance g goal v 1) (tiles g)) as [ds ->].
  { apply Forall_forall. intros v Hv.
    apply (manhattan_distance_total n); [done..| |done].
    destruct Hg as [Hs _]. pose proof (tiles_range _ _ _ Hs Hv). lia. }
  simpl. split; [|by eexists].
  destruct (fltb _ _); [|by eexists]. destruct ds; by eexists.
Qed.

(** * Further properties of the notebook's functions *)

(** ** Undoing an action *)

Lemma do_action_body_twice n g a g' :
  square n g → in_bounds n (pos1 a) → in_bounds n (pos2 a) →
  do_action_body g a = Ok g' →
  square n g' ∧ do_action_body g' a = Ok g.
Proof.
  intros Hs H1 H2 Hdo.
  destruct (do_action_body_flat n g a Hs H1 H2) as (g1 & x & y & Hx & Hy & Hdo1 & Hs1 & Hc1).
  rewrite Hdo in Hdo1. injection Hdo1 as <-. split; [done|].
  destruct (do_action_body_flat n g' a Hs1 H1 H2) as (g2 & x' & y' & Hx' & Hy' & -> & Hs2 & Hc2).
  f_equal.
  apply (rows_concat_inj n); [apply Hs2|apply Hs|by rewrite (proj1 Hs), (proj1 Hs2)|].
  rewrite Hc2, Hc1. rewrite Hc1 in Hx', Hy'.
  pose proof (lookup_lt_Some _ _ _ Hx) as Hlt1.
  pose proof (lookup_lt_Some _ _ _ Hy) as Hlt2.
  apply list_eq. intros i.
  destruct (decide (flat n (pos1 a) = flat n (pos2 a))) as [Heq|Hne].
  - rewrite Heq in *. rewrite Hx in Hy. injection Hy as ->.
    rewrite list_lookup_insert_eq in Hx', Hy' by (rewrite ?length_insert; lia).
    injection Hx' as <-. injection Hy' as <-.
    destruct (decide (i = flat n (pos2 a))) as [->|Hi].
    + rewrite list_lookup_insert_eq by (rewrite ?length_insert; lia). done.
    + by rewrite !list_lookup_insert_ne.
  - rewrite list_lookup_insert_eq in Hy' by (rewrite ?length_insert; lia).
    rewrite list_lookup_insert_ne, list_lookup_insert_eq in Hx' by (done || lia).
    injection Hx' as <-. injection Hy' as <-.
    destruct (decide (i = flat n (pos2 a))) as [->|Hi2].
    + rewrite list_lookup_insert_eq by (rewrite ?length_insert; lia). done.
    + rewrite list_lookup_insert_ne by done.
      destruct (decide (i = flat n (pos1 a))) as [->|Hi1].
      * rewrite list_lookup_insert_eq by (rewrite ?length_insert; lia). done.
      * by rewrite !list_lookup_insert_ne.
Qed.

Lemma do_action_body_flip n g a :
  square n g → in_bounds n (pos1 a) → in_bounds n (pos2 a) →
  do_action_body g (flip_action a) = do_action_body g a.
Proof.
  intros Hs H1 H2.
  destruct (do_action_body_flat n g a Hs H1 H2) as (g1 & x & y & Hx & Hy & -> & Hs1 & Hc1).
  destruct (do_action_body_flat n g (flip_action a) Hs H2 H1)
    as (g2 & y' & x' & Hy' & Hx' & -> & Hs2 & Hc2).
  simpl in *. rewrite Hx in Hx'. rewrite Hy in Hy'.
  injection Hx' as <-. injection Hy' as <-. f_equal.
  apply (rows_concat_inj n); [apply Hs2|apply Hs1|by rewrite (proj1 Hs1), (proj1 Hs2)|].
  rewrite Hc2, Hc1.
  destruct (decide (flat n (pos1 a) = flat n (pos2 a))) as [Heq|Hne].
  - rewrite Heq in *. rewrite Hx in Hy. by injection Hy as ->.
  - by apply list_insert_insert_ne.
Qed.

Lemma example_square : square 2 [[1; 2]; [0; 3]].
Proof. split; [done | by repeat constructor]. Qed.

(** [X1] Applying the same action twice gives back the grid: on a square
    grid and for in-bounds positions, do_action returns a grid on which
    do_action with the same action returns the first grid again (two calls
    are counted); the action with pos1 and pos2 exchanged has the same
    effect as the action itself. *)
Theorem do_action_twice (n : nat) (g : grid) (a : Action) (calls : nat) :
  square n g → in_bounds n (pos1 a) → in_bounds n (pos2 a) →
  ∃ g', do_action g a calls = (Ok g', S calls) ∧
        do_action g' a (S calls) = (Ok g, S (S calls)) ∧
        replay g [a; a] calls = (Ok g, S (S calls)) ∧
        do_action g (flip_action a) calls = (Ok g', S calls).
Proof.
  intros Hs H1 H2.
  destruct (do_action_body_flat n g a Hs H1 H2) as (g' & x & y & _ & _ & Hdo & _ & _).
  destruct (do_action_body_twice n g a g' Hs H1 H2 Hdo) as [Hs' Hback].
  assert (do_action g a calls = (Ok g', S calls)) as E1.
  { unfold do_action. by rewrite Hdo. }
  assert (do_action g' a (S calls) = (Ok g, S (S calls))) as E2.
  { unfold do_action. by rewrite Hback. }
  exists g'. split; [done|]. split; [done|]. split.
  - unfold replay. cbn [mfoldl]. by rewrite mbind_run, E1, mbind_run, E2.
  - unfold do_action. by rewrite (do_action_body_flip n g a Hs H1 H2), Hdo.
Qed.

Lemma do_action_twice_witness :
  square 2 [[1; 2]; [0; 3]] ∧ in_bounds 2 (1, 0) ∧ in_bounds 2 (1, 1) ∧
  ∃ g', do_action [[1; 2]; [0; 3]] (action (1, 0) (1, 1)) 0%nat = (Ok g', 1%nat) ∧
        do_action g' (action (1, 0) (1, 1)) 1%nat = (Ok [[1; 2]; [0; 3]], 2%nat) ∧
        replay [[1; 2]; [0; 3]] [action (1, 0) (1, 1); action (1, 0) (1, 1)] 0%nat
          = (Ok [[1; 2]; [0; 3]], 2%nat) ∧
        do_action [[1; 2]; [0; 3]] (flip_action (action (1, 0) (1, 1))) 0%nat
          = (Ok g', 1%nat).
Proof.
  split; [exact example_square|].
  split; [unfold in_bounds; simpl; lia|]. split; [unfold in_bounds; simpl; lia|].
  exact (do_action_twice 2 [[1; 2]; [0; 3]] (action (1, 0) (1, 1)) 0%nat
           example_square ltac:(unfold in_bounds; simpl; lia)
           ltac:(unfold in_bounds; simpl; lia)).
Defined.

(** ** Legal moves can be undone *)

Lemma adjacent_sym p q : adjacent p q → adjacent q p.
Proof. unfold adjacent. lia. Qed.

Lemma move_reverse n g a g' :
  valid_grid n g → move g a g' → move g' (flip_action a) g.
Proof.
  intros Hv Hm. pose proof (move_valid _ _ _ _ Hv Hm) as Hv'.
  destruct (move_positions n g a g' Hv Hm)
    as (w & _ & Hb1 & Hb2 & Hadj & _ & Hblank' & _).
  destruct Hm as (_ & _ & _ & Hdo).
  pose proof Hv as [Hs _]. pose proof Hv' as [Hs' _].
  exists (action (pos2 a) <$> neighbours_in_order n (pos2 a)).
  split; [by apply available_actions_at|]. split.
  - apply list_elem_of_fmap. exists (pos1 a). split; [done|].
    apply neighbours_in_order_spec; [done|]. split; [done|by apply adjacent_sym].
  - destruct (do_action_body_twice n g a g' Hs Hb1 Hb2 Hdo) as [_ Hback].
    by rewrite (do_action_body_flip n g' a Hs' Hb1 Hb2).
Qed.

Lemma moves_cons g a g1 p g2 :
  move g a g1 → moves g1 p g2 → moves g (a :: p) g2.
Proof.
  intros Hm Hp. induction Hp as [g1|g1 p g2 b g3 Hp IH Hb].
  - by apply (moves_snoc g [] g a g1 (moves_nil g)).
  - apply (moves_snoc g (a :: p) g2 b g3); [by apply IH|done].
Qed.

Lemma moves_reverse n g p g' :
  valid_grid n g → moves g p g' → moves g' (reverse_path p) g.
Proof.
  intros Hv Hp. induction Hp as [g|g p g1 a g2 Hp IH Hm].
  - apply moves_nil.
  - unfold reverse_path. rewrite fmap_app, reverse_app. simpl.
    pose proof (moves_valid _ _ _ _ Hv Hp) as Hv1.
    eapply moves_cons; [by eapply move_reverse|by apply IH].
Qed.

Lemma reverse_path_length p : length (reverse_path p) = length p.
Proof. unfold reverse_path. by rewrite length_reverse, length_fmap. Qed.

(** [X2] A sequence of legal moves can be undone: if the actions of
    [path], each one offered by available_actions at its turn, lead from a
    valid grid g to g', then the actions with pos1 and pos2 exchanged,
    taken in reverse order, are legal moves that lead from g' back to g,
    and replaying them with do_action returns g.  Hence g is reachable
    from g' whenever g' is reachable from g. *)
Theorem moves_reversible (n : nat) (g g' : grid) (path : list Action) (calls : nat) :
  valid_grid n g → moves g path g' →
  moves g' (reverse_path path) g ∧
  replay g' (reverse_path path) calls = (Ok g, (calls + length path)%nat) ∧
  solvable g' g.
Proof.
  intros Hv Hp. pose proof (moves_reverse n g path g' Hv Hp) as Hr.
  split; [done|]. split; [|by exists (reverse_path path)].
  by rewrite (moves_replay _ _ _ calls Hr), reverse_path_length.
Qed.

Lemma example_moves : moves [[1; 2]; [0; 3]] [action (1, 0) (1, 1)] (set_goal 2).
Proof. apply (moves_snoc _ [] _ _ _ (moves_nil _)), example_move. Qed.

Lemma moves_reversible_witness :
  valid_grid 2 [[1; 2]; [0; 3]] ∧
  moves [[1; 2]; [0; 3]] [action (1, 0) (1, 1)] (set_goal 2) ∧
  moves (set_goal 2) (reverse_path [action (1, 0) (1, 1)]) [[1; 2]; [0; 3]] ∧
  replay (set_goal 2) (reverse_path [action (1, 0) (1, 1)]) 0%nat
    = (Ok [[1; 2]; [0; 3]], 1%nat) ∧
  solvable (set_goal 2) [[1; 2]; [0; 3]].
Proof.
  split; [exact example_start_valid|]. split; [exact example_moves|].
  exact (moves_reversible 2 [[1; 2]; [0; 3]] (set_goal 2) [action (1, 0) (1, 1)] 0%nat
           example_start_valid example_moves).
Defined.

(** ** Where available_actions fails *)

(** [X3] For a two-dimensional array, square or not, available_actions
    raises IndexError exactly when the array holds no 0, and returns a
    list of at most four actions exactly when it holds a 0. *)
Theorem available_actions_IndexError (state : grid) :
  (available_actions state = Raise "IndexError" ↔ 0 ∉ concat state) ∧
  ((∃ actions, available_actions state = Ok actions ∧ (length actions ≤ 4)%nat)
   ↔ 0 ∈ concat state).
Proof.
  unfold available_actions.
  destruct (decide (0 ∈ concat state)) as [Hin|Hnin].
  - destruct (first_where_total state 0 Hin) as [[x y] ->]. simpl. split.
    + split; [intros [=]|done].
    + split; [done|]. intros _. eexists. split; [done|].
      repeat case_bool_decide; simpl; lia.
  - rewrite (first_where_None state 0 Hnin). simpl. split; [done|].
    split; [|done]. by intros (actions & [=] & _).
Qed.

(** ** get_pos and indexing *)

(** [X4] On a valid N×N grid get_pos and indexing are inverse to each
    other: get_pos(g, v) returns the position p exactly when p is in
    bounds and g[p] is v; and get_pos raises IndexError exactly for the
    values outside 0 .. N*N-1. *)
Theorem get_pos_getitem (n : nat) (g : grid) (v : Z) (p : pos) :
  valid_grid n g →
  (get_pos g v = Ok p ↔ in_bounds n p ∧ getitem g p = Ok v) ∧
  (get_pos g v = Raise "IndexError" ↔ ¬ (0 ≤ v < Z.of_nat (n * n))).
Proof.
  intros Hv. pose proof Hv as [Hs _]. unfold get_pos. split.
  - split.
    + intros Hp. destruct (first_where_Ok n g v p Hs Hp) as [Hb Hl].
      split; [done|]. by apply (getitem_flat_eq n).
    + intros [Hb Hg]. apply (first_where_unique n); [done| |done|].
      * by eapply valid_grid_NoDup.
      * by apply (getitem_flat_eq n).
  - rewrite <- (valid_grid_elem n g v Hv). split.
    + intros Hr Hin. destruct (first_where_total g v Hin) as [q Hq]. congruence.
    + apply first_where_None.
Qed.

Lemma get_pos_getitem_witness :
  valid_grid 2 [[1; 2]; [0; 3]] ∧
  (get_pos [[1; 2]; [0; 3]] 3 = Ok (1, 1)
   ↔ in_bounds 2 (1, 1) ∧ getitem [[1; 2]; [0; 3]] (1, 1) = Ok 3) ∧
  (get_pos [[1; 2]; [0; 3]] 3 = Raise "IndexError"
   ↔ ¬ (0 ≤ 3 < Z.of_nat (2 * 2))).
Proof.
  split; [exact example_start_valid|].
  exact (get_pos_getitem 2 [[1; 2]; [0; 3]] 3 (1, 1) example_start_valid).
Defined.

(** ** The goal grid *)

Lemma reshape_spec r c (l : list Z) :
  (r * c ≤ length l)%nat →
  length (reshape r c l) = r ∧ rows c (reshape r c l) ∧
  concat (reshape r c l) = take (r * c) l.
Proof.
  revert l. induction r as [|r IH]; intros l Hlen; simpl.
  - split; [done|]. split; [constructor|done].
  - destruct (IH (drop c l)) as (Hl & Hr & Hc).
    { rewrite length_drop. lia. }
    split; [by rewrite Hl|]. split.
    + constructor; [|done]. rewrite length_take. lia.
    + rewrite Hc. apply take_take_drop.
Qed.

Lemma reshape_concat c (g : grid) :
  rows c g → reshape (length g) c (concat g) = g.
Proof.
  induction 1 as [|row g Hrow Hg IH]; simpl; [done|].
  rewrite take_app_length' by done. rewrite drop_app_length' by done.
  by rewrite IH.
Qed.

Lemma np_reshape_square n g : square n g → np_reshape g n n = Ok g.
Proof.
  intros Hs. unfold np_reshape.
  rewrite bool_decide_eq_true_2 by by apply square_length_concat.
  destruct Hs as [Hl Hr]. rewrite <- Hl at 1. by rewrite reshape_concat.
Qed.

Lemma goal_items_length n :
  (1 ≤ n)%nat →
  length (seqZ 1 (Z.of_nat n * Z.of_nat n - 1) ++ [0]) = (n * n)%nat.
Proof. intros Hn. rewrite length_app, length_seqZ. simpl. nia. Qed.

Lemma set_goal_spec n :
  (1 ≤ n)%nat →
  square n (set_goal n) ∧
  concat (set_goal n) = seqZ 1 (Z.of_nat n * Z.of_nat n - 1) ++ [0].
Proof.
  intros Hn. pose proof (goal_items_length n Hn) as Hlen. unfold set_goal.
  destruct (reshape_spec n n (seqZ 1 (Z.of_nat n * Z.of_nat n - 1) ++ [0]))
    as (Hl & Hr & Hc); [lia|].
  split; [done|]. rewrite Hc. rewrite <- Hlen. apply firstn_all.
Qed.

Lemma set_goal_valid_grid n : (1 ≤ n)%nat → valid_grid n (set_goal n).
Proof.
  intros Hn. destruct (set_goal_spec n Hn) as [Hs Hc]. split; [done|].
  rewrite Hc. rewrite (seqZ_cons 0) by lia.
  replace (Z.succ 0) with 1 by lia.
  replace (Z.pred (Z.of_nat (n * n))) with (Z.of_nat n * Z.of_nat n - 1) by lia.
  symmetry. apply Permutation_cons_append.
Qed.

Lemma set_goal_checked_Ok n : (1 ≤ n)%nat → set_goal_checked n = Ok (set_goal n).
Proof.
  intros Hn. unfold set_goal_checked, np_reshape. simpl concat.
  rewrite app_nil_r. by rewrite bool_decide_eq_true_2 by by apply goal_items_length.
Qed.

Lemma set_goal_getitem n p :
  (1 ≤ n)%nat → in_bounds n p →
  getitem (set_goal n) p
    = Ok ((p.1 * Z.of_nat n + p.2 + 1) `mod` Z.of_nat (n * n)).
Proof.
  intros Hn Hb. destruct (set_goal_spec n Hn) as [Hs Hc].
  apply (getitem_flat_eq n); [done..|]. rewrite Hc.
  pose proof (flat_lt n p Hb) as Hlt.
  assert (Z.of_nat (flat n p) = p.1 * Z.of_nat n + p.2) as Hflat.
  { unfold flat. destruct Hb as [? ?]. lia. }
  rewrite <- Hflat.
  destruct (decide (flat n p = n * n - 1)%nat) as [Heq|Hne].
  - rewrite lookup_app_r by (rewrite length_seqZ; lia).
    rewrite length_seqZ.
    replace (flat n p - Z.to_nat (Z.of_nat n * Z.of_nat n - 1))%nat with 0%nat by lia.
    simpl. f_equal.
    replace (Z.of_nat (flat n p) + 1) with (Z.of_nat (n * n)) by lia.
    by rewrite Z_mod_same_full.
  - rewrite lookup_app_l by (rewrite length_seqZ; lia).
    rewrite lookup_seqZ_lt by lia. f_equal.
    rewrite Z.mod_small by lia. lia.
Qed.

(** [X5] For every puzzle_dim ≥ 1, set_goal returns a valid grid: the
    cell in row i and column j holds i*puzzle_dim + j + 1, except the last
    cell, which holds 0 — so get_pos finds the blank in the bottom right
    corner.  With puzzle_dim = 0 the reshape of the one-item array raises
    ValueError. *)
Theorem set_goal_valid (n : nat) :
  (1 ≤ n)%nat →
  set_goal_checked n = Ok (set_goal n) ∧
  valid_grid n (set_goal n) ∧
  (∀ p, in_bounds n p →
     getitem (set_goal n) p
       = Ok ((p.1 * Z.of_nat n + p.2 + 1) `mod` Z.of_nat (n * n))) ∧
  get_pos (set_goal n) 0 = Ok (Z.of_nat n - 1, Z.of_nat n - 1) ∧
  set_goal_checked 0 = Raise "ValueError".
Proof.
  intros Hn. split; [by apply set_goal_checked_Ok|].
  pose proof (set_goal_valid_grid n Hn) as Hv. split; [done|].
  split; [intros p Hp; by apply set_goal_getitem|]. split; [|done].
  assert (in_bounds n (Z.of_nat n - 1, Z.of_nat n - 1)) as Hb.
  { unfold in_bounds. simpl. lia. }
  unfold get_pos. apply (first_where_unique n); [apply Hv| |done|].
  - by eapply valid_grid_NoDup.
  - apply (getitem_flat_eq n); [apply Hv|done|].
    rewrite (set_goal_getitem n _ Hn Hb). f_equal. simpl.
    replace ((Z.of_nat n - 1) * Z.of_nat n + (Z.of_nat n - 1) + 1)
      with (Z.of_nat (n * n)) by lia.
    by rewrite Z_mod_same_full.
Qed.

Lemma set_goal_valid_witness :
  (1 ≤ 3)%nat ∧
  set_goal_checked 3 = Ok (set_goal 3) ∧
  valid_grid 3 (set_goal 3) ∧
  (∀ p, in_bounds 3 p →
     getitem (set_goal 3) p
       = Ok ((p.1 * Z.of_nat 3 + p.2 + 1) `mod` Z.of_nat (3 * 3))) ∧
  get_pos (set_goal 3) 0 = Ok (Z.of_nat 3 - 1, Z.of_nat 3 - 1) ∧
  set_goal_checked 0 = Raise "ValueError".
Proof. split; [lia|]. exact (set_goal_valid 3 ltac:(lia)). Defined.

(** ** init_state *)

Lemma choice_elem {A} (r : nat) (seq : list A) :
  seq ≠ [] → ∃ a, choice r seq = Ok a ∧ a ∈ seq.
Proof.
  intros Hne. unfold choice.
  assert (r `mod` length seq < length seq)%nat as Hlt.
  { apply Nat.mod_upper_bound. by destruct seq. }
  destruct (lookup_lt_is_Some_2 seq _ Hlt) as [a Ha].
  rewrite Ha. exists a. split; [done|]. by eapply list_elem_of_lookup_2.
Qed.

Lemma choice_nil {A} (r : nat) : choice r (@nil A) = Raise "IndexError".
Proof. done. Qed.

(** From two rows on, the blank always has a neighbour. *)
Lemma valid_actions_nonempty n g :
  (2 ≤ n)%nat → valid_grid n g →
  ∃ actions, available_actions g = Ok actions ∧ actions ≠ [].
Proof.
  intros Hn Hv. destruct (valid_available n g Hv) as (p & Hp & Hact); [lia|].
  exists (action p <$> neighbours_in_order n p). split; [done|].
  destruct (first_where_Ok n g 0 p (proj1 Hv) Hp) as [Hb _].
  assert (∃ q, q ∈ neighbours_in_order n p) as [q Hq].
  { destruct Hb as [Hx Hy]. destruct (decide (0 < p.1)).
    - exists (p.1 - 1, p.2). apply neighbours_in_order_spec; [done|].
      unfold in_bounds, adjacent. simpl. lia.
    - exists (p.1 + 1, p.2). apply neighbours_in_order_spec; [done|].
      unfold in_bounds, adjacent. simpl. lia. }
  intros Hnil. apply fmap_nil_inv in Hnil. rewrite Hnil in Hq.
  by apply elem_of_nil in Hq.
Qed.

Lemma randomize_spec n rnd :
  (2 ≤ n)%nat →
  ∀ m k g c, valid_grid n g →
    ∃ g' p, randomize rnd k m g c = (Ok g', (c + m)%nat) ∧
            moves g p g' ∧ length p = m.
Proof.
  intros Hn. induction m as [|m IH]; intros k g c Hv.
  - exists g, []. split; [|split; [apply moves_nil|done]].
    cbn [randomize]. by rewrite Nat.add_0_r.
  - destruct (valid_actions_nonempty n g Hn Hv) as (actions & Hact & Hne).
    destruct (choice_elem (rnd k) actions Hne) as (a & Hch & Ha).
    destruct (move_total n g a actions Hv Hact Ha) as [g1 Hm].
    pose proof (move_valid n g a g1 Hv Hm) as Hv1.
    destruct (IH (S k) g1 (S c) Hv1) as (g' & p & Hrun & Hp & Hlen).
    exists g', (a :: p). split; [|split; [by eapply moves_cons|by rewrite <- Hlen]].
    cbn [randomize]. rewrite mbind_run. unfold mlift at 1. rewrite Hact.
    rewrite mbind_run. unfold mlift at 1. rewrite Hch.
    rewrite mbind_run. unfold do_action at 1.
    destruct Hm as (_ & _ & _ & ->). rewrite Hrun. f_equal. lia.
Qed.

Lemma init_state_solvable_aux (n : nat) (goal : grid) (randomize_steps : nat)
    (rnd : nat → nat) (calls : nat) :
  (2 ≤ n)%nat → valid_grid n goal →
  ∃ state path,
    init_state goal n randomize_steps rnd calls
      = (Ok state, (calls + randomize_steps)%nat) ∧
    valid_grid n state ∧
    moves goal path state ∧ length path = randomize_steps ∧
    solvable state goal.
Proof.
  intros Hn Hv.
  destruct (randomize_spec n rnd Hn randomize_steps 0%nat goal calls Hv)
    as (state & path & Hrun & Hp & Hlen).
  pose proof (moves_valid n goal path state Hv Hp) as Hvs.
  exists state, path. split; [|split; [done|split; [done|split; [done|]]]].
  - unfold init_state. rewrite mbind_run, Hrun. unfold mlift.
    by rewrite (np_reshape_square n state (proj1 Hvs)).
  - exists (reverse_path path). by apply (moves_reverse n).
Qed.

(** [X6] init_state returns a solvable instance: for a valid N×N goal
    with N ≥ 2, whatever numbers the generator draws, init_state returns a
    valid grid that a sequence of randomize_steps legal moves produces from
    the goal, so that the goal can be reached back from it; do_action is
    called randomize_steps times. *)
Theorem init_state_solvable (n : nat) (goal : grid) (randomize_steps : nat)
    (rnd : nat → nat) (calls : nat) :
  (2 ≤ n)%nat → valid_grid n goal →
  ∃ state path,
    init_state goal n randomize_steps rnd calls
      = (Ok state, (calls + randomize_steps)%nat) ∧
    valid_grid n state ∧
    moves goal path state ∧ length path = randomize_steps ∧
    solvable state goal.
Proof. apply init_state_solvable_aux. Qed.

Lemma init_state_solvable_witness :
  (2 ≤ 2)%nat ∧ valid_grid 2 (set_goal 2) ∧
  ∃ state path,
    init_state (set_goal 2) 2 5 (λ k, k) 0%nat = (Ok state, (0 + 5)%nat) ∧
    valid_grid 2 state ∧
    moves (set_goal 2) path state ∧ length path = 5%nat ∧
    solvable state (set_goal 2).
Proof.
  split; [lia|]. split; [exact example_goal_valid|].
  exact (init_state_solvable 2 (set_goal 2) 5 (λ k, k) 0%nat ltac:(lia)
           example_goal_valid).
Defined.

(** [X7] The shuffle in init_state has no effect on the instance:
    [state.flatten()] allocates a new array, and [np.random.shuffle]
    rearranges that array only.  Whatever rearrangement is drawn, after
    the first two lines [state] is a new array that still holds the
    contents of [goal], and [goal] is unchanged. *)
Theorem init_state_shuffle_no_effect (perm : grid → grid) (σ : gmap nat grid)
    (goal : nat) (g : grid) :
  σ !! goal = Some g →
  ∃ state σ',
    Store.init_state_shuffle perm goal σ = (Ok state, σ') ∧
    σ !! state = None ∧ σ' !! state = Some g ∧ σ' !! goal = Some g.
Proof.
  intros Hσ.
  set (l1 := fresh (dom σ)).
  assert (σ !! l1 = None) as Hf1 by (apply not_elem_of_dom, is_fresh).
  set (σ1 := <[l1 := g]> σ).
  set (l2 := fresh (dom σ1)).
  assert (σ1 !! l2 = None) as Hf2 by (apply not_elem_of_dom, is_fresh).
  assert (l2 ≠ l1) as Hne.
  { intros Heq. rewrite Heq in Hf2. unfold σ1 in Hf2.
    by rewrite lookup_insert_eq in Hf2. }
  assert (goal ≠ l1) as Hg1 by (intros ->; congruence).
  assert (goal ≠ l2) as Hg2.
  { intros ->. unfold σ1 in Hf2. rewrite lookup_insert_ne in Hf2 by done. congruence. }
  exists l1, (<[l2 := perm [concat g]]> (<[l2 := [concat g]]> σ1)).
  split; [|split; [done|split]].
  - unfold Store.init_state_shuffle, Store.sbind, Store.np_copy. rewrite Hσ.
    fold l1. fold σ1. unfold Store.np_flatten. unfold σ1 at 1.
    rewrite lookup_insert_eq. fold σ1. fold l2.
    unfold Store.np_shuffle. by rewrite lookup_insert_eq.
  - rewrite !lookup_insert_ne by done. unfold σ1. by rewrite lookup_insert_eq.
  - rewrite !lookup_insert_ne by done. unfold σ1. by rewrite lookup_insert_ne.
Qed.

Lemma init_state_shuffle_no_effect_witness :
  ({[ 0%nat := set_goal 2 ]} : gmap nat grid) !! 0%nat = Some (set_goal 2) ∧
  ∃ state σ',
    Store.init_state_shuffle (fmap reverse) 0%nat {[ 0%nat := set_goal 2 ]}
      = (Ok state, σ') ∧
    ({[ 0%nat := set_goal 2 ]} : gmap nat grid) !! state = None ∧
    σ' !! state = Some (set_goal 2) ∧ σ' !! 0%nat = Some (set_goal 2).
Proof.
  split; [apply lookup_singleton_eq|].
  exact (init_state_shuffle_no_effect (fmap reverse) {[ 0%nat := set_goal 2 ]} 0%nat
           (set_goal 2) (lookup_singleton_eq _ _)).
Defined.

(** ** The two ways in which astar returns *)

Lemma log_progress_valid (n : nat) {K : Type} (goal current : State) (v : @vars K) :
  valid_grid n (content current) → valid_grid n (content goal) →
  log_progress goal current v = Ok tt.
Proof.
  intros Hc Hg. unfold log_progress. case_bool_decide; [|done].
  by destruct (fixed_heuristic_total n (content current) (content goal) None 1 1)
    as [h ->].
Qed.

Lemma astar_same_hash (py_hash : list Z → Z) {K : Type} {cost : Cost K}
    (heuristic : grid → grid → nat → pyexp → result K) (exp : pyexp)
    (n : nat) (start goal : grid) (fuel : nat) (calls : nat) :
  valid_grid n start → valid_grid n goal →
  py_hash (tobytes start) = py_hash (tobytes goal) →
  astar py_hash heuristic exp (S fuel) start goal calls
    = (Ok (Some (true, [])), calls).
Proof.
  intros Hs Hg Hhash. unfold astar. cbn [astar_loop]. rewrite mbind_run.
  rewrite (astar_iter_unfold py_hash heuristic exp (mkState py_hash goal)
             (astar_init (mkState py_hash start)) calls cost_zero
             (mkState py_hash start) [] []);
    [|reflexivity|by apply (log_progress_valid n)].
  unfold State_eq. cbn [hash mkState]. by rewrite bool_decide_eq_true_2.
Qed.

(** [X8] astar compares states by their hashes only.  Whenever the start
    and goal arrays (valid grids) have the same hash — in particular when
    the start grid is the goal grid — astar returns [(True, [])] in its
    first turn, without calling do_action: the call counter is left as it
    was. *)
Theorem astar_start_is_goal (py_hash : list Z → Z) {K : Type} {cost : Cost K}
    (heuristic : grid → grid → nat → pyexp → result K) (exp : pyexp)
    (n : nat) (start goal : grid) (fuel : nat) (calls : nat) :
  valid_grid n start → valid_grid n goal →
  py_hash (tobytes start) = py_hash (tobytes goal) →
  astar py_hash heuristic exp (S fuel) start goal calls
    = (Ok (Some (true, [])), calls) ∧
  astar py_hash heuristic exp (S fuel) goal goal calls
    = (Ok (Some (true, [])), calls).
Proof.
  intros Hs Hg Hhash. split; by apply (astar_same_hash py_hash heuristic exp n).
Qed.

Lemma astar_start_is_goal_witness :
  valid_grid 2 [[1; 2]; [0; 3]] ∧ valid_grid 2 (set_goal 2) ∧
  (λ _ : list Z, 0) (tobytes [[1; 2]; [0; 3]]) = (λ _ : list Z, 0) (tobytes (set_goal 2)) ∧
  astar (λ _, 0) fixed (ExpInt 1) 1 [[1; 2]; [0; 3]] (set_goal 2) 7%nat
    = (Ok (Some (true, [])), 7%nat) ∧
  astar (λ _, 0) fixed (ExpInt 1) 1 (set_goal 2) (set_goal 2) 7%nat
    = (Ok (Some (true, [])), 7%nat).
Proof.
  split; [exact example_start_valid|]. split; [exact example_goal_valid|].
  split; [reflexivity|].
  exact (astar_start_is_goal (λ _, 0) fixed (ExpInt 1) 2 [[1; 2]; [0; 3]] (set_goal 2)
           0 7%nat example_start_valid example_goal_valid eq_refl).
Defined.

Lemma astar_ends (py_hash : list Z → Z) {K : Type} {cost : Cost K}
    (heuristic : grid → grid → nat → pyexp → result K) (exp : pyexp)
    (n : nat) (start goal : grid) (calls : nat) :
  (∀ l1 l2, py_hash l1 = py_hash l2 → l1 = l2) →
  valid_grid n start → valid_grid n goal →
  (∀ g step, valid_grid n g → ∃ k, heuristic g goal step exp = Ok k) →
  ∃ fuel calls',
    (∃ path, astar py_hash heuristic exp fuel start goal calls
               = (Ok (Some (true, path)), calls') ∧
             moves start path goal) ∨
    (astar py_hash heuristic exp fuel start goal calls
       = (Ok (Some (false, [])), calls') ∧
     ¬ solvable start goal).
Proof.
  intros Hinj Hs Hg Hh.
  assert (search_inv py_hash (valid_grid n) start goal None (astar_init (mkState py_hash start)))
    as Hinit by (eapply astar_init_search_inv; eauto).
  destruct (astar_loop_ends_with py_hash Hinj heuristic exp n start goal Hs Hg Hh
              (λ _, True) ltac:(done) (astar_init (mkState py_hash start))
              Hinit I calls)
    as (fuel & c' & vf & Hinvf & _ & Hend).
  exists fuel, c'.
  destruct Hend as [(path & k & current & rest & Hloop & Hpath & _)|[Hloop Hopen]].
  - left. by exists path.
  - right. split; [done|].
    eapply (inv_empty_unreachable py_hash); [..|exact Hinvf|exact Hopen]; eauto.
Qed.

(** [X9] astar stops on every valid instance, and its answer tells
    whether the goal can be reached: for valid N×N start and goal grids
    it returns [(True, path)] when some sequence of legal moves leads
    from start to goal, and [(False, [])] — the return after the loop —
    when none does.  The hash is taken without collisions and the
    heuristic returns a number on every valid grid. *)
Theorem astar_decides (py_hash : list Z → Z) {K : Type} {cost : Cost K}
    (heuristic : grid → grid → nat → pyexp → result K) (exp : pyexp)
    (n : nat) (start goal : grid) (calls : nat) :
  (∀ l1 l2, py_hash l1 = py_hash l2 → l1 = l2) →
  valid_grid n start → valid_grid n goal →
  (∀ g step, valid_grid n g → ∃ k, heuristic g goal step exp = Ok k) →
  ∃ fuel converged path calls',
    (∀ fuel', (fuel ≤ fuel')%nat →
       astar py_hash heuristic exp fuel' start goal calls
         = (Ok (Some (converged, path)), calls')) ∧
    (converged = true ↔ solvable start goal) ∧
    (converged = true → moves start path goal) ∧
    (converged = false → path = []).
Proof.
  intros Hinj Hs Hg Hh.
  destruct (astar_ends py_hash heuristic exp n start goal calls Hinj Hs Hg Hh)
    as (fuel & c' & [(path & Hrun & Hpath)|[Hrun Hno]]).
  - exists fuel, true, path, c'. split; [|split; [|split]].
    + intros fuel' Hle. unfold astar in *. by eapply astar_loop_more_fuel.
    + split; [intros _; by exists path|done].
    + done.
    + intros [=].
  - exists fuel, false, [], c'. split; [|split; [|split]].
    + intros fuel' Hle. unfold astar in *. by eapply astar_loop_more_fuel.
    + split; [intros [=]|intros Hsolv; by destruct Hno].
    + intros [=].
    + done.
Qed.

Lemma example_swapped_valid : valid_grid 2 [[2; 1]; [3; 0]].
Proof.
  split; [split; [done | by repeat constructor]|].
  apply (bool_decide_unpack _). by vm_compute.
Qed.

Lemma example_swapped_run :
  ∃ calls', astar injective_hash fixed (ExpInt 1) 13 [[2; 1]; [3; 0]] (set_goal 2) 0%nat
              = (Ok (Some (false, [])), calls').
Proof. eexists. vm_compute. reflexivity. Qed.

Lemma astar_decides_witness :
  (∀ l1 l2, injective_hash l1 = injective_hash l2 → l1 = l2) ∧
  valid_grid 2 [[2; 1]; [3; 0]] ∧ valid_grid 2 (set_goal 2) ∧
  (∀ g (step : nat), valid_grid 2 g →
     ∃ k, fixed g (set_goal 2) step (ExpInt 1) = Ok k) ∧
  (∃ calls', astar injective_hash fixed (ExpInt 1) 13 [[2; 1]; [3; 0]] (set_goal 2) 0%nat
               = (Ok (Some (false, [])), calls')) ∧
  ∃ fuel converged path calls',
    (∀ fuel', (fuel ≤ fuel')%nat →
       astar injective_hash fixed (ExpInt 1) fuel' [[2; 1]; [3; 0]] (set_goal 2) 0%nat
         = (Ok (Some (converged, path)), calls')) ∧
    (converged = true ↔ solvable [[2; 1]; [3; 0]] (set_goal 2)) ∧
    (converged = true → moves [[2; 1]; [3; 0]] path (set_goal 2)) ∧
    (converged = false → path = []).
Proof.
  split; [exact injective_hash_inj|].
  split; [exact example_swapped_valid|].
  split; [exact example_goal_valid|].
  split; [exact (fixed_total 2 (set_goal 2) 1 example_goal_valid ltac:(lia))|].
  split; [exact example_swapped_run|].
  exact (astar_decides injective_hash fixed (ExpInt 1) 2 [[2; 1]; [3; 0]] (set_goal 2)
           0%nat injective_hash_inj example_swapped_valid example_goal_valid
           (fixed_total 2 (set_goal 2) 1 example_goal_valid ltac:(lia))).
Defined.

(** ** solve_instance *)

Section SolveInstance.
Variable float : Type.
Variable int_truediv : Z → Z → float.
Variable py_hash : list Z → Z.
Context {K : Type} {cost_K : Cost K}.
Variable heuristic : grid → grid → nat → pyexp → result K.
Variable exp : pyexp.

Lemma quality_total path c :
  ∃ q, quality float int_truediv path c = (Ok q, c) ∧
       (path = [] → q = NInt (Z.of_nat c)).
Proof.
  destruct path as [|a path].
  - exists (NInt (Z.of_nat c)). by split.
  - eexists. split; [reflexivity|done].
Qed.

(** What [solve_instance] returns once instance and search are known. *)
Lemma solve_instance_run rnd fuel n calls calls1 content path c q :
  (1 ≤ n)%nat →
  init_state (set_goal n) n 1400 rnd calls = (Ok content, calls1) →
  astar py_hash heuristic exp fuel content (set_goal n) 0%nat
    = (Ok (Some (true, path)), c) →
  quality float int_truediv path c = (Ok q, c) →
  solve_instance float int_truediv py_hash heuristic exp rnd fuel n calls
    = (Ok (Some (q, c)), c).
Proof.
  intros Hn Hinit Hrun Hq. unfold solve_instance.
  rewrite mbind_run. unfold mlift at 1. rewrite (set_goal_checked_Ok n Hn).
  rewrite mbind_run, Hinit. rewrite mbind_run. unfold reset_calls at 1.
  rewrite mbind_run, Hrun. rewrite mbind_run, Hq. by rewrite mbind_run.
Qed.
End SolveInstance.

(** [X10] solve_instance never fails for puzzle_dim ≥ 2: whatever numbers
    the generator draws, the instance made by init_state is solved — the
    assertion holds — by a path of legal moves from the instance to the
    goal, the quality returned is the one of that path, and the cost
    returned is the number of do_action calls of the search alone (the
    counter is reset after the instance is made), whatever the counter was
    before.  The hash is taken without collisions and the heuristic
    returns a number on every valid grid. *)
Theorem solve_instance_succeeds (float : Type) (int_truediv : Z → Z → float)
    (py_hash : list Z → Z) {K : Type} {cost_K : Cost K}
    (heuristic : grid → grid → nat → pyexp → result K) (exp : pyexp)
    (rnd : nat → nat) (n : nat) (calls : nat) :
  (∀ l1 l2, py_hash l1 = py_hash l2 → l1 = l2) →
  (2 ≤ n)%nat →
  (∀ g step, valid_grid n g → ∃ k, heuristic g (set_goal n) step exp = Ok k) →
  ∃ fuel content path q c,
    init_state (set_goal n) n 1400 rnd calls = (Ok content, (calls + 1400)%nat) ∧
    moves content path (set_goal n) ∧
    astar py_hash heuristic exp fuel content (set_goal n) 0%nat
      = (Ok (Some (true, path)), c) ∧
    quality float int_truediv path c = (Ok q, c) ∧
    ∀ fuel', (fuel ≤ fuel')%nat →
      solve_instance float int_truediv py_hash heuristic exp rnd fuel' n calls
        = (Ok (Some (q, c)), c).
Proof.
  intros Hinj Hn Hh.
  pose proof (set_goal_valid_grid n ltac:(lia)) as Hg.
  destruct (init_state_solvable_aux n (set_goal n) 1400 rnd calls Hn Hg)
    as (content & _ & Hinit & Hvc & _ & _ & Hsolv).
  destruct (astar_finds py_hash Hinj heuristic exp n content (set_goal n)
              Hvc Hsolv Hh 0%nat) as (fuel & path & c & Hrun & Hpath).
  destruct (quality_total float int_truediv path c) as (q & Hq & _).
  exists fuel, content, path, q, c. do 4 (split; [done|]).
  intros fuel' Hle.
  apply (solve_instance_run float int_truediv py_hash heuristic exp rnd fuel' n
           calls (calls + 1400)%nat content path c q); [lia|done| |done].
  unfold astar in *. by eapply astar_loop_more_fuel.
Qed.

Lemma solve_instance_succeeds_witness :
  (∀ l1 l2, injective_hash l1 = injective_hash l2 → l1 = l2) ∧
  (2 ≤ 2)%nat ∧
  (∀ g (step : nat), valid_grid 2 g →
     ∃ k, fixed g (set_goal 2) step (ExpInt 1) = Ok k) ∧
  ∃ fuel content path q c,
    init_state (set_goal 2) 2 1400 (λ k, k) 0%nat = (Ok content, (0 + 1400)%nat) ∧
    moves content path (set_goal 2) ∧
    astar injective_hash fixed (ExpInt 1) fuel content (set_goal 2) 0%nat
      = (Ok (Some (true, path)), c) ∧
    quality (Z * Z) pair path c = (Ok q, c) ∧
    ∀ fuel', (fuel ≤ fuel')%nat →
      solve_instance (Z * Z) pair injective_hash fixed (ExpInt 1) (λ k, k) fuel' 2 0%nat
        = (Ok (Some (q, c)), c).
Proof.
  split; [exact injective_hash_inj|]. split; [lia|].
  split; [exact (fixed_total 2 (set_goal 2) 1 example_goal_valid ltac:(lia))|].
  exact (solve_instance_succeeds (Z * Z) pair injective_hash fixed (ExpInt 1)
           (λ k, k) 2 0%nat injective_hash_inj ltac:(lia)
           (fixed_total 2 (set_goal 2) 1 example_goal_valid ltac:(lia))).
Defined.

(** [X11] An instance that comes out of init_state already solved is
    given quality 0: astar returns the empty path without calling
    do_action, and quality of an empty path is cost(), the counter that
    solve_instance has just reset.  So solve_instance returns (0, 0). *)
Theorem solve_instance_already_solved (float : Type) (int_truediv : Z → Z → float)
    (py_hash : list Z → Z) {K : Type} {cost_K : Cost K}
    (heuristic : grid → grid → nat → pyexp → result K) (exp : pyexp)
    (rnd : nat → nat) (fuel n : nat) (calls calls' : nat) :
  (1 ≤ n)%nat →
  init_state (set_goal n) n 1400 rnd calls = (Ok (set_goal n), calls') →
  solve_instance float int_truediv py_hash heuristic exp rnd (S fuel) n calls
    = (Ok (Some (NInt 0, 0%nat)), 0%nat).
Proof.
  intros Hn Hinit.
  apply (solve_instance_run float int_truediv py_hash heuristic exp rnd (S fuel) n
           calls calls' (set_goal n) [] 0%nat (NInt 0)); [done..| |done].
  pose proof (set_goal_valid_grid n Hn) as Hg.
  by apply (astar_same_hash py_hash heuristic exp n).
Qed.

Lemma example_walk_returns :
  init_state (set_goal 2) 2 1400 (λ _, 0%nat) 0%nat = (Ok (set_goal 2), 1400%nat).
Proof. vm_compute. reflexivity. Qed.

Lemma solve_instance_already_solved_witness :
  (1 ≤ 2)%nat ∧
  init_state (set_goal 2) 2 1400 (λ _, 0%nat) 0%nat = (Ok (set_goal 2), 1400%nat) ∧
  solve_instance (Z * Z) pair injective_hash fixed (ExpInt 1) (λ _, 0%nat) 1 2 0%nat
    = (Ok (Some (NInt 0, 0%nat)), 0%nat).
Proof.
  split; [lia|]. split; [exact example_walk_returns|].
  exact (solve_instance_already_solved (Z * Z) pair injective_hash fixed (ExpInt 1)
           (λ _, 0%nat) 0 2 0%nat 1400%nat ltac:(lia) example_walk_returns).
Defined.

(** [X12] The two smallest sizes make solve_instance fail before any
    search: with puzzle_dim = 0, set_goal raises ValueError (an array of
    one item cannot take the shape (0, 0)); with puzzle_dim = 1, init_state
    raises IndexError, because the 1×1 grid offers no action and choice is
    given an empty list.  The call counter is left as it was. *)
Theorem solve_instance_small_sizes (float : Type) (int_truediv : Z → Z → float)
    (py_hash : list Z → Z) {K : Type} {cost_K : Cost K}
    (heuristic : grid → grid → nat → pyexp → result K) (exp : pyexp)
    (rnd : nat → nat) (fuel : nat) (calls : nat) :
  solve_instance float int_truediv py_hash heuristic exp rnd fuel 0 calls
    = (Raise "ValueError", calls) ∧
  solve_instance float int_truediv py_hash heuristic exp rnd fuel 1 calls
    = (Raise "IndexError", calls) ∧
  ∀ m, init_state (set_goal 1) 1 (S m) rnd calls = (Raise "IndexError", calls).
Proof.
  split; [done|].
  assert (∀ m, init_state (set_goal 1) 1 (S m) rnd calls
               = (Raise "IndexError", calls)) as Hinit.
  { intros m. unfold init_state. rewrite mbind_run. by cbn [randomize]. }
  split; [|done].
  unfold solve_instance. rewrite mbind_run. unfold mlift at 1.
  rewrite (set_goal_checked_Ok 1) by lia.
  rewrite mbind_run. change 1400%nat with (S 1399). by rewrite Hinit.
Qed.

(** ** The value of fixed_heuristic with exp = 1 *)

Lemma sumZ_bounds (B : Z) (l : list Z) :
  Forall (λ m, 0 ≤ m ≤ B) l → 0 ≤ sumZ l ≤ B * Z.of_nat (length l).
Proof.
  induction 1 as [|m l Hm _ IH]; [simpl; lia|].
  rewrite sumZ_cons. cbn [length]. lia.
Qed.

Lemma sumZ_zero (l : list Z) :
  Forall (λ m, 0 ≤ m) l → sumZ l = 0 → Forall (λ m, m = 0) l.
Proof.
  induction 1 as [|m l Hm Hl IH]; [done|].
  rewrite sumZ_cons. intros Hsum.
  assert (0 ≤ sumZ l).
  { clear -Hl. induction Hl as [|m l Hm _ IH]; [done|]. rewrite sumZ_cons. lia. }
  constructor; [lia|]. apply IH. lia.
Qed.

Lemma md_bounds n state goal v :
  valid_grid n state → valid_grid n goal → 0 ≤ v < Z.of_nat (n * n) →
  0 ≤ md state goal v ≤ 2 * Z.of_nat n.
Proof.
  intros Hs Hg Hv. unfold md.
  destruct (pos_of_valid _ _ _ Hs Hv) as [_ [? ?]].
  destruct (pos_of_valid _ _ _ Hg Hv) as [_ [? ?]]. lia.
Qed.

Lemma manhattan_sum_bounds n state goal :
  valid_grid n state → valid_grid n goal →
  0 ≤ manhattan_sum state goal ≤ 2 * Z.of_nat n * (Z.of_nat n * Z.of_nat n).
Proof.
  intros Hs Hg. unfold manhattan_sum.
  destruct (sumZ_bounds (2 * Z.of_nat n) (md state goal <$> tiles state)) as [Hlo Hhi].
  { apply Forall_fmap, Forall_forall. intros v Hv. apply md_bounds; [done..|].
    pose proof (tiles_range n state v (proj1 Hs) Hv). lia. }
  split; [done|]. etrans; [exact Hhi|].
  rewrite length_fmap, (tiles_square n state (proj1 Hs)), length_seqZ.
  apply Z.mul_le_mono_nonneg_l; lia.
Qed.

Lemma small_cube (n : nat) :
  Z.of_nat n < 2 ^ 20 → 2 * Z.of_nat n * (Z.of_nat n * Z.of_nat n) < 2 ^ 63.
Proof.
  intros Hn.
  assert (Z.of_nat n * Z.of_nat n ≤ 2 ^ 20 * 2 ^ 20) as Hsq
    by (apply Z.mul_le_mono_nonneg; lia).
  assert (2 * Z.of_nat n * (Z.of_nat n * Z.of_nat n) ≤ 2 ^ 21 * (2 ^ 20 * 2 ^ 20))
    by (apply Z.mul_le_mono_nonneg; lia).
  lia.
Qed.

(** Below a size no array reaches, the np.int64 arithmetic does not wrap. *)
Lemma fixed_heuristic_exact n state goal step :
  valid_grid n state → valid_grid n goal → Z.of_nat n < 2 ^ 20 →
  fixed_heuristic state goal step (ExpInt 1) 1 = Ok (manhattan_sum state goal).
Proof.
  intros Hs Hg Hn.
  destruct (fixed_heuristic_stands n state goal step Hs Hg) as (h & -> & _ & Hrel).
  pose proof (manhattan_sum_bounds n state goal Hs Hg).
  pose proof (small_cube n Hn).
  destruct Hrel as [->|?]; [done|lia].
Qed.

(** Two valid grids in which every tile has the same position are equal. *)
Lemma same_positions_eq n state goal :
  valid_grid n state → valid_grid n goal →
  (∀ v, 1 ≤ v < Z.of_nat (n * n) → first_where state v = first_where goal v) →
  state = goal.
Proof.
  intros Hs Hg Hsame.
  pose proof (valid_grid_NoDup _ _ Hs) as Hnds.
  pose proof (valid_grid_NoDup _ _ Hg) as Hndg.
  assert (∀ g1 g2 i v, valid_grid n g1 → valid_grid n g2 → NoDup (concat g1) →
            (∀ v, 1 ≤ v < Z.of_nat (n * n) → first_where g1 v = first_where g2 v) →
            concat g1 !! i = Some v → v ≠ 0 → concat g2 !! i = Some v) as Hcopy.
  { intros g1 g2 i v H1 H2 Hnd1 Heq Hi Hv0.
    assert (1 ≤ v < Z.of_nat (n * n)) as Hr.
    { assert (0 ≤ v < Z.of_nat (n * n)); [|lia].
      apply (valid_grid_elem n g1); [done|]. by eapply list_elem_of_lookup_2. }
    destruct (pos_of_valid n g1 v H1 ltac:(lia)) as [Hq _].
    destruct (first_where_Ok n g1 v _ (proj1 H1) Hq) as [Hb Hl].
    rewrite (Heq v Hr) in Hq.
    destruct (first_where_Ok n g2 v _ (proj1 H2) Hq) as [_ Hl2].
    by rewrite <- (NoDup_lookup (concat g1) _ _ v Hnd1 Hl Hi). }
  apply (rows_concat_inj n); [apply Hs|apply Hg|by rewrite (proj1 (proj1 Hs)), (proj1 (proj1 Hg))|].
  apply list_eq. intros i.
  destruct (concat state !! i) as [u|] eqn:Hu, (concat goal !! i) as [v|] eqn:Hv.
  - destruct (decide (u = 0)) as [->|Hu0].
    + destruct (decide (v = 0)) as [->|Hv0]; [done|].
      pose proof (Hcopy goal state i v Hg Hs Hndg
                    (λ w Hw, eq_sym (Hsame w Hw)) Hv Hv0). congruence.
    + pose proof (Hcopy state goal i u Hs Hg Hnds Hsame Hu Hu0). congruence.
  - apply lookup_lt_Some in Hu. apply lookup_ge_None in Hv.
    rewrite (square_length_concat n) in Hu, Hv by (apply Hs || apply Hg). lia.
  - apply lookup_lt_Some in Hv. apply lookup_ge_None in Hu.
    rewrite (square_length_concat n) in Hu, Hv by (apply Hs || apply Hg). lia.
  - done.
Qed.

Lemma manhattan_sum_zero n state goal :
  valid_grid n state → valid_grid n goal →
  manhattan_sum state goal = 0 → state = goal.
Proof.
  intros Hs Hg Hsum. apply (same_positions_eq n); [done..|].
  intros v Hv.
  assert (Forall (λ m, m = 0) (md state goal <$> tiles state)) as Hall.
  { apply sumZ_zero; [|done]. apply Forall_fmap, Forall_forall. intros w Hw. simpl.
    pose proof (tiles_range n state w (proj1 Hs) Hw).
    pose proof (md_bounds n state goal w Hs Hg). lia. }
  rewrite Forall_fmap, Forall_forall in Hall.
  assert (md state goal v = 0) as Hmd.
  { apply Hall. rewrite (tiles_square n state (proj1 Hs)), elem_of_seqZ. lia. }
  destruct (pos_of_valid n state v Hs ltac:(lia)) as [-> _].
  destruct (pos_of_valid n goal v Hg ltac:(lia)) as [-> _].
  unfold md in Hmd. f_equal.
  destruct (pos_of state v), (pos_of goal v). simpl in *. f_equal; lia.
Qed.

(** [X13] With exp = 1 and p = 1, fixed_heuristic on valid N×N grids
    (N < 2^20, so that no np.int64 operation wraps) returns the sum over
    the tiles of the distances between their positions in state and in
    goal, and this value is 0 exactly when state is the goal. *)
Theorem fixed_heuristic_zero_iff_goal (n : nat) (state goal : grid)
    (step : option nat) :
  valid_grid n state → valid_grid n goal → Z.of_nat n < 2 ^ 20 →
  fixed_heuristic state goal step (ExpInt 1) 1 = Ok (manhattan_sum state goal) ∧
  (fixed_heuristic state goal step (ExpInt 1) 1 = Ok 0 ↔ state = goal).
Proof.
  intros Hs Hg Hn. rewrite (fixed_heuristic_exact n) by done. split; [done|]. split.
  - intros [= Hz]. by apply (manhattan_sum_zero n).
  - intros ->. by rewrite manhattan_sum_refl.
Qed.

Lemma fixed_heuristic_zero_iff_goal_witness :
  valid_grid 2 [[1; 2]; [0; 3]] ∧ valid_grid 2 (set_goal 2) ∧ Z.of_nat 2 < 2 ^ 20 ∧
  fixed_heuristic [[1; 2]; [0; 3]] (set_goal 2) None (ExpInt 1) 1
    = Ok (manhattan_sum [[1; 2]; [0; 3]] (set_goal 2)) ∧
  (fixed_heuristic [[1; 2]; [0; 3]] (set_goal 2) None (ExpInt 1) 1 = Ok 0
   ↔ [[1; 2]; [0; 3]] = set_goal 2).
Proof.
  split; [exact example_start_valid|]. split; [exact example_goal_valid|].
  split; [lia|].
  exact (fixed_heuristic_zero_iff_goal 2 [[1; 2]; [0; 3]] (set_goal 2) None
           example_start_valid example_goal_valid ltac:(lia)).
Defined.

(** ** One move changes the heuristic by one *)

Lemma sumZ_change_eq (l : list Z) (f f' : Z → Z) w :
  NoDup l → w ∈ l → (∀ v, v ∈ l → v ≠ w → f v = f' v) →
  sumZ (f <$> l) - sumZ (f' <$> l) = f w - f' w.
Proof.
  intros Hnd Hw Hsame.
  assert (∀ l, (∀ v, v ∈ l → f v = f' v) → sumZ (f <$> l) = sumZ (f' <$> l)) as Heq.
  { clear. induction l as [|v l IH]; intros Hf; [done|].
    rewrite !fmap_cons, !sumZ_cons.
    rewrite Hf by apply list_elem_of_here. rewrite IH; [done|].
    intros v' Hv'. apply Hf. by apply list_elem_of_further. }
  induction Hnd as [|v l Hv Hnd IH]; [by apply elem_of_nil in Hw|].
  rewrite !fmap_cons, !sumZ_cons.
  destruct (decide (v = w)) as [->|Hne].
  - rewrite (Heq l); [lia|]. intros v Hv'. apply Hsame; [by apply list_elem_of_further|].
    by intros ->.
  - rewrite (Hsame v); [|apply list_elem_of_here|done].
    apply elem_of_cons in Hw as [->|Hw]; [done|].
    rewrite <- (IH Hw); [lia|].
    intros v' Hv' ?. apply Hsame; [by apply list_elem_of_further|done].
Qed.

Lemma manhattan_sum_step n g a g' goal :
  valid_grid n g → valid_grid n goal → move g a g' →
  manhattan_sum g' goal = manhattan_sum g goal + 1 ∨
  manhattan_sum g' goal = manhattan_sum g goal - 1.
Proof.
  intros Hv Hg Hm. pose proof (move_valid _ _ _ _ Hv Hm) as Hv'.
  destruct (move_positions _ _ _ _ Hv Hm)
    as (w & Hw & Hb1 & Hb2 & Hadj & _ & _ & Hw1 & Hw2 & Hother).
  unfold manhattan_sum.
  rewrite (tiles_square n g' (proj1 Hv')), <- (tiles_square n g (proj1 Hv)).
  assert (sumZ (md g' goal <$> tiles g) - sumZ (md g goal <$> tiles g)
          = md g' goal w - md g goal w) as Hdiff.
  { apply sumZ_change_eq.
    - rewrite (tiles_square n g (proj1 Hv)). apply NoDup_seqZ.
    - rewrite (tiles_square n g (proj1 Hv)), elem_of_seqZ. lia.
    - intros v Hv0 Hne. pose proof (tiles_range n g v (proj1 Hv) Hv0).
      unfold md, pos_of. by rewrite (Hother v) by lia. }
  assert (md g' goal w - md g goal w = 1 ∨ md g' goal w - md g goal w = -1); [|lia].
  unfold md.
  assert (pos_of g' w = pos1 a) as -> by (unfold pos_of; by rewrite Hw2).
  assert (pos_of g w = pos2 a) as -> by (unfold pos_of; by rewrite Hw1).
  destruct (pos_of goal w), (pos1 a), (pos2 a). unfold adjacent in Hadj.
  simpl in *. lia.
Qed.

Lemma manhattan_sum_parity n g p g1 goal :
  valid_grid n g → valid_grid n goal → moves g p g1 →
  ∃ k, Z.of_nat (length p) + manhattan_sum g1 goal - manhattan_sum g goal = 2 * k.
Proof.
  intros Hv Hg Hp. induction Hp as [g|g p g1 a g2 Hp IH Hm].
  - exists 0. cbn [length]. lia.
  - destruct (IH Hv) as [k Hk]. rewrite length_app. cbn [length].
    pose proof (moves_valid _ _ _ _ Hv Hp) as Hv1.
    destruct (manhattan_sum_step n g1 a g2 goal Hv1 Hg Hm) as [->| ->].
    + exists (k + 1). lia.
    + exists k. lia.
Qed.

(** [X14] Every legal move changes fixed_heuristic (exp = 1, p = 1) by
    exactly one, up or down: the tile that moves gets one step nearer to
    or farther from its place.  Hence the length of every sequence of
    legal moves from a grid to the goal has the parity of the heuristic at
    that grid.  (Valid N×N grids, N < 2^20.) *)
Theorem fixed_heuristic_step (n : nat) (g g' goal : grid) (a : Action)
    (step step' : option nat) :
  valid_grid n g → valid_grid n goal → Z.of_nat n < 2 ^ 20 → move g a g' →
  ∃ h h',
    fixed_heuristic g goal step (ExpInt 1) 1 = Ok h ∧
    fixed_heuristic g' goal step' (ExpInt 1) 1 = Ok h' ∧
    (h' = h + 1 ∨ h' = h - 1) ∧
    ∀ path, moves g path goal → Z.even (Z.of_nat (length path) - h) = true.
Proof.
  intros Hv Hg Hn Hm. pose proof (move_valid _ _ _ _ Hv Hm) as Hv'.
  exists (manhattan_sum g goal), (manhattan_sum g' goal).
  split; [by apply (fixed_heuristic_exact n)|].
  split; [by apply (fixed_heuristic_exact n)|].
  split; [by apply (manhattan_sum_step n g a)|].
  intros path Hp. destruct (manhattan_sum_parity n g path goal goal Hv Hg Hp) as [k Hk].
  rewrite manhattan_sum_refl in Hk. apply Z.even_spec. exists k. lia.
Qed.

Lemma fixed_heuristic_step_witness :
  valid_grid 2 [[1; 2]; [0; 3]] ∧ valid_grid 2 (set_goal 2) ∧ Z.of_nat 2 < 2 ^ 20 ∧
  move [[1; 2]; [0; 3]] (action (1, 0) (1, 1)) (set_goal 2) ∧
  ∃ h h',
    fixed_heuristic [[1; 2]; [0; 3]] (set_goal 2) None (ExpInt 1) 1 = Ok h ∧
    fixed_heuristic (set_goal 2) (set_goal 2) None (ExpInt 1) 1 = Ok h' ∧
    (h' = h + 1 ∨ h' = h - 1) ∧
    ∀ path, moves [[1; 2]; [0; 3]] path (set_goal 2) →
            Z.even (Z.of_nat (length path) - h) = true.
Proof.
  split; [exact example_start_valid|]. split; [exact example_goal_valid|].
  split; [lia|]. split; [exact example_move|].
  exact (fixed_heuristic_step 2 [[1; 2]; [0; 3]] (set_goal 2) (set_goal 2)
           (action (1, 0) (1, 1)) None None
           example_start_valid example_goal_valid ltac:(lia) example_move).
Defined.

(** ** do_action and the indices numpy accepts *)

Lemma norm_index_ok n i :
  - Z.of_nat n ≤ i < Z.of_nat n →
  norm_index n i = Ok (Z.to_nat (i `mod` Z.of_nat n)) ∧
  0 ≤ i `mod` Z.of_nat n < Z.of_nat n.
Proof.
  intros Hi. unfold norm_index.
  destruct (decide (0 ≤ i)) as [Hpos|Hneg].
  - rewrite bool_decide_eq_true_2 by lia. rewrite Z.mod_small by lia. split; [done|lia].
  - rewrite bool_decide_eq_false_2 by lia. rewrite bool_decide_eq_true_2 by lia.
    assert (i `mod` Z.of_nat n = i + Z.of_nat n) as ->.
    { rewrite <- (Z.mod_small (i + Z.of_nat n) (Z.of_nat n)) by lia.
      rewrite <- (Z_mod_plus_full i 1 (Z.of_nat n)). f_equal. lia. }
    split; [done|lia].
Qed.

Lemma norm_index_out n i :
  ¬ (- Z.of_nat n ≤ i < Z.of_nat n) → norm_index n i = Raise "IndexError".
Proof.
  intros Hi. unfold norm_index.
  rewrite bool_decide_eq_false_2 by lia. by rewrite bool_decide_eq_false_2 by lia.
Qed.

Lemma norm_pos_in_bounds n p : index_ok n p → in_bounds n (norm_pos n p).
Proof.
  intros [H1 H2]. split; simpl.
  - by destruct (norm_index_ok n p.1 H1).
  - by destruct (norm_index_ok n p.2 H2).
Qed.

Lemma getitem_norm n g p :
  square n g → index_ok n p → getitem g p = getitem g (norm_pos n p).
Proof.
  intros [Hlen Hr] [H1 H2].
  destruct (norm_index_ok n p.1 H1) as [E1 B1].
  destruct (norm_index_ok n p.2 H2) as [E2 B2].
  unfold getitem. cbn [norm_pos fst snd]. rewrite Hlen, E1.
  rewrite (norm_index_in n (p.1 `mod` Z.of_nat n)) by lia. simpl.
  destruct (g !! Z.to_nat (p.1 `mod` Z.of_nat n)) as [row|] eqn:Hrow; [|done].
  rewrite (rows_lookup _ _ _ _ Hr Hrow), E2.
  by rewrite (norm_index_in n (p.2 `mod` Z.of_nat n)) by lia.
Qed.

Lemma setitem_norm n g p v :
  square n g → index_ok n p → setitem g p v = setitem g (norm_pos n p) v.
Proof.
  intros [Hlen Hr] [H1 H2].
  destruct (norm_index_ok n p.1 H1) as [E1 B1].
  destruct (norm_index_ok n p.2 H2) as [E2 B2].
  unfold setitem. cbn [norm_pos fst snd]. rewrite Hlen, E1.
  rewrite (norm_index_in n (p.1 `mod` Z.of_nat n)) by lia. simpl.
  destruct (g !! Z.to_nat (p.1 `mod` Z.of_nat n)) as [row|] eqn:Hrow; [|done].
  rewrite (rows_lookup _ _ _ _ Hr Hrow), E2.
  by rewrite (norm_index_in n (p.2 `mod` Z.of_nat n)) by lia.
Qed.

Lemma getitem_out n g p :
  square n g → ¬ index_ok n p → getitem g p = Raise "IndexError".
Proof.
  intros [Hlen Hr] Hbad. unfold getitem. rewrite Hlen.
  destruct (decide (- Z.of_nat n ≤ p.1 < Z.of_nat n)) as [H1|H1].
  - destruct (norm_index_ok n p.1 H1) as [-> B1]. simpl.
    destruct (g !! Z.to_nat (p.1 `mod` Z.of_nat n)) as [row|] eqn:Hrow; [|done].
    rewrite (rows_lookup _ _ _ _ Hr Hrow).
    rewrite norm_index_out; [done|]. intros H2. apply Hbad. by split.
  - by rewrite norm_index_out.
Qed.

Lemma do_action_body_norm n g a :
  square n g → index_ok n (pos1 a) → index_ok n (pos2 a) →
  do_action_body g a
    = do_action_body g (action (norm_pos n (pos1 a)) (norm_pos n (pos2 a))).
Proof.
  intros Hs H1 H2.
  pose proof (norm_pos_in_bounds n _ H1) as B1.
  pose proof (norm_pos_in_bounds n _ H2) as B2.
  unfold do_action_body. cbn [pos1 pos2].
  rewrite (getitem_norm n g (pos2 a) Hs H2), (getitem_norm n g (pos1 a) Hs H1).
  destruct (getitem_flat n g _ Hs B2) as (y & _ & ->).
  destruct (getitem_flat n g _ Hs B1) as (x & _ & ->). simpl.
  rewrite (setitem_norm n g (pos1 a) y Hs H1).
  destruct (setitem_flat n g (norm_pos n (pos1 a)) y Hs B1) as (g1 & -> & Hs1 & _). simpl.
  by rewrite (setitem_norm n g1 (pos2 a) x Hs1 H2).
Qed.

Lemma do_action_body_out n g a :
  square n g → ¬ (index_ok n (pos1 a) ∧ index_ok n (pos2 a)) →
  do_action_body g a = Raise "IndexError".
Proof.
  intros Hs Hbad. unfold do_action_body.
  destruct (decide (index_ok n (pos2 a))) as [H2|H2].
  - rewrite (getitem_norm n g (pos2 a) Hs H2).
    destruct (getitem_flat n g _ Hs (norm_pos_in_bounds n _ H2)) as (y & _ & ->). simpl.
    rewrite (getitem_out n g (pos1 a) Hs); [done|]. intros H1. by apply Hbad.
  - by rewrite (getitem_out n g (pos2 a) Hs).
Qed.

(** [X15] do_action makes no check of its own on the positions of the
    action.  On an N×N array an index from -N to -1 is accepted and counts
    from the end: the action then swaps the cells at the positions taken
    modulo N.  With any index outside -N .. N-1 the call raises IndexError,
    and it has been counted all the same. *)
Theorem do_action_indices (n : nat) (g : grid) (a : Action) (calls : nat) :
  square n g →
  (index_ok n (pos1 a) ∧ index_ok n (pos2 a) →
     in_bounds n (norm_pos n (pos1 a)) ∧ in_bounds n (norm_pos n (pos2 a)) ∧
     do_action g a calls
       = do_action g (action (norm_pos n (pos1 a)) (norm_pos n (pos2 a))) calls) ∧
  (¬ (index_ok n (pos1 a) ∧ index_ok n (pos2 a)) →
     do_action g a calls = (Raise "IndexError", S calls)).
Proof.
  intros Hs. split.
  - intros [H1 H2]. split; [by apply norm_pos_in_bounds|].
    split; [by apply norm_pos_in_bounds|].
    unfold do_action. by rewrite (do_action_body_norm n g a Hs H1 H2).
  - intros Hbad. unfold do_action. by rewrite (do_action_body_out n g a Hs Hbad).
Qed.

Lemma do_action_indices_witness :
  square 2 [[1; 2]; [0; 3]] ∧
  (index_ok 2 (-1, 0) ∧ index_ok 2 (-1, -1) →
     in_bounds 2 (norm_pos 2 (-1, 0)) ∧ in_bounds 2 (norm_pos 2 (-1, -1)) ∧
     do_action [[1; 2]; [0; 3]] (action (-1, 0) (-1, -1)) 0%nat
       = do_action [[1; 2]; [0; 3]]
           (action (norm_pos 2 (-1, 0)) (norm_pos 2 (-1, -1))) 0%nat) ∧
  (¬ (index_ok 2 (-1, 0) ∧ index_ok 2 (-1, -1)) →
     do_action [[1; 2]; [0; 3]] (action (-1, 0) (-1, -1)) 0%nat
       = (Raise "IndexError", 1%nat)).
Proof.
  split; [exact example_square|].
  exact (do_action_indices 2 [[1; 2]; [0; 3]] (action (-1, 0) (-1, -1)) 0%nat
           example_square).
Defined.

(** ** The number of do_action calls in a turn of the search *)

Lemma available_actions_length g actions :
  available_actions g = Ok actions → (length actions ≤ 4)%nat.
Proof.
  unfold available_actions. destruct (first_where g 0) as [[x y]|]; [|done].
  simpl. intros [= <-]. repeat case_bool_decide; simpl; lia.
Qed.

Lemma available_actions_least n g actions :
  (2 ≤ n)%nat → valid_grid n g → available_actions g = Ok actions →
  (2 ≤ length actions)%nat.
Proof.
  intros Hn Hv Hact. destruct (valid_available n g Hv) as (p & Hp & Hact'); [lia|].
  rewrite Hact in Hact'. injection Hact' as ->. rewrite length_fmap.
  destruct (first_where_Ok n g 0 p (proj1 Hv) Hp) as [Hb _].
  destruct (neighbours_in_order_length n p Hn Hb) as (Hc & He & Hi).
  destruct (decide (corner n p)) as [?|Hnc]; [rewrite Hc; [lia|done]|].
  destruct (decide (interior n p)) as [?|Hni]; [rewrite Hi; [lia|done]|].
  rewrite He; [lia|]. by split.
Qed.

Section CallsPerTurn.
Variable py_hash : list Z → Z.
Context {K : Type} {cost : Cost K}.
Variable heuristic : grid → grid → nat → pyexp → result K.
Variable exp : pyexp.

Lemma visits_count goal current curr_path actions :
  ∀ (v : @vars K) c v' c',
    mfoldl (visit py_hash heuristic exp goal current curr_path) v actions c
      = (Ok v', c') →
    c' = (c + length actions)%nat ∧ steps v' = steps v.
Proof.
  induction actions as [|a actions IH]; intros v c v' c' Hrun.
  - apply mret_Ok in Hrun as [-> ->]. split; [simpl; lia|done].
  - cbn [mfoldl] in Hrun. apply mbind_Ok in Hrun as (v1 & c1 & Hvisit & Hrest).
    apply visit_inv in Hvisit as (g' & _ & -> & Hv1).
    destruct (IH _ _ _ _ Hrest) as [-> Hsteps]. split; [simpl; lia|].
    rewrite Hsteps. by destruct Hv1 as [[_ ->]|(h & _ & _ & ->)].
Qed.

(** A complete turn: the popped state offers its actions, each of them
    is tried with one call of do_action, and [steps] goes up by one. *)
Lemma astar_iter_count goal (v : @vars K) c v' c' :
  astar_iter py_hash heuristic exp goal v c = (Ok (Continue v'), c') →
  ∃ k current curr_path rest actions,
    open_set v = (k, current, curr_path) :: rest ∧
    available_actions (content current) = Ok actions ∧
    c' = (c + length actions)%nat ∧ steps v' = (steps v + 1)%nat.
Proof.
  intros Hiter. apply astar_iter_Continue in Hiter
    as (k & current & curr_path & rest & actions & v1 & Hopen & _ & _ & Hact & Hfold & ->).
  destruct (visits_count _ _ _ _ _ _ _ _ Hfold) as [-> Hsteps].
  exists k, current, curr_path, rest, actions. cbn [steps]. by rewrite Hsteps.
Qed.

Lemma after_turns_count goal turns :
  ∀ (v : @vars K) c v' c',
    after_turns py_hash heuristic exp turns goal v c = Some (v', c') →
    steps v' = (steps v + turns)%nat ∧ (c ≤ c' ≤ c + 4 * turns)%nat.
Proof.
  induction turns as [|turns IH]; intros v c v' c' Hrun.
  - injection Hrun as <- <-. lia.
  - cbn [after_turns] in Hrun.
    destruct (astar_iter py_hash heuristic exp goal v c) as [[[r|v1]|e] c1] eqn:Hiter;
      [done| |done].
    destruct (astar_iter_count _ _ _ _ _ Hiter)
      as (k & current & curr_path & rest & actions & _ & Hact & -> & Hsteps).
    pose proof (available_actions_length _ _ Hact).
    destruct (IH _ _ _ _ Hrun) as [-> Hc]. rewrite Hsteps. lia.
Qed.
End CallsPerTurn.

(** ** What the heap holds during the search *)

Section HeapInvariant.
Variable py_hash : list Z → Z.
Hypothesis py_hash_inj : ∀ l1 l2, py_hash l1 = py_hash l2 → l1 = l2.
Context {K : Type} {cost : Cost K}.
Variable heuristic : grid → grid → nat → pyexp → result K.
Variable exp : pyexp.
Variables (n : nat) (start goal : grid).
Hypothesis start_valid : valid_grid n start.
Hypothesis goal_valid : valid_grid n goal.
Hypothesis heuristic_total :
  ∀ g step, valid_grid n g → ∃ k, heuristic g goal step exp = Ok k.

Local Abbreviation inv := (search_inv py_hash (valid_grid n) start goal).
Local Abbreviation gs := (mkState py_hash goal).

Lemma after_turns_inv turns :
  ∀ (v : @vars K) c v' c',
    inv None v →
    after_turns py_hash heuristic exp turns gs v c = Some (v', c') →
    inv None v'.
Proof.
  induction turns as [|turns IH]; intros v c v' c' Hinv Hrun.
  - simpl in Hrun. by injection Hrun as <- <-.
  - cbn [after_turns] in Hrun.
    destruct (open_set v) as [|[[k current] curr_path] rest] eqn:Hopen.
    { by rewrite (astar_iter_empty py_hash heuristic exp gs v c Hopen) in Hrun. }
    destruct (astar_iter_spec py_hash py_hash_inj heuristic exp n start goal
                start_valid goal_valid heuristic_total v c k current curr_path rest
                Hinv Hopen)
      as [(Hiter & _)|(v1 & c1 & Hiter & Hinv1 & _)];
      rewrite Hiter in Hrun; [done|].
    by eapply IH.
Qed.

Lemma after_turns_least turns :
  (2 ≤ n)%nat →
  ∀ (v : @vars K) c v' c',
    inv None v →
    after_turns py_hash heuristic exp turns gs v c = Some (v', c') →
    (c + 2 * turns ≤ c')%nat.
Proof.
  intros Hn. induction turns as [|turns IH]; intros v c v' c' Hinv Hrun.
  - injection Hrun as <- <-. lia.
  - cbn [after_turns] in Hrun.
    destruct (astar_iter py_hash heuristic exp gs v c) as [[[r|v1]|e] c1] eqn:Hiter;
      [done| |done].
    assert (inv None v1) as Hinv1.
    { apply (after_turns_inv 1 v c v1 c1 Hinv). cbn [after_turns]. by rewrite Hiter. }
    destruct (astar_iter_count _ _ _ _ _ _ _ _ Hiter)
      as (k & current & curr_path & rest & actions & Hopen & Hact & -> & _).
    assert (valid_grid n (content current)) as Hcv.
    { destruct Hinv as [_ Hitems _ _ _]. rewrite Hopen in Hitems.
      apply Forall_cons in Hitems as [[Hpath _] _].
      exact (moves_valid n start curr_path _ start_valid Hpath). }
    pose proof (available_actions_least n _ _ Hn Hcv Hact).
    pose proof (IH _ _ _ _ Hinv1 Hrun). lia.
Qed.

Lemma after_turns_items turns (v : @vars K) c c' :
  after_turns py_hash heuristic exp turns gs (astar_init (mkState py_hash start)) c
    = Some (v, c') →
  closed_set v = dom (past_len v) ∧
  hash (mkState py_hash start) ∈ closed_set v ∧
  ∀ k s path, (k, s, path) ∈ open_set v →
    moves start path (content s) ∧ valid_grid n (content s) ∧
    hash s = py_hash (tobytes (content s)) ∧ hash s ∈ closed_set v ∧
    replay start path 0%nat = (Ok (content s), length path).
Proof.
  intros Hrun.
  assert (inv None v) as [Hdom Hitems Hkeys Hstart _].
  { eapply after_turns_inv; [|exact Hrun].
    eapply astar_init_search_inv; eauto. }
  split; [done|]. split; [done|]. intros k s path Hin.
  destruct (proj1 (Forall_forall _ _) Hitems _ Hin) as [Hpath Hhash].
  cbn [fst snd] in Hpath, Hhash.
  split; [done|]. split; [exact (moves_valid n start path _ start_valid Hpath)|].
  split; [done|].
  split; [exact (Hkeys _ Hin)|].
  by rewrite (moves_replay _ _ _ 0%nat Hpath).
Qed.
End HeapInvariant.

(** [X16] What the heap of astar holds, after any number of turns of the
    loop on valid N×N start and goal grids: every item [(cost, state,
    path)] carries a path of legal moves that leads from the start grid to
    its state — replaying it with do_action from the start grid gives
    state.content — and its state is in closed_set; closed_set holds the
    start state and has the same keys as past_len.  (Hash without
    collisions, heuristic that returns a number on valid grids.) *)
Theorem astar_heap_paths (py_hash : list Z → Z) {K : Type} {cost : Cost K}
    (heuristic : grid → grid → nat → pyexp → result K) (exp : pyexp)
    (n : nat) (start goal : grid) (turns : nat) (v : @vars K) (calls calls' : nat) :
  (∀ l1 l2, py_hash l1 = py_hash l2 → l1 = l2) →
  valid_grid n start → valid_grid n goal →
  (∀ g step, valid_grid n g → ∃ k, heuristic g goal step exp = Ok k) →
  after_turns py_hash heuristic exp turns (mkState py_hash goal)
    (astar_init (mkState py_hash start)) calls = Some (v, calls') →
  closed_set v = dom (past_len v) ∧
  hash (mkState py_hash start) ∈ closed_set v ∧
  ∀ k s path, (k, s, path) ∈ open_set v →
    moves start path (content s) ∧ valid_grid n (content s) ∧
    hash s = py_hash (tobytes (content s)) ∧ hash s ∈ closed_set v ∧
    replay start path 0%nat = (Ok (content s), length path).
Proof.
  intros Hinj Hs Hg Hh Hrun.
  by eapply (after_turns_items py_hash Hinj heuristic exp n start goal Hs Hg Hh).
Qed.

Lemma example_two_turns :
  ∃ v calls',
    after_turns injective_hash fixed (ExpInt 1) 2 (mkState injective_hash (set_goal 3))
      (astar_init (mkState injective_hash [[1; 0; 2]; [4; 6; 5]; [7; 8; 3]])) 0%nat
      = Some (v, calls') ∧ length (open_set v) = 3%nat.
Proof.
  assert (match after_turns injective_hash fixed (ExpInt 1) 2
                  (mkState injective_hash (set_goal 3))
                  (astar_init (mkState injective_hash [[1; 0; 2]; [4; 6; 5]; [7; 8; 3]]))
                  0%nat with
          | Some (v, _) => length (open_set v)
          | None => 0%nat
          end = 3%nat) as Hlen by (vm_compute; reflexivity).
  destruct (after_turns _ _ _ _ _ _ _) as [[v c]|]; [|discriminate Hlen].
  exists v, c. split; [reflexivity|exact Hlen].
Qed.

Lemma example_3x3_valid :
  valid_grid 3 [[1; 0; 2]; [4; 6; 5]; [7; 8; 3]] ∧ valid_grid 3 (set_goal 3).
Proof.
  split; (split; [split; [done | by repeat constructor]|]);
    apply (bool_decide_unpack _); by vm_compute.
Qed.

Lemma astar_heap_paths_witness :
  (∀ l1 l2, injective_hash l1 = injective_hash l2 → l1 = l2) ∧
  valid_grid 3 [[1; 0; 2]; [4; 6; 5]; [7; 8; 3]] ∧ valid_grid 3 (set_goal 3) ∧
  (∀ g (step : nat), valid_grid 3 g →
     ∃ k, fixed g (set_goal 3) step (ExpInt 1) = Ok k) ∧
  ∃ v calls',
    after_turns injective_hash fixed (ExpInt 1) 2 (mkState injective_hash (set_goal 3))
      (astar_init (mkState injective_hash [[1; 0; 2]; [4; 6; 5]; [7; 8; 3]])) 0%nat
      = Some (v, calls') ∧
    length (open_set v) = 3%nat ∧
    closed_set v = dom (past_len v) ∧
    hash (mkState injective_hash [[1; 0; 2]; [4; 6; 5]; [7; 8; 3]]) ∈ closed_set v ∧
    ∀ k s path, (k, s, path) ∈ open_set v →
      moves [[1; 0; 2]; [4; 6; 5]; [7; 8; 3]] path (content s) ∧
      valid_grid 3 (content s) ∧
      hash s = injective_hash (tobytes (content s)) ∧ hash s ∈ closed_set v ∧
      replay [[1; 0; 2]; [4; 6; 5]; [7; 8; 3]] path 0%nat = (Ok (content s), length path).
Proof.
  destruct example_3x3_valid as [Hs Hg].
  split; [exact injective_hash_inj|]. split; [exact Hs|]. split; [exact Hg|].
  split; [exact (fixed_total 3 (set_goal 3) 1 Hg ltac:(lia))|].
  destruct example_two_turns as (v & calls' & Hrun & Hlen).
  exists v, calls'. split; [exact Hrun|]. split; [exact Hlen|].
  exact (astar_heap_paths injective_hash fixed (ExpInt 1) 3
           [[1; 0; 2]; [4; 6; 5]; [7; 8; 3]] (set_goal 3) 2 v 0%nat calls'
           injective_hash_inj Hs Hg (fixed_total 3 (set_goal 3) 1 Hg ltac:(lia)) Hrun).
Defined.

(** ** The scheduled heuristics in the search *)

(** [X17] The two scheduled heuristics return a number for every valid
    state and goal, at every step and whatever exp is, and with either of
    them astar finds a path of legal moves to every reachable goal —
    whatever the floating-point operations return and however the int and
    float costs compare.  (Hash without collisions.) *)
Theorem astar_scheduled (float : Type) (float_of_int : Z → float)
    (fadd fdiv fpow : float → float → float) (fltb : float → float → bool)
    (arctan : float → float) (num_eqb num_ltb : num float → num float → bool)
    (py_hash : list Z → Z) (exp : pyexp) (n : nat) (start goal : grid)
    (calls : nat) :
  (∀ l1 l2, py_hash l1 = py_hash l2 → l1 = l2) →
  valid_grid n start → solvable start goal →
  (∀ g (step : nat), valid_grid n g →
     (∃ k, step_scheduling_heuristic float float_of_int fadd fdiv fpow fltb
             g goal step exp = Ok k) ∧
     (∃ k, arctan_scheduling_heuristic float float_of_int fadd fdiv fpow arctan
             g goal step exp = Ok k)) ∧
  (∃ fuel path calls',
     astar (cost := num_cost float float_of_int fadd num_eqb num_ltb) py_hash
       (step_scheduling_heuristic float float_of_int fadd fdiv fpow fltb)
       exp fuel start goal calls = (Ok (Some (true, path)), calls') ∧
     moves start path goal) ∧
  (∃ fuel path calls',
     astar (cost := num_cost float float_of_int fadd num_eqb num_ltb) py_hash
       (arctan_scheduling_heuristic float float_of_int fadd fdiv fpow arctan)
       exp fuel start goal calls = (Ok (Some (true, path)), calls') ∧
     moves start path goal).
Proof.
  intros Hinj Hs Hsolv.
  assert (valid_grid n goal) as Hg.
  { destruct Hsolv as [p Hp]. by eapply moves_valid. }
  pose proof (scheduled_total float float_of_int fadd fdiv fpow fltb arctan n goal exp Hg)
    as Htot.
  split; [exact Htot|]. split.
  - apply (astar_finds py_hash Hinj _ exp n start goal Hs Hsolv).
    intros g step Hv. by destruct (Htot g step Hv).
  - apply (astar_finds py_hash Hinj _ exp n start goal Hs Hsolv).
    intros g step Hv. by destruct (Htot g step Hv).
Qed.

Lemma astar_scheduled_witness :
  (∀ l1 l2, injective_hash l1 = injective_hash l2 → l1 = l2) ∧
  valid_grid 2 [[1; 2]; [0; 3]] ∧ solvable [[1; 2]; [0; 3]] (set_goal 2) ∧
  (∀ g (step : nat), valid_grid 2 g →
     (∃ k, step_scheduling_heuristic Z id Z.add Z.div Z.pow Z.ltb
             g (set_goal 2) step ExpNone = Ok k) ∧
     (∃ k, arctan_scheduling_heuristic Z id Z.add Z.div Z.pow id
             g (set_goal 2) step ExpNone = Ok k)) ∧
  (∃ fuel path calls',
     astar (cost := num_cost Z id Z.add (λ _ _, false) (λ _ _, true)) injective_hash
       (step_scheduling_heuristic Z id Z.add Z.div Z.pow Z.ltb)
       ExpNone fuel [[1; 2]; [0; 3]] (set_goal 2) 0%nat
       = (Ok (Some (true, path)), calls') ∧
     moves [[1; 2]; [0; 3]] path (set_goal 2)) ∧
  (∃ fuel path calls',
     astar (cost := num_cost Z id Z.add (λ _ _, false) (λ _ _, true)) injective_hash
       (arctan_scheduling_heuristic Z id Z.add Z.div Z.pow id)
       ExpNone fuel [[1; 2]; [0; 3]] (set_goal 2) 0%nat
       = (Ok (Some (true, path)), calls') ∧
     moves [[1; 2]; [0; 3]] path (set_goal 2)).
Proof.
  split; [exact injective_hash_inj|]. split; [exact example_start_valid|].
  split; [exact example_solvable|].
  exact (astar_scheduled Z id Z.add Z.div Z.pow Z.ltb id (λ _ _, false) (λ _ _, true)
           injective_hash ExpNone 2 [[1; 2]; [0; 3]] (set_goal 2) 0%nat
           injective_hash_inj example_start_valid example_solvable).
Defined.

(** ** The solvers of the experiments *)

Section ExperimentRuns.
Variable float : Type.
Variable int_truediv : Z → Z → float.
Variable fsub : float → float → float.
Variable py_hash : list Z → Z.
Hypothesis py_hash_inj : ∀ l1 l2, py_hash l1 = py_hash l2 → l1 = l2.
Variables (n : nat) (content goal : grid).
Hypothesis content_valid : valid_grid n content.
Hypothesis goal_reachable : solvable content goal.

Local Abbreviation solve := (Experiments.solve float int_truediv fsub py_hash).

End ExperimentRuns.




(** ** Cost and steps *)

(** [X20] The cost grows with the steps: after any number of complete
    turns of the loop of astar, [steps] is the number of turns, and the
    turns have made at most four do_action calls each (one per action
    that available_actions returns), whatever the input; on valid N×N
    grids with N ≥ 2 they have made at least two each.  (For the lower
    bound: hash without collisions, heuristic that returns a number on
    valid grids.) *)
Theorem astar_calls_per_step (py_hash : list Z → Z) {K : Type} {cost : Cost K}
    (heuristic : grid → grid → nat → pyexp → result K) (exp : pyexp)
    (n : nat) (start goal : grid) (turns : nat) (v : @vars K) (calls calls' : nat) :
  after_turns py_hash heuristic exp turns (mkState py_hash goal)
    (astar_init (mkState py_hash start)) calls = Some (v, calls') →
  steps v = turns ∧
  (calls ≤ calls' ≤ calls + 4 * turns)%nat ∧
  ((∀ l1 l2, py_hash l1 = py_hash l2 → l1 = l2) →
   (2 ≤ n)%nat → valid_grid n start → valid_grid n goal →
   (∀ g step, valid_grid n g → ∃ k, heuristic g goal step exp = Ok k) →
   (calls + 2 * turns ≤ calls')%nat).
Proof.
  intros Hrun.
  destruct (after_turns_count py_hash heuristic exp _ _ _ _ _ _ Hrun) as [Hsteps Hc].
  split; [exact Hsteps|]. split; [exact Hc|].
  intros Hinj Hn Hs Hg Hh.
  eapply (after_turns_least py_hash Hinj heuristic exp n start goal Hs Hg Hh turns Hn);
    [|exact Hrun].
  eapply astar_init_search_inv; eauto.
Qed.

Lemma astar_calls_per_step_witness :
  ∃ v calls',
    after_turns injective_hash fixed (ExpInt 1) 2 (mkState injective_hash (set_goal 3))
      (astar_init (mkState injective_hash [[1; 0; 2]; [4; 6; 5]; [7; 8; 3]])) 0%nat
      = Some (v, calls') ∧
    steps v = 2%nat ∧
    (0 ≤ calls' ≤ 0 + 4 * 2)%nat ∧
    ((∀ l1 l2, injective_hash l1 = injective_hash l2 → l1 = l2) →
     (2 ≤ 3)%nat → valid_grid 3 [[1; 0; 2]; [4; 6; 5]; [7; 8; 3]] →
     valid_grid 3 (set_goal 3) →
     (∀ g (step : nat), valid_grid 3 g →
        ∃ k, fixed g (set_goal 3) step (ExpInt 1) = Ok k) →
     (0 + 2 * 2 ≤ calls')%nat).
Proof.
  destruct example_two_turns as (v & calls' & Hrun & _).
  exists v, calls'. split; [exact Hrun|].
  exact (astar_calls_per_step injective_hash fixed (ExpInt 1) 3
           [[1; 0; 2]; [4; 6; 5]; [7; 8; 3]] (set_goal 3) 2 v 0%nat calls' Hrun).
Defined.

(** ** Symmetry of the heuristic *)

Lemma manhattan_sum_sym n state goal :
  square n state → square n goal →
  manhattan_sum state goal = manhattan_sum goal state.
Proof.
  intros Hs Hg. unfold manhattan_sum.
  rewrite (tiles_square n state Hs), (tiles_square n goal Hg). f_equal.
  apply list_fmap_ext. intros _ v _. unfold md. lia.
Qed.

(** [X21] fixed_heuristic with exp = 1 and p = 1 is symmetric: it
    returns the same value for (state, goal) and for (goal, state), on
    valid N×N grids with N < 2^20. *)
Theorem fixed_heuristic_symmetric (n : nat) (state goal : grid)
    (step step' : option nat) :
  valid_grid n state → valid_grid n goal → Z.of_nat n < 2 ^ 20 →
  fixed_heuristic state goal step (ExpInt 1) 1
    = fixed_heuristic goal state step' (ExpInt 1) 1.
Proof.
  intros Hs Hg Hn. rewrite !(fixed_heuristic_exact n) by done.
  by rewrite (manhattan_sum_sym n state goal (proj1 Hs) (proj1 Hg)).
Qed.

Lemma fixed_heuristic_symmetric_witness :
  valid_grid 2 [[1; 2]; [0; 3]] ∧ valid_grid 2 (set_goal 2) ∧ Z.of_nat 2 < 2 ^ 20 ∧
  fixed_heuristic [[1; 2]; [0; 3]] (set_goal 2) None (ExpInt 1) 1
    = fixed_heuristic (set_goal 2) [[1; 2]; [0; 3]] None (ExpInt 1) 1.
Proof.
  split; [exact example_start_valid|]. split; [exact example_goal_valid|].
  split; [lia|].
  exact (fixed_heuristic_symmetric 2 [[1; 2]; [0; 3]] (set_goal 2) None None
           example_start_valid example_goal_valid ltac:(lia)).
Defined.

(** ** init_state with a wrong puzzle_dim *)

(** [X22] When puzzle_dim is not the size of the goal (a valid N×N grid,
    N ≥ 2), init_state raises ValueError in its final reshape — after the
    whole random walk has been made: do_action has been called
    randomize_steps times. *)
Theorem init_state_wrong_dim (n : nat) (goal : grid) (puzzle_dim : nat)
    (randomize_steps : nat) (rnd : nat → nat) (calls : nat) :
  (2 ≤ n)%nat → valid_grid n goal → puzzle_dim ≠ n →
  init_state goal puzzle_dim randomize_steps rnd calls
    = (Raise "ValueError", (calls + randomize_steps)%nat).
Proof.
  intros Hn Hv Hne.
  destruct (randomize_spec n rnd Hn randomize_steps 0%nat goal calls Hv)
    as (state & path & Hrun & Hp & _).
  pose proof (moves_valid n goal path state Hv Hp) as [Hs _].
  unfold init_state. rewrite mbind_run, Hrun. unfold mlift, np_reshape.
  rewrite bool_decide_eq_false_2; [done|].
  rewrite (square_length_concat n state Hs). nia.
Qed.

Lemma init_state_wrong_dim_witness :
  (2 ≤ 2)%nat ∧ valid_grid 2 (set_goal 2) ∧ 4%nat ≠ 2%nat ∧
  init_state (set_goal 2) 4 7 (λ k, k) 0%nat = (Raise "ValueError", (0 + 7)%nat).
Proof.
  split; [lia|]. split; [exact example_goal_valid|]. split; [lia|].
  exact (init_state_wrong_dim 2 (set_goal 2) 4 7 (λ k, k) 0%nat ltac:(lia)
           example_goal_valid ltac:(lia)).
Defined.

(** ** Whatever astar returns is sound *)

Section Soundness.
Variable py_hash : list Z → Z.
Context {K : Type} {cost : Cost K}.
Variable heuristic : grid → grid → nat → pyexp → result K.
Variable exp : pyexp.
Variable start : grid.

Local Abbreviation items_ok v :=
  (Forall (item_ok py_hash start) (open_set (v : @vars K))).

Lemma visit_items goal current curr_path actions (v : @vars K) a c v' c' :
  moves start curr_path (content current) →
  available_actions (content current) = Ok actions → a ∈ actions →
  items_ok v →
  visit py_hash heuristic exp goal current curr_path v a c = (Ok v', c') →
  items_ok v'.
Proof.
  intros Hpath Hact Ha Hok Hvisit.
  apply visit_inv in Hvisit as (g' & Hdo & _ & [[_ ->]|(h & _ & _ & ->)]); [done|].
  cbn [open_set]. apply Forall_forall. intros e [->|He]%elem_of_heappush.
  - split; cbn [fst snd content hash mkState]; [|done].
    eapply moves_snoc; [exact Hpath|]. by exists actions.
  - by apply (proj1 (Forall_forall _ _) Hok).
Qed.

Lemma astar_iter_items goal (v : @vars K) c v' c' :
  items_ok v →
  astar_iter py_hash heuristic exp goal v c = (Ok (Continue v'), c') →
  items_ok v'.
Proof.
  intros Hok Hiter. apply astar_iter_Continue in Hiter
    as (k & current & curr_path & rest & actions & v1 & Hopen & _ & _ & Hact & Hfold & ->).
  cbn [open_set]. rewrite Hopen in Hok. apply Forall_cons in Hok as [[Hpath _] Hrest].
  cbn [fst snd] in Hpath.
  eapply (mfoldl_inv (λ s, items_ok s)); [| |exact Hfold]; [|exact Hrest].
  intros s a c0 s' c0' Ha Hs Hvisit. by eapply visit_items.
Qed.

(** How a turn of the loop returns. *)
Lemma astar_iter_Return goal (v : @vars K) c r c' :
  astar_iter py_hash heuristic exp goal v c = (Ok (Return r), c') →
  (open_set v = [] ∧ r = (false, [])) ∨
  (∃ k current rest, open_set v = (k, current, r.2) :: rest ∧
                     State_eq current goal = true ∧ r.1 = true).
Proof.
  unfold astar_iter, heappop.
  destruct (open_set v) as [|[[k current] curr_path] rest] eqn:Hopen.
  { intros [[= ->] _]%mret_Ok. by left. }
  intros ([] & c1 & [Hlog ->]%mlift_Ok & Hrest)%mbind_Ok.
  destruct (State_eq current goal) eqn:Heq.
  - apply mret_Ok in Hrest as [[= ->] _]. right. by exists k, current, rest.
  - apply mbind_Ok in Hrest as (actions & c2 & _ & Hrest).
    apply mbind_Ok in Hrest as (v1 & c3 & _ & Hrest).
    by apply mret_Ok in Hrest as [[=] _].
Qed.

Lemma astar_loop_sound goal fuel :
  ∀ (v : @vars K) c r c',
    items_ok v →
    astar_loop py_hash heuristic exp fuel (mkState py_hash goal) v c
      = (Ok (Some r), c') →
    (r.1 = true ∧ ∃ g, moves start r.2 g ∧
                       py_hash (tobytes g) = py_hash (tobytes goal)) ∨
    r = (false, []).
Proof.
  induction fuel as [|fuel IH]; intros v c r c' Hok Hrun.
  - by apply mret_Ok in Hrun as [[=] _].
  - cbn [astar_loop] in Hrun. apply mbind_Ok in Hrun as (o & c1 & Hiter & Hrest).
    destruct o as [r0|v1].
    + apply mret_Ok in Hrest as [[= <-] _].
      apply astar_iter_Return in Hiter
        as [[_ ->]|(k & current & rest & Hopen & Heq & Htrue)]; [by right|].
      left. split; [done|]. rewrite Hopen in Hok.
      apply Forall_cons in Hok as [[Hpath Hhash] _]. cbn [fst snd] in Hpath, Hhash.
      exists (content current). split; [done|].
      apply bool_decide_eq_true in Heq. cbn [hash mkState] in Heq.
      by rewrite <- Heq, Hhash.
    + eapply IH; [|exact Hrest]. by eapply astar_iter_items.
Qed.
End Soundness.

(** [X23] Whatever astar returns is sound, for every input, heuristic,
    exp and hash: if it returns [(True, path)], then the actions of path
    are legal moves, each one offered by available_actions and applied by
    do_action at its turn, that lead from the start array to an array
    with the hash of the goal — which is the goal itself when both are
    valid grids and the hash has no collisions; and the only other value
    it returns is [(False, [])]. *)
Theorem astar_sound (py_hash : list Z → Z) {K : Type} {cost : Cost K}
    (heuristic : grid → grid → nat → pyexp → result K) (exp : pyexp)
    (start goal : grid) (fuel : nat) (calls calls' : nat)
    (converged : bool) (path : list Action) :
  astar py_hash heuristic exp fuel start goal calls
    = (Ok (Some (converged, path)), calls') →
  (converged = true ∧
   ∃ g, moves start path g ∧ replay start path 0%nat = (Ok g, length path) ∧
        py_hash (tobytes g) = py_hash (tobytes goal) ∧
        ∀ n, (∀ l1 l2, py_hash l1 = py_hash l2 → l1 = l2) →
             valid_grid n start → valid_grid n goal → g = goal) ∨
  (converged = false ∧ path = []).
Proof.
  intros Hrun. unfold astar in Hrun.
  apply (astar_loop_sound py_hash heuristic exp start) in Hrun.
  - destruct Hrun as [[Htrue (g & Hpath & Hhash)]|[= -> ->]]; [left|by right].
    cbn [fst snd] in Htrue, Hpath.
    split; [done|]. exists g. split; [done|].
    split; [by rewrite (moves_replay _ _ _ 0%nat Hpath)|]. split; [done|].
    intros n Hinj Hs Hg.
    apply (key_inj py_hash Hinj n);
      [exact (moves_valid n start path g Hs Hpath)|exact Hg|exact Hhash].
  - cbn [astar_init open_set heappush]. repeat constructor.
Qed.

Lemma example_run :
  ∃ calls',
    astar injective_hash fixed (ExpInt 1) 5 [[1; 2]; [0; 3]] (set_goal 2) 0%nat
    = (Ok (Some (true, [action (1, 0) (1, 1)])), calls').
Proof. eexists. vm_compute. reflexivity. Qed.

Lemma astar_sound_witness :
  ∃ calls',
    astar injective_hash fixed (ExpInt 1) 5 [[1; 2]; [0; 3]] (set_goal 2) 0%nat
      = (Ok (Some (true, [action (1, 0) (1, 1)])), calls') ∧
    ((true = true ∧
      ∃ g, moves [[1; 2]; [0; 3]] [action (1, 0) (1, 1)] g ∧
           replay [[1; 2]; [0; 3]] [action (1, 0) (1, 1)] 0%nat = (Ok g, 1%nat) ∧
           injective_hash (tobytes g) = injective_hash (tobytes (set_goal 2)) ∧
           ∀ n, (∀ l1 l2, injective_hash l1 = injective_hash l2 → l1 = l2) →
                valid_grid n [[1; 2]; [0; 3]] → valid_grid n (set_goal 2) →
                g = set_goal 2) ∨
     (true = false ∧ [action (1, 0) (1, 1)] = [])).
Proof.
  destruct example_run as [calls' Hrun]. exists calls'. split; [exact Hrun|].
  exact (astar_sound injective_hash fixed (ExpInt 1) [[1; 2]; [0; 3]] (set_goal 2) 5
           0%nat calls' true [action (1, 0) (1, 1)] Hrun).
Defined.

(** ** The exceptions astar can raise *)

Lemma mbind_Raise {A B} (m : M A) (k : A → M B) c e c2 :
  (m ≫= k) c = (Raise e, c2) →
  m c = (Raise e, c2) ∨ ∃ a c1, m c = (Ok a, c1) ∧ k a c1 = (Raise e, c2).
Proof.
  rewrite mbind_run. destruct (m c) as [[a|e'] c1].
  - intros Hk. right. by exists a, c1.
  - intros [= -> ->]. by left.
Qed.

Lemma mfoldl_Raise {A S} (P : S → Prop) (f : S → A → M S) l e :
  (∀ s a c s' c', a ∈ l → P s → f s a c = (Ok s', c') → P s') →
  ∀ s c c', P s → mfoldl f s l c = (Raise e, c') →
    ∃ s1 a c1, P s1 ∧ a ∈ l ∧ f s1 a c1 = (Raise e, c').
Proof.
  induction l as [|a l IH]; intros Hf s c c' Hs; cbn [mfoldl].
  - intros [=].
  - intros [Hr|(s1 & c1 & H1 & H2)]%mbind_Raise.
    + exists s, a, c. split; [done|]. split; [apply list_elem_of_here|done].
    + assert (∀ s a0 c s' c', a0 ∈ l → P s → f s a0 c = (Ok s', c') → P s') as Hf'.
      { intros. eapply Hf; eauto. by apply list_elem_of_further. }
      assert (P s1) as Hs1.
      { eapply Hf; eauto. apply list_elem_of_here. }
      destruct (IH Hf' s1 c1 c' Hs1 H2) as (s2 & a2 & c2 & Hs2 & Ha2 & Hr2).
      exists s2, a2, c2. split; [done|]. split; [by apply list_elem_of_further|done].
Qed.

Lemma rmapM_Raise_inv {A B} (f : A → result B) l e :
  rmapM f l = Raise e → ∃ a, a ∈ l ∧ f a = Raise e.
Proof.
  induction l as [|a l IH]; [done|]. simpl.
  destruct (f a) as [b|e'] eqn:Ha; simpl.
  - destruct (rmapM f l) as [bs|e'']; simpl; [done|].
    intros [= ->]. destruct (IH eq_refl) as (a' & Ha' & Hr).
    exists a'. split; [by apply list_elem_of_further|done].
  - intros [= ->]. exists a. split; [apply list_elem_of_here|done].
Qed.

Lemma norm_index_raise n i e : norm_index n i = Raise e → e = "IndexError".
Proof. unfold norm_index. repeat case_bool_decide; by intros [=]. Qed.

Lemma getitem_raise g p e : getitem g p = Raise e → e = "IndexError".
Proof.
  unfold getitem. destruct (norm_index (length g) p.1) as [r|e1] eqn:Hr; simpl.
  - destruct (g !! r) as [row|]; [|by intros [=]].
    destruct (norm_index (length row) p.2) as [c|e2] eqn:Hc; simpl.
    + destruct (row !! c); by intros [=].
    + intros [= <-]. by eapply norm_index_raise.
  - intros [= <-]. by eapply norm_index_raise.
Qed.

Lemma setitem_raise g p v e : setitem g p v = Raise e → e = "IndexError".
Proof.
  unfold setitem. destruct (norm_index (length g) p.1) as [r|e1] eqn:Hr; simpl.
  - destruct (g !! r) as [row|]; [|by intros [=]].
    destruct (norm_index (length row) p.2) as [c|e2] eqn:Hc; simpl; [done|].
    intros [= <-]. by eapply norm_index_raise.
  - intros [= <-]. by eapply norm_index_raise.
Qed.

Lemma do_action_body_raise g a e : do_action_body g a = Raise e → e = "IndexError".
Proof.
  unfold do_action_body.
  destruct (getitem g (pos2 a)) as [v2|e2] eqn:H2; simpl;
    [|intros [= <-]; by eapply getitem_raise].
  destruct (getitem g (pos1 a)) as [v1|e1] eqn:H1; simpl;
    [|intros [= <-]; by eapply getitem_raise].
  destruct (setitem g (pos1 a) v2) as [g1|e3] eqn:H3; simpl;
    [|intros [= <-]; by eapply setitem_raise].
  destruct (setitem g1 (pos2 a) v1) as [g2|e4] eqn:H4; simpl; [done|].
  intros [= <-]. by eapply setitem_raise.
Qed.

Lemma available_actions_raise g e : available_actions g = Raise e → e = "IndexError".
Proof.
  unfold available_actions, first_where.
  destruct (find_from g 0 0) as [[r c]|]; simpl; [done|]. by intros [= <-].
Qed.

Lemma log_progress_raise {K : Type} goal current (v : @vars K) e :
  log_progress goal current v = Raise e → e = "IndexError".
Proof.
  unfold log_progress. case_bool_decide; [|done].
  unfold fixed_heuristic.
  destruct (rmapM _ _) as [ds|e'] eqn:Hmap; simpl.
  - unfold sum_pow, pow64. destruct ds; repeat case_bool_decide; try lia; by intros [=].
  - intros [= ->]. apply rmapM_Raise_inv in Hmap as (t & _ & Ht).
    destruct (manhattan_distance_cases (content current) (content goal) t)
      as [[d Hd]|Hr]; congruence.
Qed.

Section Exceptions.
Variable py_hash : list Z → Z.
Context {K : Type} {cost : Cost K}.
Variable heuristic : grid → grid → nat → pyexp → result K.
Variable exp : pyexp.

Lemma neighbor_test_safe (v : @vars K) current neighbor :
  closed_set v = dom (past_len v) → hash current ∈ closed_set v →
  ∃ b, neighbor_test v current neighbor = Ok b.
Proof.
  intros Hdom Hcur. unfold neighbor_test. case_bool_decide as Hn; [by eexists|].
  assert (hash neighbor ∈ closed_set v) as Hnb.
  { destruct (decide (hash neighbor ∈ closed_set v)); [done|].
    first [exact Hn | by destruct Hn]. }
  rewrite Hdom in Hcur, Hnb.
  apply elem_of_dom in Hcur as [pc Hpc]. apply elem_of_dom in Hnb as [pn Hpn].
  unfold dict_get. rewrite Hpc, Hpn. by eexists.
Qed.

Local Abbreviation round_ok current v :=
  (keys_ok v ∧ hash (current : State) ∈ closed_set (v : @vars K)).

Lemma visit_keys goal current curr_path (v : @vars K) a c v' c' :
  round_ok current v →
  visit py_hash heuristic exp goal current curr_path v a c = (Ok v', c') →
  round_ok current v'.
Proof.
  intros [[Hdom Hitems] Hcur] Hvisit.
  apply visit_inv in Hvisit as (g' & _ & _ & [[_ ->]|(h & _ & _ & ->)]); [done|].
  split; [split|]; cbn [open_set closed_set past_len].
  - rewrite dom_insert_L. by rewrite Hdom.
  - intros e [->|He]%elem_of_heappush; [set_solver|].
    apply elem_of_union_r. by apply Hitems.
  - by apply elem_of_union_r.
Qed.

Lemma visit_raise goal current curr_path (v : @vars K) a c e c' :
  round_ok current v →
  visit py_hash heuristic exp goal current curr_path v a c = (Raise e, c') →
  e = "IndexError" ∨ ∃ g g' step, heuristic g g' step exp = Raise e.
Proof.
  intros [[Hdom _] Hcur]. unfold visit.
  intros [Hr|(g' & c1 & Hdo & Hrest)]%mbind_Raise.
  { left. unfold do_action in Hr. injection Hr as Hr _.
    by eapply do_action_body_raise. }
  destruct (neighbor_test_safe v current (mkState py_hash g') Hdom Hcur) as [b Hb].
  apply mbind_Raise in Hrest as [Hr|(b' & c2 & Hb' & Hrest)].
  { unfold mlift in Hr. congruence. }
  unfold mlift in Hb'. rewrite Hb in Hb'. injection Hb' as <- <-.
  destruct b; [|done].
  apply mbind_Raise in Hrest as [Hr|(h & c3 & _ & Hrest)]; [|done].
  right. unfold mlift in Hr. injection Hr as Hr _. by eauto.
Qed.

Lemma astar_iter_keys goal (v : @vars K) c v' c' :
  keys_ok v →
  astar_iter py_hash heuristic exp goal v c = (Ok (Continue v'), c') →
  keys_ok v'.
Proof.
  intros [Hdom Hitems] Hiter. apply astar_iter_Continue in Hiter
    as (k & current & curr_path & rest & actions & v1 & Hopen & _ & _ & _ & Hfold & ->).
  assert (round_ok current v1) as [Hok _]; [|exact Hok].
  eapply (mfoldl_inv (λ s, round_ok current s)); [| |exact Hfold].
  - intros s a c0 s' c0' _ Hs Hvisit. by eapply visit_keys.
  - split; [split|]; cbn [open_set closed_set past_len]; [done| |].
    + intros e He. apply Hitems. rewrite Hopen. by apply list_elem_of_further.
    + apply (Hitems (k, current, curr_path)). rewrite Hopen. apply list_elem_of_here.
Qed.

Lemma astar_iter_raise goal (v : @vars K) c e c' :
  keys_ok v →
  astar_iter py_hash heuristic exp goal v c = (Raise e, c') →
  e = "IndexError" ∨ ∃ g g' step, heuristic g g' step exp = Raise e.
Proof.
  intros [Hdom Hitems]. unfold astar_iter, heappop.
  destruct (open_set v) as [|[[k current] curr_path] rest] eqn:Hopen; [done|].
  intros [Hr|([] & c1 & _ & Hrest)]%mbind_Raise.
  { left. unfold mlift in Hr. injection Hr as Hr _. by eapply log_progress_raise. }
  destruct (State_eq current goal); [done|].
  apply mbind_Raise in Hrest as [Hr|(actions & c2 & _ & Hrest)].
  { left. unfold mlift in Hr. injection Hr as Hr _. by eapply available_actions_raise. }
  apply mbind_Raise in Hrest as [Hr|(v1 & c3 & _ & Hrest)]; [|done].
  apply (mfoldl_Raise (λ s, round_ok current s)) in Hr
    as (s1 & a & c4 & Hs1 & _ & Hr).
  - by eapply visit_raise.
  - intros s a c0 s' c0' _ Hs Hvisit. by eapply visit_keys.
  - split; [split|]; cbn [open_set closed_set past_len]; [done| |].
    + intros e0 He. apply Hitems. by apply list_elem_of_further.
    + apply (Hitems (k, current, curr_path)). apply list_elem_of_here.
Qed.

Lemma astar_loop_raise goal fuel :
  ∀ (v : @vars K) c e c',
    keys_ok v →
    astar_loop py_hash heuristic exp fuel goal v c = (Raise e, c') →
    e = "IndexError" ∨ ∃ g g' step, heuristic g g' step exp = Raise e.
Proof.
  induction fuel as [|fuel IH]; intros v c e c' Hok Hrun; [done|].
  cbn [astar_loop] in Hrun.
  apply mbind_Raise in Hrun as [Hr|(o & c1 & Hiter & Hrest)].
  - by eapply astar_iter_raise.
  - destruct o as [r|v1]; [done|].
    eapply IH; [|exact Hrest]. by eapply astar_iter_keys.
Qed.
End Exceptions.

(** [X24] The exceptions of astar, for every input, hash, heuristic and
    exp: whenever astar raises, it is an IndexError (from get_pos in the
    progress line, from available_actions on an array without 0, or from
    do_action) or an exception raised by the heuristic.  In particular
    the lookups past_len[current] and past_len[neighbor] never raise
    KeyError: every state of closed_set has its entry in past_len. *)
Theorem astar_exceptions (py_hash : list Z → Z) {K : Type} {cost : Cost K}
    (heuristic : grid → grid → nat → pyexp → result K) (exp : pyexp)
    (start goal : grid) (fuel : nat) (calls calls' : nat) (e : string) :
  astar py_hash heuristic exp fuel start goal calls = (Raise e, calls') →
  e = "IndexError" ∨ ∃ g g' step, heuristic g g' step exp = Raise e.
Proof.
  intros Hrun. unfold astar in Hrun.
  eapply astar_loop_raise; [|exact Hrun].
  split; cbn [astar_init open_set closed_set past_len heappush].
  - by rewrite dom_singleton_L.
  - intros e0 ->%list_elem_of_singleton. cbn [fst snd]. set_solver.
Qed.

Lemma astar_exceptions_witness :
  astar injective_hash fixed (ExpInt 1) 1 [[1; 1]; [2; 0]] (set_goal 2) 0%nat
    = (Raise "IndexError", 0%nat) ∧
  ("IndexError" = "IndexError" ∨
   ∃ g g' (step : nat), fixed g g' step (ExpInt 1) = Raise "IndexError").
Proof.
  destruct example_missing_tile as [Ht Hmiss].
  split; [exact (astar_missing_tile _ _ _ _ _ _ _ 3 Ht Hmiss)|].
  exact (astar_exceptions injective_hash fixed (ExpInt 1) [[1; 1]; [2; 0]] (set_goal 2)
           1 0%nat 0%nat "IndexError" (astar_missing_tile _ _ _ _ _ _ _ 3 Ht Hmiss)).
Defined.

(** ** Termination without any premise on the hash *)

(** [X25] astar terminates on valid N×N start and goal grids whatever the
    hash function, collisions included (the heuristic returning a number
    on valid grids): from some number of turns on it returns one and the
    same result, which is [(False, [])] or [(True, path)] for a path of
    legal moves from the start grid to a grid with the hash of the
    goal. *)
Theorem astar_terminates (py_hash : list Z → Z) {K : Type} {cost : Cost K}
    (heuristic : grid → grid → nat → pyexp → result K) (exp : pyexp)
    (n : nat) (start goal : grid) (calls : nat) :
  valid_grid n start → valid_grid n goal →
  (∀ g step, valid_grid n g → ∃ k, heuristic g goal step exp = Ok k) →
  ∃ fuel r calls',
    (∀ fuel', (fuel ≤ fuel')%nat →
       astar py_hash heuristic exp fuel' start goal calls = (Ok (Some r), calls')) ∧
    (r = (false, []) ∨
     ∃ path g, r = (true, path) ∧ moves start path g ∧
               py_hash (tobytes g) = py_hash (tobytes goal)).
Proof.
  intros Hs Hg Hh.
  destruct (astar_stops py_hash heuristic exp n start goal Hs Hg Hh calls)
    as (fuel & r & calls' & Hrun & Hr).
  exists fuel, r, calls'. split; [|exact Hr].
  intros fuel' Hle. unfold astar in *. by eapply astar_loop_more_fuel.
Qed.

Lemma astar_terminates_witness :
  valid_grid 2 [[1; 2]; [0; 3]] ∧ valid_grid 2 (set_goal 2) ∧
  (∀ g (step : nat), valid_grid 2 g →
     ∃ k, fixed g (set_goal 2) step (ExpInt 1) = Ok k) ∧
  ∃ fuel r calls',
    (∀ fuel', (fuel ≤ fuel')%nat →
       astar (hash16_colliding [0; 2; 1; 3] [1; 2; 3; 0]) fixed (ExpInt 1) fuel'
         [[1; 2]; [0; 3]] (set_goal 2) 0%nat
       = (Ok (Some r), calls')) ∧
    (r = (false, []) ∨
     ∃ path g, r = (true, path) ∧ moves [[1; 2]; [0; 3]] path g ∧
               hash16_colliding [0; 2; 1; 3] [1; 2; 3; 0] (tobytes g)
               = hash16_colliding [0; 2; 1; 3] [1; 2; 3; 0] (tobytes (set_goal 2))).
Proof.
  split; [exact example_start_valid|]. split; [exact example_goal_valid|].
  split; [exact (fixed_total 2 (set_goal 2) 1 example_goal_valid ltac:(lia))|].
  exact (astar_terminates (hash16_colliding [0; 2; 1; 3] [1; 2; 3; 0]) fixed (ExpInt 1) 2
           [[1; 2]; [0; 3]] (set_goal 2) 0%nat
           example_start_valid example_goal_valid
           (fixed_total 2 (set_goal 2) 1 example_goal_valid ltac:(lia))).
Defined.
